(** * A shallow embedding of the D2Q9 lattice Boltzmann solver
      [hw0/lbm_solver-wo.py] (class [lbm_solver]).

    The solver is a Taichi program: every field is a dense array of
    32-bit floats (or integers) and every [@ti.kernel] is a sequence of
    top-level [for] loops whose iterations the Taichi runtime is free to
    execute in parallel.  The embedding keeps three things explicit:

    - the arithmetic: all kernels are written over an abstract scalar
      type (class [Scalar]), so that whatever is proved about the data
      flow holds for every interpretation of the floating-point
      operations; exact rational arithmetic is one instance;
    - the array bounds: a field is a function on [Z * Z] together with the
      grid shape [nx * ny]; reading or writing outside the shape is a fault
      ([None]);
    - the iteration order of every parallel loop: a kernel takes the order
      in which its iterations take effect, and the serial order of the
      source text is one admissible choice.

    The kernels [init], [collide_and_stream], [update_macro_var],
    [apply_bc] (with [apply_bc_core] and [f_eq]), the time loop of [solve],
    the display kernels [get_display_var] and [get_display_var_x],
    [pass_to_py] and the names of the frame files are embedded.  The
    vorticity, the colour mapping and the GUI calls of [solve] (NumPy,
    Matplotlib and [ti.GUI]) only read the fields and are left out. *)

From Stdlib Require Import ZArith QArith Lia FunctionalExtensionality.
From stdpp Require Import base option list.
From Stdlib Require String Ascii Decimal DecimalString DecimalNat.

Local Open Scope Z_scope.

(** ** Scalar arithmetic *)

(** The operations the kernels perform on [ti.f32] values.  [flit q] is the
    scalar denoted by a literal (or by an integer converted to floating
    point) of exact value [q]; [fsq x] is [x ** 2] (the source writes both
    [x**2.0] and [x**2]).  The three laws hold for IEEE arithmetic and are
    the only facts about scalars that the structural results rely on. *)
Class Scalar (F : Type) := {
  flit : Q → F;
  fadd : F → F → F;
  fsub : F → F → F;
  fmul : F → F → F;
  fdiv : F → F → F;
  fsq : F → F;
  fleb : F → F → bool;
  feqb : F → F → bool;
  fmul_comm : ∀ x y, fmul x y = fmul y x;
  feqb_one_one : feqb (flit 1) (flit 1) = true;
  feqb_zero_one : feqb (flit 0) (flit 1) = false
}.

(** An [i32] operand in mixed arithmetic is converted to floating point. *)
Definition of_int `{Scalar F} (z : Z) : F := flit (inject_Z z).

(** ** Iteration spaces *)

(** [range lo hi] is [lo, lo+1, ..., hi-1]. *)
Definition range (lo hi : Z) : list Z := seqZ lo (hi - lo).

(** One dimension of a [ti.ndrange]: a pair [(lo, hi)]; a bare integer [n]
    stands for [(0, n)]. *)
Definition dim : Type := Z * Z.
Definition upto (n : Z) : dim := (0, n).
Definition extent (d : dim) : Z := d.2 - d.1.

(** [for i in ti.ndrange(d0)]. *)
Definition ndrange1 (d0 : dim) : list Z := range d0.1 d0.2.

(** [for i, j in ti.ndrange(d0, d1)], in row-major order. *)
Definition ndrange2 (d0 d1 : dim) : list (Z * Z) :=
  i ← range d0.1 d0.2; j ← range d1.1 d1.2; [(i, j)].

(** [for j in ti.ndrange(d0, d1)]: a two-dimensional range bound to a single
    loop variable.  Every positional argument of [ti.ndrange] is one
    dimension, as in [ti.ndrange(self.nx, self.ny)] and
    [ti.ndrange((1, self.nx - 1), (1, self.ny - 1))] of the same file.
    Taichi runs an [ndrange] loop over the flattened index
    [0 .. extent d0 * extent d1 - 1] and computes the loop variables from
    it; a single loop variable receives the flattened index itself, plus
    the lower bound of the first dimension. *)
Definition ndrange2_flat (d0 d1 : dim) : list Z :=
  (λ I, I + d0.1) <$> range 0 (extent d0 * extent d1).

(** [for k in ti.static(range(n))]: unrolled at compile time, hence always
    executed in order. *)
Definition static_range (n : nat) : list nat := seq 0 n.
Arguments static_range : simpl never.

(** ** The D2Q9 lattice ([__init__], lines 51-62) *)

Definition w_arr : list Q :=
  [4 # 9; 1 # 9; 1 # 9; 1 # 9; 1 # 9; 1 # 36; 1 # 36; 1 # 36; 1 # 36]%Q.

Definition e_arr : list (Z * Z) :=
  [(0, 0); (1, 0); (0, 1); (-1, 0); (0, -1); (1, 1); (-1, 1); (-1, -1); (1, -1)].

Definition e (k : nat) : Z * Z := nth k e_arr (0, 0).

(** ** Parameters and grid state *)

(** The constructor arguments.  [bc_type] and [bc_value] are the
    four-element arrays indexed by edge ([0] left, [1] top, [2] right,
    [3] bottom); [cy_para] is [[cx; cy; r]]. *)
Record Config (F : Type) := {
  nx : Z;
  ny : Z;
  niu : F;
  bc_type : list Z;
  bc_value : list (F * F);
  cy : Z;
  cy_para : list F;
  steps : Z
}.
Arguments nx {F} _.
Arguments ny {F} _.
Arguments niu {F} _.
Arguments bc_type {F} _.
Arguments bc_value {F} _.
Arguments cy {F} _.
Arguments cy_para {F} _.
Arguments steps {F} _.

(** A [ti.Vector] stored per cell: component [k] of the vector. *)
Definition Vec (F : Type) : Type := nat → F.
Definition Field (A : Type) : Type := Z → Z → A.

(** The fields allocated in [__init__] (lines 43-47). *)
Record Grid (F : Type) := {
  rho : Field F;
  vel : Field (Vec F);
  mask : Field F;
  f_old : Field (Vec F);
  f_new : Field (Vec F)
}.
Arguments rho {F} _.
Arguments vel {F} _.
Arguments mask {F} _.
Arguments f_old {F} _.
Arguments f_new {F} _.
Arguments Build_Grid {F} _ _ _ _ _.

(** Is [(i', j')] the cell [(i, j)]? *)
Definition at_cell (i j i' j' : Z) : bool := (i' =? i) && (j' =? j).

(** The field [fld] after [fld[i, j] = v]. *)
Definition upd {A} (fld : Field A) (i j : Z) (v : A) : Field A :=
  λ i' j', if at_cell i j i' j' then v else fld i' j'.

(** The vector [u] after [u[k] = v]. *)
Definition updk {F} (u : Vec F) (k : nat) (v : F) : Vec F :=
  λ k', if (k' =? k)%nat then v else u k'.

Section Solver.
Context {F : Type} `{Scalar F}.
Variable c : Config F.

Definition w (k : nat) : F := flit (nth k w_arr 0%Q).

(** [self.tau = 3.0 * niu + 0.5], [self.inv_tau = 1.0 / self.tau]. *)
Definition tau : F := fadd (fmul (flit 3) (niu c)) (flit (1 # 2)).
Definition inv_tau : F := fdiv (flit 1) tau.

Definition bc_type_at (dr : nat) : Z := nth dr (bc_type c) 0.
Definition bc_value_at (dr : nat) : F * F := nth dr (bc_value c) (flit 0, flit 0).
Definition cy_para_at (n : nat) : F := nth n (cy_para c) (flit 0).

(** *** Bounds-checked field access *)

Definition in_grid (i j : Z) : bool :=
  (0 <=? i) && (i <? nx c) && (0 <=? j) && (j <? ny c).

Definition rd {A} (fld : Field A) (i j : Z) : option A :=
  if in_grid i j then Some (fld i j) else None.

(** The grid after an assignment to one entry of a field. *)
Definition put_rho (g : Grid F) (i j : Z) (v : F) : Grid F :=
  Build_Grid (upd (rho g) i j v) (vel g) (mask g) (f_old g) (f_new g).

Definition put_mask (g : Grid F) (i j : Z) (v : F) : Grid F :=
  Build_Grid (rho g) (vel g) (upd (mask g) i j v) (f_old g) (f_new g).

Definition put_vel (g : Grid F) (i j : Z) (d : nat) (v : F) : Grid F :=
  Build_Grid (rho g) (upd (vel g) i j (updk (vel g i j) d v)) (mask g)
             (f_old g) (f_new g).

Definition put_f_old (g : Grid F) (i j : Z) (k : nat) (v : F) : Grid F :=
  Build_Grid (rho g) (vel g) (mask g)
             (upd (f_old g) i j (updk (f_old g i j) k v)) (f_new g).

Definition put_f_new (g : Grid F) (i j : Z) (k : nat) (v : F) : Grid F :=
  Build_Grid (rho g) (vel g) (mask g) (f_old g)
             (upd (f_new g) i j (updk (f_new g i j) k v)).

(** [self.rho[i, j] = v] and its siblings: the assignment faults outside
    the grid. *)
Definition set_rho (g : Grid F) (i j : Z) (v : F) : option (Grid F) :=
  if in_grid i j then Some (put_rho g i j v) else None.

Definition set_mask (g : Grid F) (i j : Z) (v : F) : option (Grid F) :=
  if in_grid i j then Some (put_mask g i j v) else None.

(** [self.vel[i, j][d] = v]. *)
Definition set_vel (g : Grid F) (i j : Z) (d : nat) (v : F) : option (Grid F) :=
  if in_grid i j then Some (put_vel g i j d v) else None.

Definition set_f_old (g : Grid F) (i j : Z) (k : nat) (v : F) : option (Grid F) :=
  if in_grid i j then Some (put_f_old g i j k v) else None.

Definition set_f_new (g : Grid F) (i j : Z) (k : nat) (v : F) : option (Grid F) :=
  if in_grid i j then Some (put_f_new g i j k v) else None.

(** *** Loops *)

(** A sequential loop over [l]; a fault in one iteration aborts the loop. *)
Fixpoint for_each {A} (l : list A) (body : A → Grid F → option (Grid F))
    (g : Grid F) : option (Grid F) :=
  match l with
  | [] => Some g
  | x :: l' => g' ← body x g; for_each l' body g'
  end.

(** A parallelised top-level loop of a kernel.  [order] lists the
    iterations in the order in which they take effect; each iteration is
    taken to run to completion before the next one starts. *)
Definition par_for {A} (order : list A) (body : A → Grid F → option (Grid F))
    (g : Grid F) : option (Grid F) :=
  for_each order body g.

(** *** [f_eq] (lines 68-73) *)

(** The equilibrium formula on explicit values, as the specification
    writes it:
    [f_eq(rho, vel, k) = w_k * rho * (1 + 3(e_k.vel) + 4.5(e_k.vel)^2 - 1.5|vel|^2)]. *)
Definition f_eq_val (r : F) (u : Vec F) (k : nat) : F :=
  let eu := fadd (fmul (of_int (e k).1) (u 0%nat)) (fmul (of_int (e k).2) (u 1%nat)) in
  let uv := fadd (fsq (u 0%nat)) (fsq (u 1%nat)) in
  fmul (fmul (w k) r)
       (fsub (fadd (fadd (flit 1) (fmul (flit 3) eu)) (fmul (flit (9 # 2)) (fsq eu)))
             (fmul (flit (3 # 2)) uv)).

(** The source function: it reads the velocity and density of cell
    [(i, j)] from the grid. *)
Definition f_eq (g : Grid F) (i j : Z) (k : nat) : option F :=
  u ← rd (vel g) i j;
  r ← rd (rho g) i j;
  let eu := fadd (fmul (of_int (e k).1) (u 0%nat)) (fmul (of_int (e k).2) (u 1%nat)) in
  let uv := fadd (fsq (u 0%nat)) (fsq (u 1%nat)) in
  Some (fmul (fmul (w k) r)
             (fsub (fadd (fadd (flit 1) (fmul (flit 3) eu)) (fmul (flit (9 # 2)) (fsq eu)))
                   (fmul (flit (3 # 2)) uv))).


(** *** [init] (lines 75-88) *)

(** The body of the unrolled loop over the directions [k]. *)
Definition init_dir (i j : Z) (k : nat) (g : Grid F) : option (Grid F) :=
  fe ← f_eq g i j k;
  g ← set_f_new g i j k fe;
  fn ← rd (f_new g) i j;
  set_f_old g i j k (fn k).

(** The body of [for i, j in self.rho]. *)
Definition init_cell (ij : Z * Z) (g : Grid F) : option (Grid F) :=
  let i := ij.1 in
  let j := ij.2 in
  g ← set_vel g i j 0 (flit 0);
  g ← set_vel g i j 1 (flit 0);
  g ← set_rho g i j (flit 1);
  g ← set_mask g i j (flit 0);
  g ← for_each (static_range 9) (init_dir i j) g;
  if cy c =? 1 then
    if fleb (fadd (fsq (fsub (of_int i) (cy_para_at 0)))
                  (fsq (fsub (of_int j) (cy_para_at 1))))
            (fsq (cy_para_at 2))
    then set_mask g i j (flit 1)
    else Some g
  else Some g.

(** The cells of a field of shape [(nx, ny)]. *)
Definition all_cells : list (Z * Z) := ndrange2 (upto (nx c)) (upto (ny c)).

Definition init (order : list (Z * Z)) (g : Grid F) : option (Grid F) :=
  par_for order init_cell g.

(** *** [collide_and_stream] (lines 91-98) *)

(** The body of the unrolled loop over the directions [k]. *)
Definition collide_dir (i j : Z) (k : nat) (g : Grid F) : option (Grid F) :=
  let ip := i - (e k).1 in
  let jp := j - (e k).2 in
  fo ← rd (f_old g) ip jp;
  fe ← f_eq g ip jp k;
  set_f_new g i j k
    (fadd (fmul (fsub (flit 1) inv_tau) (fo k)) (fmul fe inv_tau)).

(** The body of the loop over the cells. *)
Definition collide_cell (ij : Z * Z) (g : Grid F) : option (Grid F) :=
  for_each (static_range 9) (collide_dir ij.1 ij.2) g.

(** [ti.ndrange((1, nx - 1), (1, ny - 1))]. *)
Definition interior_cells : list (Z * Z) :=
  ndrange2 (1, nx c - 1) (1, ny c - 1).

Definition collide_and_stream (order : list (Z * Z)) (g : Grid F) : option (Grid F) :=
  par_for order collide_cell g.

(** *** [update_macro_var] (lines 100-112) *)

(** The body of the unrolled loop over the directions [k]. *)
Definition macro_dir (i j : Z) (k : nat) (g : Grid F) : option (Grid F) :=
  fn ← rd (f_new g) i j;
  g ← set_f_old g i j k (fn k);
  r ← rd (rho g) i j;
  fn ← rd (f_new g) i j;
  g ← set_rho g i j (fadd r (fn k));
  u ← rd (vel g) i j;
  fn ← rd (f_new g) i j;
  g ← set_vel g i j 0 (fadd (u 0%nat) (fmul (of_int (e k).1) (fn k)));
  u ← rd (vel g) i j;
  fn ← rd (f_new g) i j;
  set_vel g i j 1 (fadd (u 1%nat) (fmul (of_int (e k).2) (fn k))).

(** The body of the loop over the cells. *)
Definition macro_cell (ij : Z * Z) (g : Grid F) : option (Grid F) :=
  let i := ij.1 in
  let j := ij.2 in
  g ← set_rho g i j (flit 0);
  g ← set_vel g i j 0 (flit 0);
  g ← set_vel g i j 1 (flit 0);
  g ← for_each (static_range 9) (macro_dir i j) g;
  u ← rd (vel g) i j;
  r ← rd (rho g) i j;
  g ← set_vel g i j 0 (fdiv (u 0%nat) r);
  u ← rd (vel g) i j;
  r ← rd (rho g) i j;
  set_vel g i j 1 (fdiv (u 1%nat) r).

Definition update_macro_var (order : list (Z * Z)) (g : Grid F) : option (Grid F) :=
  par_for order macro_cell g.

(** *** [apply_bc_core] (lines 150-163) *)

(** Lines 152-158: the velocity of an outer boundary cell. *)
Definition bc_velocity (outer : Z) (dr : nat) (ibc jbc inb jnb : Z)
    (g : Grid F) : option (Grid F) :=
  if outer =? 1 then
    if bc_type_at dr =? 0 then
      g ← set_vel g ibc jbc 0 (bc_value_at dr).1;
      set_vel g ibc jbc 1 (bc_value_at dr).2
    else if bc_type_at dr =? 1 then
      u ← rd (vel g) inb jnb;
      g ← set_vel g ibc jbc 0 (u 0%nat);
      u ← rd (vel g) inb jnb;
      set_vel g ibc jbc 1 (u 1%nat)
    else Some g
  else Some g.

(** Lines 161-163: the body of the unrolled loop over the directions. *)
Definition bc_dir (ibc jbc inb jnb : Z) (k : nat) (g : Grid F) : option (Grid F) :=
  fb ← f_eq g ibc jbc k;
  fn ← f_eq g inb jnb k;
  fo ← rd (f_old g) inb jnb;
  set_f_old g ibc jbc k (fadd (fsub fb fn) (fo k)).

Definition apply_bc_core (outer : Z) (dr : nat) (ibc jbc inb jnb : Z)
    (g : Grid F) : option (Grid F) :=
  g ← bc_velocity outer dr ibc jbc inb jnb g;
  r ← rd (rho g) inb jnb;
  g ← set_rho g ibc jbc r;
  for_each (static_range 9) (bc_dir ibc jbc inb jnb) g.

(** *** [apply_bc] (lines 114-148) *)

(** Left and right edges: the body of the first loop. *)
Definition bc_left_right (j : Z) (g : Grid F) : option (Grid F) :=
  g ← apply_bc_core 1 0 0 j 1 j g;
  apply_bc_core 1 2 (nx c - 1) j (nx c - 2) j g.

(** Top and bottom edges: the body of the second loop. *)
Definition bc_top_bottom (i : Z) (g : Grid F) : option (Grid F) :=
  g ← apply_bc_core 1 1 i (ny c - 1) i (ny c - 2) g;
  apply_bc_core 1 3 i 0 i 1 g.

(** The neighbour selected for an obstacle cell (lines 138-147). *)
Definition obstacle_nb (ij : Z * Z) : Z * Z :=
  (if fleb (cy_para_at 0) (of_int ij.1) then ij.1 + 1 else ij.1 - 1,
   if fleb (cy_para_at 1) (of_int ij.2) then ij.2 + 1 else ij.2 - 1).

(** Cylindrical obstacle: the body of the third loop. *)
Definition bc_obstacle (ij : Z * Z) (g : Grid F) : option (Grid F) :=
  let i := ij.1 in
  let j := ij.2 in
  m ← rd (mask g) i j;
  if (cy c =? 1) && feqb m (flit 1) then
    g ← set_vel g i j 0 (flit 0);
    g ← set_vel g i j 1 (flit 0);
    let inb := (obstacle_nb ij).1 in
    let jnb := (obstacle_nb ij).2 in
    apply_bc_core 0 0 i j inb jnb g
  else Some g.

(** The iteration spaces of the three loops:
    [for j in ti.ndrange(1, self.ny - 1)],
    [for i in ti.ndrange(self.nx)] and
    [for i, j in ti.ndrange(self.nx, self.ny)]. *)
Definition left_right_range : list Z := ndrange2_flat (upto 1) (upto (ny c - 1)).
Definition top_bottom_range : list Z := ndrange1 (upto (nx c)).

(** The order in which the iterations of the three loops of [apply_bc]
    run.  The loops themselves run one after the other. *)
Record BcOrder := {
  o_lr : list Z;
  o_tb : list Z;
  o_ob : list (Z * Z)
}.

Definition apply_bc (o : BcOrder) (g : Grid F) : option (Grid F) :=
  g ← par_for (o_lr o) bc_left_right g;
  g ← par_for (o_tb o) bc_top_bottom g;
  par_for (o_ob o) bc_obstacle g.

Definition bc_serial : BcOrder :=
  {| o_lr := left_right_range; o_tb := top_bottom_range; o_ob := all_cells |}.

Definition bc_order_ok (o : BcOrder) : Prop :=
  o_lr o ≡ₚ left_right_range ∧ o_tb o ≡ₚ top_bottom_range ∧ o_ob o ≡ₚ all_cells.

(** *** [solve] (lines 178-185), without the display and GUI calls *)

(** The iteration orders of one time step. *)
Record StepOrder := {
  o_collide : list (Z * Z);
  o_macro : list (Z * Z);
  o_bc : BcOrder
}.

Definition step_serial : StepOrder :=
  {| o_collide := interior_cells; o_macro := interior_cells; o_bc := bc_serial |}.

Definition step_order_ok (o : StepOrder) : Prop :=
  o_collide o ≡ₚ interior_cells ∧ o_macro o ≡ₚ interior_cells ∧ bc_order_ok (o_bc o).

Definition step (o : StepOrder) (g : Grid F) : option (Grid F) :=
  g ← collide_and_stream (o_collide o) g;
  g ← update_macro_var (o_macro o) g;
  apply_bc (o_bc o) g.

(** The time loop: one [StepOrder] per executed step. *)
Fixpoint run (os : list StepOrder) (g : Grid F) : option (Grid F) :=
  match os with
  | [] => Some g
  | o :: os' => g' ← step o g; run os' g'
  end.

Definition solve (o_init : list (Z * Z)) (os : list StepOrder) (g : Grid F)
    : option (Grid F) :=
  g ← init o_init g; run os g.

(** The whole run in source order: [steps] serial steps. *)
Definition solve_serial (g : Grid F) : option (Grid F) :=
  solve all_cells (replicate (Z.to_nat (steps c)) step_serial) g.

End Solver.

(** The state of freshly allocated fields: Taichi zero-fills them. *)
Definition blank `{Scalar F} : Grid F :=
  {| rho := λ _ _, flit 0; vel := λ _ _ _, flit 0; mask := λ _ _, flit 0;
     f_old := λ _ _ _, flit 0; f_new := λ _ _ _, flit 0 |}.

(** ** What the kernels compute *)

(** Closed forms of the values the kernels store, read off the grid a
    kernel starts from.  The results below relate the kernels to them. *)
Section Values.
Context {F : Type} `{Scalar F}.
Variable c : Config F.

Implicit Types (g : Grid F) (i j : Z) (k : nat).

(** The value [collide_and_stream] stores in [f_new[i, j][k]], read off
    the grid [g] the kernel starts from. *)
Definition collide_val g i j k : F :=
  let ip := i - (e k).1 in
  let jp := j - (e k).2 in
  fadd (fmul (fsub (flit 1) (inv_tau c)) (f_old g ip jp k))
       (fmul (f_eq_val (rho g ip jp) (vel g ip jp) k) (inv_tau c)).

(** All but the distribution [f_new] agrees. *)
Definition same_but_f_new g g' : Prop :=
  rho g' = rho g ∧ vel g' = vel g ∧ mask g' = mask g ∧ f_old g' = f_old g.

(** The accumulation loop [acc = 0.0; for k in ks: acc += term(k)]. *)
Definition accum (term : nat → F) (ks : list nat) : F :=
  fold_left (λ acc k, fadd acc (term k)) ks (flit 0).

(** Component [d] of a lattice direction. *)
Definition e_at (k d : nat) : Z :=
  match d with O => (e k).1 | _ => (e k).2 end.

(** The density, momentum and velocity [update_macro_var] recovers at
    cell [(i, j)] from [f_new]. *)
Definition macro_rho g i j : F :=
  accum (λ k, f_new g i j k) (static_range 9).
Definition macro_mom g i j (d : nat) : F :=
  accum (λ k, fmul (of_int (e_at k d)) (f_new g i j k)) (static_range 9).
Definition macro_vel g i j (d : nat) : F :=
  fdiv (macro_mom g i j d) (macro_rho g i j).

(** The velocity component [d] of an outer boundary cell after lines
    152-158 of [apply_bc_core]: the configured value under Dirichlet, the
    neighbour's velocity under Neumann, the old velocity otherwise. *)
Definition bc_vel_val (outer : Z) (dr : nat) g (ibc jbc inb jnb : Z) (d : nat) : F :=
  if outer =? 1 then
    if bc_type_at c dr =? 0 then
      match d with O => (bc_value_at c dr).1 | _ => (bc_value_at c dr).2 end
    else if bc_type_at c dr =? 1 then vel g inb jnb d
    else vel g ibc jbc d
  else vel g ibc jbc d.

(** The non-equilibrium extrapolation
    [f_eq(boundary) - f_eq(neighbour) + f_old[neighbour][k]] for a boundary
    cell of velocity [ub] next to the cell [(inb, jnb)] of [g]. *)
Definition extrapolate g (ub : Vec F) (inb jnb : Z) (k : nat) : F :=
  fadd (fsub (f_eq_val (rho g inb jnb) ub k)
             (f_eq_val (rho g inb jnb) (vel g inb jnb) k))
       (f_old g inb jnb k).

(** Cell [(ibc, jbc)] of [g'] is what [apply_bc_core] makes of it when
    run on [g] with neighbour [(inb, jnb)]. *)
Definition bc_applied (outer : Z) (dr : nat) g g' (ibc jbc inb jnb : Z) : Prop :=
  (∀ d, vel g' ibc jbc d =
     if (d <? 2)%nat then bc_vel_val outer dr g ibc jbc inb jnb d
     else vel g ibc jbc d) ∧
  rho g' ibc jbc = rho g inb jnb ∧
  (∀ k, f_old g' ibc jbc k =
     if (k <? 9)%nat then extrapolate g (vel g' ibc jbc) inb jnb k
     else f_old g ibc jbc k).

(** Cell [(i, j)] holds the same density, velocity and [f_old] in both
    grids. *)
Definition cell_kept g g' (i j : Z) : Prop :=
  rho g' i j = rho g i j ∧
  (∀ d, vel g' i j d = vel g i j d) ∧
  (∀ k, f_old g' i j k = f_old g i j k).

(** One call [apply_bc_core(1, dr, ibc, jbc, inb, jnb)] of an edge loop. *)
Record BcCall := {
  call_dr : nat;
  call_cell : Z * Z;
  call_nb : Z * Z
}.

Definition run_call (q : BcCall) g : option (Grid F) :=
  apply_bc_core c 1 (call_dr q) (call_cell q).1 (call_cell q).2
                (call_nb q).1 (call_nb q).2 g.

Definition left_call (j : Z) : BcCall :=
  {| call_dr := 0; call_cell := (0, j); call_nb := (1, j) |}.
Definition right_call (j : Z) : BcCall :=
  {| call_dr := 2; call_cell := (nx c - 1, j); call_nb := (nx c - 2, j) |}.
Definition top_call (i : Z) : BcCall :=
  {| call_dr := 1; call_cell := (i, ny c - 1); call_nb := (i, ny c - 2) |}.
Definition bottom_call (i : Z) : BcCall :=
  {| call_dr := 3; call_cell := (i, 0); call_nb := (i, 1) |}.

(** The test of the obstacle loop: is [(i, j)] an obstacle cell? *)
Definition masked g (i j : Z) : bool :=
  (cy c =? 1) && feqb (mask g i j) (flit 1).

(** Every obstacle cell has its selected neighbour inside the grid. *)
Definition obstacle_safe g : Prop :=
  ∀ i j, in_grid c i j = true → masked g i j = true →
    in_grid c (obstacle_nb c (i, j)).1 (obstacle_nb c (i, j)).2 = true.

(** The test of [init]: does cell [(i, j)] lie in the disc of centre
    [(cy_para[0], cy_para[1])] and radius [cy_para[2]]? *)
Definition in_disc (i j : Z) : bool :=
  fleb (fadd (fsq (fsub (of_int i) (cy_para_at c 0)))
             (fsq (fsub (of_int j) (cy_para_at c 1))))
       (fsq (cy_para_at c 2)).

(** The mask [init] stores at cell [(i, j)]. *)
Definition init_mask (i j : Z) : F :=
  if (cy c =? 1) && in_disc i j then flit 1 else flit 0.

(** The state of rest: zero velocity. *)
Definition at_rest : Vec F := λ _, flit 0.

(** [edge_cell dr ibc jbc inb jnb]: the last edge loop of [apply_bc] to
    process the boundary cell [(ibc, jbc)] applies the condition of edge
    [dr] to it, with inward neighbour [(inb, jnb)].  The top and bottom
    edges take the corners. *)
Inductive edge_cell : nat → Z → Z → Z → Z → Prop :=
| edge_left j : 1 ≤ j ≤ ny c - 2 → edge_cell 0 0 j 1 j
| edge_right j : 1 ≤ j ≤ ny c - 2 → edge_cell 2 (nx c - 1) j (nx c - 2) j
| edge_top i : 0 ≤ i < nx c → edge_cell 1 i (ny c - 1) i (ny c - 2)
| edge_bottom i : 0 ≤ i < nx c → edge_cell 3 i 0 i 1.

End Values.

(** ** Configurations *)

(** The grid [solve] hands to the first time step: the fields as
    initialised by [init] in source order ([blank] if [init] faults, which
    it never does). *)
Definition fresh `{Scalar F} (c : Config F) : Grid F :=
  default blank (init c (all_cells c) blank).

(** [flow_case == 0] of the script: the von Karman vortex street. *)
Definition karman : Config Q :=
  {| nx := 401; ny := 101; niu := (5 # 1000)%Q;
     bc_type := [0; 0; 1; 0];
     bc_value := [((1 # 10)%Q, 0%Q); (0%Q, 0%Q); (0%Q, 0%Q); (0%Q, 0%Q)];
     cy := 1; cy_para := [80%Q; 50%Q; 10%Q]; steps := 60000 |}.

(** The same boundary conditions on a 3 x 3 grid without obstacle. *)
Definition channel3 : Config Q :=
  {| nx := 3; ny := 3; niu := (5 # 1000)%Q;
     bc_type := [0; 0; 1; 0];
     bc_value := [((1 # 10)%Q, 0%Q); (0%Q, 0%Q); (0%Q, 0%Q); (0%Q, 0%Q)];
     cy := 0; cy_para := [0%Q; 0%Q; 0%Q]; steps := 1 |}.

(** A 3 x 2 grid: inflow on the left, zero-gradient top, walls elsewhere. *)
Definition strip : Config Q :=
  {| nx := 3; ny := 2; niu := (5 # 1000)%Q;
     bc_type := [0; 1; 0; 0];
     bc_value := [((1 # 10)%Q, 0%Q); (0%Q, 0%Q); (0%Q, 0%Q); (0%Q, 0%Q)];
     cy := 0; cy_para := [0%Q; 0%Q; 0%Q]; steps := 1 |}.

(** A 10 x 10 cavity with [tau = 1], inflow [(0.1, 0)] on the left edge and
    walls at rest elsewhere, run for one step. *)
Definition cavity10 : Config Q :=
  {| nx := 10; ny := 10; niu := (1 # 6)%Q;
     bc_type := [0; 0; 0; 0];
     bc_value := [((1 # 10)%Q, 0%Q); (0%Q, 0%Q); (0%Q, 0%Q); (0%Q, 0%Q)];
     cy := 0; cy_para := [0%Q; 0%Q; 0%Q]; steps := 1 |}.

(** A single cell. *)
Definition one_cell : Config Q :=
  {| nx := 1; ny := 1; niu := (5 # 1000)%Q;
     bc_type := [0; 0; 0; 0];
     bc_value := [(0%Q, 0%Q); (0%Q, 0%Q); (0%Q, 0%Q); (0%Q, 0%Q)];
     cy := 0; cy_para := [0%Q; 0%Q; 0%Q]; steps := 1 |}.

(** A 5 x 5 grid whose obstacle is the single cell [(4, 2)] of the right
    edge. *)
Definition edge_obstacle : Config Q :=
  {| nx := 5; ny := 5; niu := (5 # 1000)%Q;
     bc_type := [0; 0; 1; 0];
     bc_value := [((1 # 10)%Q, 0%Q); (0%Q, 0%Q); (0%Q, 0%Q); (0%Q, 0%Q)];
     cy := 1; cy_para := [4%Q; 2%Q; (1 # 2)%Q]; steps := 1 |}.

(** A 7 x 7 cavity driven by its top edge, with a 3 x 3 block of obstacle
    cells in the middle. *)
Definition lid_obstacle : Config Q :=
  {| nx := 7; ny := 7; niu := (1 # 2)%Q;
     bc_type := [0; 0; 1; 0];
     bc_value := [(0%Q, 0%Q); ((1 # 10)%Q, 0%Q); (0%Q, 0%Q); (0%Q, 0%Q)];
     cy := 1; cy_para := [3%Q; 3%Q; (3 # 2)%Q]; steps := 3 |}.

(** The order in which the iterations of a loop take effect when the loop
    is split between two threads, the first [ceil(n / 2)] iterations to
    one and the rest to the other, and the second thread runs first. *)
Definition second_half_first {A} (l : list A) : list A :=
  drop ((length l + 1) / 2) l ++ take ((length l + 1) / 2) l.

(** The serial order of a time step, except that the second half of the
    obstacle loop runs before the first. *)
Definition step_second_first `{Scalar F} (c : Config F) : StepOrder :=
  {| o_collide := interior_cells c; o_macro := interior_cells c;
     o_bc := {| o_lr := left_right_range c; o_tb := top_bottom_range c;
                o_ob := second_half_first (all_cells c) |} |}.

(** Every loop but the obstacle loop runs backwards. *)
Definition step_reversed `{Scalar F} (c : Config F) : StepOrder :=
  {| o_collide := rev (interior_cells c); o_macro := rev (interior_cells c);
     o_bc := {| o_lr := rev (left_right_range c); o_tb := rev (top_bottom_range c);
                o_ob := all_cells c |} |}.

(** ** The claims about boundary velocities and bounds, as worded *)

(** Cell [(i, j)] of the grid lies on edge [dr]. *)
Definition on_edge {F} (c : Config F) (dr : nat) (i j : Z) : Prop :=
  0 ≤ i < nx c ∧ 0 ≤ j < ny c ∧
  match dr with
  | 0%nat => i = 0
  | 1%nat => j = ny c - 1
  | 2%nat => i = nx c - 1
  | 3%nat => j = 0
  | _ => False
  end.

(** "Every boundary cell on an edge configured as Dirichlet has velocity
    exactly equal to that edge's configured [bc_value]." *)
Definition dirichlet_on_every_edge_cell `{Scalar F} (c : Config F) (g' : Grid F) : Prop :=
  ∀ dr i j, on_edge c dr i j → bc_type_at c dr = 0 →
    vel g' i j 0%nat = (bc_value_at c dr).1 ∧ vel g' i j 1%nat = (bc_value_at c dr).2.

(** "No masked cell touches the outermost ring." *)
Definition ring_free `{Scalar F} (c : Config F) (g : Grid F) : Prop :=
  ∀ i j, in_grid c i j = true → masked c g i j = true →
    1 ≤ i ≤ nx c - 2 ∧ 1 ≤ j ≤ ny c - 2.

(** The same as a test over the cells of the grid. *)
Definition ring_free_b `{Scalar F} (c : Config F) (g : Grid F) : bool :=
  forallb (λ ij, implb (masked c g ij.1 ij.2)
                       ((1 <=? ij.1) && (ij.1 <=? nx c - 2) &&
                        (1 <=? ij.2) && (ij.2 <=? ny c - 2)))
          (all_cells c).

(** ** Exact arithmetic *)

(** Exact rational arithmetic, kept in lowest terms, is an instance of the
    scalar interface. *)
Lemma Qmult_comm_eq (x y : Q) : (x * y)%Q = (y * x)%Q.
Proof.
  destruct x as [a b], y as [a' b']. unfold Qmult. simpl.
  by rewrite Z.mul_comm, Pos.mul_comm.
Qed.

#[export] Program Instance Q_scalar : Scalar Q := {|
  flit q := q;
  fadd x y := Qred (x + y);
  fsub x y := Qred (x - y);
  fmul x y := Qred (x * y);
  fdiv x y := Qred (x / y);
  fsq x := Qred (x * x);
  fleb x y := Qle_bool x y;
  feqb x y := Qeq_bool x y
|}.
Next Obligation. intros x y. simpl. f_equal. apply Qmult_comm_eq. Qed.
Next Obligation. reflexivity. Qed.
Next Obligation. reflexivity. Qed.


(** ** The display kernels and [pass_to_py] (lines 165-176 and 219-221) *)

(** [get_display_var] and [get_display_var_x] read the velocity field and
    write the field [display_var] (line 48), which no other kernel touches:
    it is threaded on its own, next to the grid. *)
Section Display.
Context {F : Type} `{Scalar F}.

(** The interpretation of [ti.sqrt]. *)
Variable fsqrt : F → F.
Variable c : Config F.

(** [self.display_var[i, j] = v]. *)
Definition set_display (dv : Field F) (i j : Z) (v : F) : option (Field F) :=
  if in_grid c i j then Some (upd dv i j v) else None.

(** A parallelised loop whose iterations write [display_var]; [order] is
    the order in which they take effect. *)
Fixpoint display_for (order : list (Z * Z))
    (body : Z * Z → Field F → option (Field F)) (dv : Field F)
    : option (Field F) :=
  match order with
  | [] => Some dv
  | ij :: order' => dv' ← body ij dv; display_for order' body dv'
  end.

(** Lines 169-170: the velocity magnitude. *)
Definition display_cell (g : Grid F) (ij : Z * Z) (dv : Field F)
    : option (Field F) :=
  u ← rd c (vel g) ij.1 ij.2;
  u' ← rd c (vel g) ij.1 ij.2;
  set_display dv ij.1 ij.2 (fsqrt (fadd (fsq (u 0%nat)) (fsq (u' 1%nat)))).

Definition get_display_var (order : list (Z * Z)) (g : Grid F) (dv : Field F)
    : option (Field F) :=
  display_for order (display_cell g) dv.

(** Line 176: the x component only. *)
Definition display_x_cell (g : Grid F) (ij : Z * Z) (dv : Field F)
    : option (Field F) :=
  u ← rd c (vel g) ij.1 ij.2;
  set_display dv ij.1 ij.2 (u 0%nat).

Definition get_display_var_x (order : list (Z * Z)) (g : Grid F) (dv : Field F)
    : option (Field F) :=
  display_for order (display_x_cell g) dv.

(** [to_numpy] of a scalar field of shape [(nx, ny)]: [nx] rows of [ny]
    entries. *)
Definition to_numpy (fld : Field F) : list (list F) :=
  (λ i, fld i <$> range 0 (ny c)) <$> range 0 (nx c).

(** [pass_to_py] (lines 219-221). *)
Definition pass_to_py (order : list (Z * Z)) (g : Grid F) (dv : Field F)
    : option (list (list F)) :=
  dv' ← get_display_var_x order g dv; Some (to_numpy dv').

End Display.

(** ** Conditions on the obstacle *)

Section Conditions.
Context {F : Type} `{Scalar F}.
Variable c : Config F.

(** No obstacle cell selects an obstacle cell as its neighbour. *)
Definition obstacle_separated (g : Grid F) : Prop :=
  ∀ i j, in_grid c i j = true → masked c g i j = true →
    masked c g (obstacle_nb c (i, j)).1 (obstacle_nb c (i, j)).2 = false.

(** The same as a test over the cells of the grid. *)
Definition obstacle_separated_b (g : Grid F) : bool :=
  forallb (λ ij, implb (masked c g ij.1 ij.2)
                       (negb (masked c g (obstacle_nb c ij).1 (obstacle_nb c ij).2)))
          (all_cells c).

(** Every cell of the disc that [init] masks has the neighbour the
    obstacle loop selects for it inside the grid. *)
Definition disc_safe : Prop :=
  ∀ i j, in_grid c i j = true → (cy c =? 1) && in_disc c i j = true →
    in_grid c (obstacle_nb c (i, j)).1 (obstacle_nb c (i, j)).2 = true.

(** The same as a test over the cells of the grid. *)
Definition disc_safe_b : bool :=
  forallb (λ ij, implb ((cy c =? 1) && in_disc c ij.1 ij.2)
                       (in_grid c (obstacle_nb c ij).1 (obstacle_nb c ij).2))
          (all_cells c).

(** The cells [(i + di, j + dj)], [-1 <= di, dj <= 1], hold the same
    density, velocity and [f_old] in both grids. *)
Definition agree_around (g g' : Grid F) (i j : Z) : Prop :=
  ∀ di dj, -1 ≤ di ≤ 1 → -1 ≤ dj ≤ 1 → cell_kept g g' (i + di) (j + dj).

End Conditions.

(** ** A fluid at rest *)

(** Every cell of the grid holds density [1], zero velocity and the
    equilibrium distributions of that state: the state [init] produces. *)
Definition rest_state `{Scalar F} (c : Config F) (g : Grid F) : Prop :=
  ∀ i j, in_grid c i j = true →
    rho g i j = flit 1 ∧ vel g i j 0%nat = flit 0 ∧ vel g i j 1%nat = flit 0 ∧
    ∀ k, (k < 9)%nat →
      f_old g i j k = f_eq_val (flit 1) at_rest k ∧
      f_new g i j k = f_eq_val (flit 1) at_rest k.

(** Every edge with a prescribed velocity (type [0]) prescribes [(0, 0)]. *)
Definition walls_at_rest `{Scalar F} (c : Config F) : Prop :=
  ∀ dr, bc_type_at c dr = 0 → bc_value_at c dr = (flit 0, flit 0).

(** The sum [t 0 + ... + t 8] over the nine directions. *)
Definition sum9 (t : nat → Q) : Q :=
  fold_right Qplus 0%Q (t <$> static_range 9).

(** The source order of the loops of [apply_bc], except that the left/right
    loop runs over the interior rows [1 .. ny - 2] only. *)
Definition bc_interior_rows `{Scalar F} (c : Config F) : BcOrder :=
  {| o_lr := range 1 (ny c - 1); o_tb := top_bottom_range c; o_ob := all_cells c |}.

(** ** More configurations *)

(** [flow_case == 1] of the script: the lid-driven cavity. *)
Definition cavity256 : Config Q :=
  {| nx := 256; ny := 256; niu := (255 # 10000)%Q;
     bc_type := [0; 0; 0; 0];
     bc_value := [(0%Q, 0%Q); ((1 # 10)%Q, 0%Q); (0%Q, 0%Q); (0%Q, 0%Q)];
     cy := 0; cy_para := [0%Q; 0%Q; 0%Q]; steps := 60000 |}.

(** A 3 x 3 channel whose top edge has the unknown boundary type [2]. *)
Definition odd_type3 : Config Q :=
  {| nx := 3; ny := 3; niu := (5 # 1000)%Q;
     bc_type := [0; 2; 1; 0];
     bc_value := [((1 # 10)%Q, 0%Q); (0%Q, 0%Q); (0%Q, 0%Q); (0%Q, 0%Q)];
     cy := 0; cy_para := [0%Q; 0%Q; 0%Q]; steps := 1 |}.

(** A 7 x 7 cavity driven by its top edge, with an obstacle of radius [1]:
    the cell [(3, 3)] and its four axis neighbours. *)
Definition small_obstacle : Config Q :=
  {| nx := 7; ny := 7; niu := (1 # 2)%Q;
     bc_type := [0; 0; 1; 0];
     bc_value := [(0%Q, 0%Q); ((1 # 10)%Q, 0%Q); (0%Q, 0%Q); (0%Q, 0%Q)];
     cy := 1; cy_para := [3%Q; 3%Q; 1%Q]; steps := 3 |}.

(** A 5 x 5 box with walls at rest (a zero-gradient right edge and a bottom
    edge of unknown type among them) around an obstacle of radius [1]. *)
Definition still_box : Config Q :=
  {| nx := 5; ny := 5; niu := (1 # 100)%Q;
     bc_type := [0; 0; 1; 2];
     bc_value := [(0%Q, 0%Q); (0%Q, 0%Q); ((1 # 10)%Q, 0%Q); ((1 # 10)%Q, 0%Q)];
     cy := 1; cy_para := [2%Q; 2%Q; 1%Q]; steps := 10 |}.

(** A 5 x 5 box constructed with [cy = 2]. *)
Definition cy_two : Config Q :=
  {| nx := 5; ny := 5; niu := (1 # 100)%Q;
     bc_type := [0; 0; 0; 0];
     bc_value := [(0%Q, 0%Q); (0%Q, 0%Q); (0%Q, 0%Q); (0%Q, 0%Q)];
     cy := 2; cy_para := [2%Q; 2%Q; 1%Q]; steps := 1 |}.

(** A square root on the rationals that is exact on the squares of
    rationals: one interpretation of [ti.sqrt]. *)
Definition sqrt_Q (q : Q) : Q := Z.sqrt (Qnum (Qred q)) # Pos.sqrt (Qden (Qred q)).

(** A single cell moving with velocity [(0.3, 0.4)]. *)
Definition moving_cell : Grid Q :=
  put_vel (put_vel blank 0 0 0 (3 # 10)%Q) 0 0 1 (2 # 5)%Q.

(** The grid [g] with the density of cell [(5, 5)] overwritten. *)
Definition disturbed (g : Grid Q) : Grid Q := put_rho g 5 5 7%Q.

(** ** The frame files of [solve] (line 213) *)

Module Frame.
Import Ascii String.






End Frame.

(** The density of every cell of the grid is the sum of the nine [f_old]
    of that cell. *)
Definition mass_consistent (c : Config Q) (g : Grid Q) : Prop :=
  ∀ i j, in_grid c i j = true →
    Qeq (rho g i j) (accum (λ k, f_old g i j k) (static_range 9)).

(** * Properties *)

(** ** Iteration spaces *)

Lemma elem_of_range (lo hi x : Z) : x ∈ range lo hi ↔ lo ≤ x < hi.
Proof. unfold range. rewrite elem_of_seqZ. lia. Qed.

Lemma NoDup_range (lo hi : Z) : NoDup (range lo hi).
Proof. apply NoDup_seqZ. Qed.

Lemma elem_of_ndrange2 (d0 d1 : dim) (i j : Z) :
  (i, j) ∈ ndrange2 d0 d1 ↔ d0.1 ≤ i < d0.2 ∧ d1.1 ≤ j < d1.2.
Proof.
  unfold ndrange2. rewrite list_elem_of_bind. split.
  - intros (a & Hj & Ha). apply list_elem_of_bind in Hj as (b & Hb & Hj).
    apply list_elem_of_singleton in Hb. inversion Hb; subst.
    by rewrite <- !elem_of_range.
  - intros [Hi Hj]. exists i. rewrite elem_of_range. split; [|done].
    apply list_elem_of_bind. exists j. rewrite elem_of_range.
    split; [by apply list_elem_of_singleton | done].
Qed.

Lemma NoDup_ndrange2 (d0 d1 : dim) : NoDup (ndrange2 d0 d1).
Proof.
  unfold ndrange2. apply NoDup_bind; [| |apply NoDup_range].
  - intros a a' [i j] _ _ Ha Ha'.
    apply list_elem_of_bind in Ha as (b & Hb & _).
    apply list_elem_of_bind in Ha' as (b' & Hb' & _).
    apply list_elem_of_singleton in Hb, Hb'. congruence.
  - intros a _. apply NoDup_bind; [| |apply NoDup_range].
    + intros b b' [i j] _ _ Hb Hb'.
      apply list_elem_of_singleton in Hb, Hb'. congruence.
    + intros b _. apply NoDup_singleton.
Qed.

Lemma elem_of_ndrange2_flat (d0 d1 : dim) (x : Z) :
  x ∈ ndrange2_flat d0 d1 ↔ d0.1 ≤ x < d0.1 + extent d0 * extent d1.
Proof.
  unfold ndrange2_flat. rewrite list_elem_of_fmap. split.
  - intros (y & -> & Hy). apply elem_of_range in Hy. lia.
  - intros Hx. exists (x - d0.1). rewrite elem_of_range. lia.
Qed.

Lemma NoDup_ndrange2_flat (d0 d1 : dim) : NoDup (ndrange2_flat d0 d1).
Proof.
  unfold ndrange2_flat. apply NoDup_fmap_2_strong; [|apply NoDup_range].
  intros x y _ _. lia.
Qed.

Lemma upd_eq {A} (fld : Field A) i j v : upd fld i j v i j = v.
Proof. unfold upd, at_cell. by rewrite !Z.eqb_refl. Qed.

Lemma updk_eq {F} (u : Vec F) k v : updk u k v k = v.
Proof. unfold updk. by rewrite Nat.eqb_refl. Qed.

(** Grids with the same contents are equal. *)
Lemma grid_ext {F} (g g' : Grid F) :
  (∀ i j, rho g i j = rho g' i j) →
  (∀ i j k, vel g i j k = vel g' i j k) →
  (∀ i j, mask g i j = mask g' i j) →
  (∀ i j k, f_old g i j k = f_old g' i j k) →
  (∀ i j k, f_new g i j k = f_new g' i j k) →
  g = g'.
Proof.
  destruct g, g'; simpl. intros Hr Hv Hm Ho Hn. f_equal.
  all: repeat (apply functional_extensionality; intros); auto.
Qed.

Section Facts.
Context {F : Type} `{Scalar F}.
Variable c : Config F.

Implicit Types (g : Grid F) (i j : Z) (k : nat).

(** *** Membership in the iteration spaces of the kernels *)

Lemma elem_of_all_cells i j :
  (i, j) ∈ all_cells c ↔ 0 ≤ i < nx c ∧ 0 ≤ j < ny c.
Proof. unfold all_cells. by rewrite elem_of_ndrange2. Qed.

Lemma elem_of_interior_cells i j :
  (i, j) ∈ interior_cells c ↔ 1 ≤ i ≤ nx c - 2 ∧ 1 ≤ j ≤ ny c - 2.
Proof. unfold interior_cells. rewrite elem_of_ndrange2. simpl. lia. Qed.

Lemma elem_of_left_right_range j :
  j ∈ left_right_range c ↔ 0 ≤ j ≤ ny c - 2.
Proof.
  unfold left_right_range. rewrite elem_of_ndrange2_flat.
  unfold extent, upto. simpl. lia.
Qed.

Lemma elem_of_top_bottom_range i :
  i ∈ top_bottom_range c ↔ 0 ≤ i < nx c.
Proof. unfold top_bottom_range, ndrange1. by rewrite elem_of_range. Qed.

(** *** Field access *)

Lemma in_grid_true i j : in_grid c i j = true ↔ 0 ≤ i < nx c ∧ 0 ≤ j < ny c.
Proof. unfold in_grid. rewrite !andb_true_iff. lia. Qed.

Lemma in_grid_false i j :
  in_grid c i j = false ↔ ¬ (0 ≤ i < nx c ∧ 0 ≤ j < ny c).
Proof. rewrite <- in_grid_true. by destruct (in_grid c i j). Qed.

Lemma rd_in {A} (fld : Field A) i j :
  in_grid c i j = true → rd c fld i j = Some (fld i j).
Proof. unfold rd. by intros ->. Qed.

Lemma f_eq_in g i j k :
  in_grid c i j = true →
  f_eq c g i j k = Some (f_eq_val (rho g i j) (vel g i j) k).
Proof. intros Hin. unfold f_eq. by rewrite !rd_in. Qed.

Lemma bind_Some {A B} (f : A → option B) (x : A) : Some x ≫= f = f x.
Proof. reflexivity. Qed.

Lemma set_rho_in g i j v :
  in_grid c i j = true → set_rho c g i j v = Some (put_rho g i j v).
Proof. unfold set_rho. by intros ->. Qed.

Lemma set_mask_in g i j v :
  in_grid c i j = true → set_mask c g i j v = Some (put_mask g i j v).
Proof. unfold set_mask. by intros ->. Qed.

Lemma set_vel_in g i j d v :
  in_grid c i j = true → set_vel c g i j d v = Some (put_vel g i j d v).
Proof. unfold set_vel. by intros ->. Qed.

Lemma set_f_old_in g i j k v :
  in_grid c i j = true → set_f_old c g i j k v = Some (put_f_old g i j k v).
Proof. unfold set_f_old. by intros ->. Qed.

Lemma set_f_new_in g i j k v :
  in_grid c i j = true → set_f_new c g i j k v = Some (put_f_new g i j k v).
Proof. unfold set_f_new. by intros ->. Qed.

(** Executing the accesses of a cell update that stay inside the grid. *)
Ltac run1 :=
  first [ rewrite set_rho_in by assumption
        | rewrite set_mask_in by assumption
        | rewrite set_vel_in by assumption
        | rewrite set_f_old_in by assumption
        | rewrite set_f_new_in by assumption
        | rewrite rd_in by assumption
        | rewrite f_eq_in by assumption
        | rewrite bind_Some ].
Ltac run := repeat (run1; cbn beta).

(** Reading the fields of an updated grid. *)
Ltac fields :=
  cbn [rho vel mask f_old f_new put_rho put_mask put_vel put_f_old put_f_new].

Lemma if_bool_ext {A} (b b' : bool) (x y : A) :
  b = b' → (if b then x else y) = (if b' then x else y).
Proof. by intros ->. Qed.

Lemma if_bool_ext_val {A} (b : bool) (x x' y : A) :
  x = x' → (if b then x else y) = (if b then x' else y).
Proof. by intros ->. Qed.

Lemma in_static_range k n :
  bool_decide (k ∈ static_range n) = (k <? n)%nat.
Proof.
  unfold static_range. destruct (Nat.ltb_spec k n).
  - apply bool_decide_eq_true_2, elem_of_seq. lia.
  - apply bool_decide_eq_false_2. rewrite elem_of_seq. lia.
Qed.

Lemma in_nil_false {A} `{EqDecision A} (x : A) : bool_decide (x ∈ @nil A) = false.
Proof. apply bool_decide_eq_false_2, not_elem_of_nil. Qed.

Lemma in_snoc_same {A} `{EqDecision A} (l : list A) (x : A) :
  bool_decide (x ∈ l ++ [x]) = true.
Proof. apply bool_decide_eq_true_2. rewrite elem_of_app, list_elem_of_singleton. auto. Qed.

Lemma in_snoc_other {A} `{EqDecision A} (l : list A) (x y : A) :
  y ≠ x → bool_decide (y ∈ l ++ [x]) = bool_decide (y ∈ l).
Proof.
  intros Hne. apply bool_decide_ext.
  rewrite elem_of_app, list_elem_of_singleton. intuition.
Qed.

Lemma at_cell_true i j i' j' : at_cell i j i' j' = true ↔ i' = i ∧ j' = j.
Proof. unfold at_cell. rewrite andb_true_iff, !Z.eqb_eq. done. Qed.

Lemma at_cell_false i j i' j' : at_cell i j i' j' = false ↔ (i', j') ≠ (i, j).
Proof.
  rewrite <- not_true_iff_false, at_cell_true. split.
  - intros Hn [= -> ->]. auto.
  - intros Hn [-> ->]. auto.
Qed.

Lemma at_cell_refl i j : at_cell i j i j = true.
Proof. by apply at_cell_true. Qed.

Lemma upd_at {A} (fld : Field A) i j v i' j' :
  upd fld i j v i' j' = if at_cell i j i' j' then v else fld i' j'.
Proof. reflexivity. Qed.

(** *** Loop invariants *)

(** An invariant indexed by the iterations already executed is
    established by a loop each of whose iterations succeeds and
    re-establishes it. *)
Lemma for_each_inv {A} (I : list A → Grid F → Prop)
    (body : A → Grid F → option (Grid F)) (l : list A) g :
  I [] g →
  (∀ pre x suf g1, l = pre ++ x :: suf → I pre g1 →
     ∃ g2, body x g1 = Some g2 ∧ I (pre ++ [x]) g2) →
  ∃ g', for_each l body g = Some g' ∧ I l g'.
Proof.
  intros H0 Hstep.
  cut (∀ suf pre g1, l = pre ++ suf → I pre g1 →
         ∃ g', for_each suf body g1 = Some g' ∧ I l g').
  { intros Hgen. by apply (Hgen l [] g). }
  induction suf as [|x suf IH]; intros pre g1 Hl Hpre; simpl.
  - exists g1. rewrite app_nil_r in Hl. by subst.
  - destruct (Hstep pre x suf g1 Hl Hpre) as (g2 & -> & H2). simpl.
    apply (IH (pre ++ [x])); [|done]. by rewrite <- app_assoc.
Qed.

(** The same for a loop that is only known to have completed. *)
Lemma for_each_inv_Some {A} (I : list A → Grid F → Prop)
    (body : A → Grid F → option (Grid F)) (l : list A) g g' :
  for_each l body g = Some g' →
  I [] g →
  (∀ pre x suf g1 g2, l = pre ++ x :: suf → I pre g1 →
     body x g1 = Some g2 → I (pre ++ [x]) g2) →
  I l g'.
Proof.
  intros Hrun H0 Hstep.
  cut (∀ suf pre g1, l = pre ++ suf → I pre g1 →
         for_each suf body g1 = Some g' → I l g').
  { intros Hgen. by apply (Hgen l [] g). }
  induction suf as [|x suf IH]; intros pre g1 Hl Hpre; simpl.
  - intros [= ->]. rewrite app_nil_r in Hl. by subst.
  - destruct (body x g1) as [g2|] eqn:Hb; simpl; [|done].
    apply (IH (pre ++ [x])); [by rewrite <- app_assoc|].
    by eapply Hstep.
Qed.

Lemma elem_of_snoc {A} (l : list A) x y : y ∈ l ++ [x] ↔ y ∈ l ∨ y = x.
Proof. by rewrite elem_of_app, list_elem_of_singleton. Qed.

Lemma split_elem_of {A} (l pre suf : list A) x :
  l = pre ++ x :: suf → x ∈ l.
Proof. intros ->. rewrite elem_of_app, elem_of_cons. auto. Qed.

(** *** [collide_and_stream] *)

Lemma e_bounds k : -1 ≤ (e k).1 ≤ 1 ∧ -1 ≤ (e k).2 ≤ 1.
Proof.
  unfold e. do 9 (destruct k as [|k]; [simpl; lia|]).
  destruct k; simpl; lia.
Qed.

Lemma collide_val_same g0 g i j k :
  same_but_f_new g0 g → collide_val c g i j k = collide_val c g0 i j k.
Proof. intros (Hr & Hv & _ & Ho). unfold collide_val. by rewrite Hr, Hv, Ho. Qed.

Lemma collide_dir_run g i j k :
  1 ≤ i ≤ nx c - 2 → 1 ≤ j ≤ ny c - 2 →
  collide_dir c i j k g = Some (put_f_new g i j k (collide_val c g i j k)).
Proof.
  intros Hi Hj. pose proof (e_bounds k) as [He1 He2].
  assert (in_grid c (i - (e k).1) (j - (e k).2) = true) as Hup
    by (apply in_grid_true; lia).
  assert (in_grid c i j = true) as Hin by (apply in_grid_true; lia).
  unfold collide_dir. cbn zeta. run. reflexivity.
Qed.

Lemma collide_cell_spec g0 g i j :
  1 ≤ i ≤ nx c - 2 → 1 ≤ j ≤ ny c - 2 →
  same_but_f_new g0 g →
  ∃ g', collide_cell c (i, j) g = Some g' ∧ same_but_f_new g0 g' ∧
    ∀ i' j' k, f_new g' i' j' k =
      if at_cell i j i' j' && (k <? 9)%nat
      then collide_val c g0 i j k else f_new g i' j' k.
Proof.
  intros Hi Hj Hsame. unfold collide_cell. cbn [fst snd].
  pose (I := λ (done : list nat) (g1 : Grid F),
    same_but_f_new g0 g1 ∧
    ∀ i' j' k, f_new g1 i' j' k =
      if at_cell i j i' j' && bool_decide (k ∈ done)
      then collide_val c g0 i j k else f_new g i' j' k).
  destruct (for_each_inv I (collide_dir c i j) (static_range 9) g)
    as (g' & Hrun & (Hsame' & Hnew)).
  - split; [done|]. intros i' j' k. by rewrite in_nil_false, andb_false_r.
  - intros pre k suf g1 Hl [Hsame1 Hn1].
    rewrite collide_dir_run by done. eexists. split; [done|].
    split; [exact Hsame1|]. intros i' j' k'. fields.
    rewrite (collide_val_same g0 g1) by done.
    rewrite upd_at. destruct (at_cell i j i' j') eqn:Hc; cbn [andb].
    + apply at_cell_true in Hc as [-> ->].
      unfold updk. destruct (Nat.eqb_spec k' k) as [->|Hne].
      * by rewrite in_snoc_same.
      * by rewrite Hn1, at_cell_refl, in_snoc_other.
    + by rewrite Hn1, Hc.
  - exists g'. split; [done|]. split; [done|]. intros i' j' k.
    by rewrite Hnew, in_static_range.
Qed.

Lemma collide_and_stream_run order g :
  order ≡ₚ interior_cells c →
  ∃ g', collide_and_stream c order g = Some g' ∧ same_but_f_new g g' ∧
    ∀ i j k, f_new g' i j k =
      if bool_decide ((i, j) ∈ order) && (k <? 9)%nat
      then collide_val c g i j k else f_new g i j k.
Proof.
  intros Hperm. unfold collide_and_stream, par_for.
  pose (I := λ (done : list (Z * Z)) (g1 : Grid F),
    same_but_f_new g g1 ∧
    ∀ i j k, f_new g1 i j k =
      if bool_decide ((i, j) ∈ done) && (k <? 9)%nat
      then collide_val c g i j k else f_new g i j k).
  apply (for_each_inv I).
  - split; [done|]. intros i j k. by rewrite in_nil_false.
  - intros pre [i j] suf g1 Hl [Hsame Hn1].
    assert ((i, j) ∈ interior_cells c) as Hin
      by (rewrite <- Hperm; by eapply split_elem_of).
    apply elem_of_interior_cells in Hin as [Hi Hj].
    destruct (collide_cell_spec g g1 i j Hi Hj Hsame) as (g2 & -> & Hsame2 & Hn2).
    exists g2. split; [done|]. split; [done|]. intros i' j' k.
    rewrite Hn2, Hn1.
    destruct (at_cell i j i' j') eqn:Hc; cbn [andb].
    + apply at_cell_true in Hc as [-> ->]. rewrite in_snoc_same. cbn [andb].
      destruct (k <? 9)%nat; [done|]. by rewrite andb_false_r.
    + apply at_cell_false in Hc. by rewrite in_snoc_other.
Qed.

(** *** [update_macro_var] *)

Lemma accum_snoc (term : nat → F) ks k :
  accum term (ks ++ [k]) = fadd (accum term ks) (term k).
Proof. unfold accum. by rewrite fold_left_app. Qed.

Lemma macro_dir_spec g i j k :
  in_grid c i j = true →
  ∃ g', macro_dir c i j k g = Some g' ∧
    f_new g' = f_new g ∧ mask g' = mask g ∧
    (∀ i' j', rho g' i' j' =
       if at_cell i j i' j' then fadd (rho g i j) (f_new g i j k)
       else rho g i' j') ∧
    (∀ i' j' d, vel g' i' j' d =
       if at_cell i j i' j' && (d <? 2)%nat
       then fadd (vel g i j d) (fmul (of_int (e_at k d)) (f_new g i j k))
       else vel g i' j' d) ∧
    (∀ i' j' k', f_old g' i' j' k' =
       if at_cell i j i' j' && (k' =? k)%nat
       then f_new g i j k else f_old g i' j' k').
Proof.
  intros Hin. unfold macro_dir. run. eexists. split; [done|]. fields.
  split_and!; try done.
  - intros i' j' d. rewrite !upd_at, !at_cell_refl.
    destruct (at_cell i j i' j') eqn:Hc; cbn [andb]; [|done].
    apply at_cell_true in Hc as [-> ->].
    by destruct d as [|[|d]].
  - intros i' j' k'. rewrite upd_at.
    destruct (at_cell i j i' j') eqn:Hc; cbn [andb]; [|done].
    apply at_cell_true in Hc as [-> ->]. done.
Qed.

Lemma macro_cell_spec g i j :
  in_grid c i j = true →
  ∃ g', macro_cell c (i, j) g = Some g' ∧
    f_new g' = f_new g ∧ mask g' = mask g ∧
    (∀ i' j', rho g' i' j' =
       if at_cell i j i' j' then macro_rho g i j else rho g i' j') ∧
    (∀ i' j' d, vel g' i' j' d =
       if at_cell i j i' j' && (d <? 2)%nat
       then macro_vel g i j d else vel g i' j' d) ∧
    (∀ i' j' k, f_old g' i' j' k =
       if at_cell i j i' j' && (k <? 9)%nat
       then f_new g i j k else f_old g i' j' k).
Proof.
  intros Hin. unfold macro_cell. cbn [fst snd]. run.
  pose (I := λ (done : list nat) (g1 : Grid F),
    f_new g1 = f_new g ∧ mask g1 = mask g ∧
    (∀ i' j', rho g1 i' j' =
       if at_cell i j i' j' then accum (λ k, f_new g i j k) done
       else rho g i' j') ∧
    (∀ i' j' d, vel g1 i' j' d =
       if at_cell i j i' j' && (d <? 2)%nat
       then accum (λ k, fmul (of_int (e_at k d)) (f_new g i j k)) done
       else vel g i' j' d) ∧
    (∀ i' j' k, f_old g1 i' j' k =
       if at_cell i j i' j' && bool_decide (k ∈ done)
       then f_new g i j k else f_old g i' j' k)).
  edestruct (for_each_inv I (macro_dir c i j) (static_range 9))
    as (g1 & -> & Hn & Hm & Hr & Hv & Ho).
  - split_and!; try done; fields.
    + intros i' j' d. rewrite !upd_at, !at_cell_refl.
      destruct (at_cell i j i' j') eqn:Hc; cbn [andb]; [|done].
      apply at_cell_true in Hc as [-> ->]. by destruct d as [|[|d]].
    + intros i' j' k. by rewrite in_nil_false, andb_false_r.
  - intros pre k suf g1 _ (Hn & Hm & Hr & Hv & Ho).
    destruct (macro_dir_spec g1 i j k Hin) as (g2 & -> & Hn2 & Hm2 & Hr2 & Hv2 & Ho2).
    exists g2. split; [done|]. split_and!; try congruence.
    + intros i' j'. rewrite Hr2, !Hr, at_cell_refl, accum_snoc, Hn.
      by destruct (at_cell i j i' j').
    + intros i' j' d. rewrite Hv2, !Hv, at_cell_refl, accum_snoc, Hn.
      destruct (at_cell i j i' j'); cbn [andb]; [|done].
      by destruct (d <? 2)%nat.
    + intros i' j' k'. rewrite Ho2, !Ho, Hn.
      destruct (at_cell i j i' j'); cbn [andb]; [|done].
      destruct (Nat.eqb_spec k' k) as [->|Hne].
      * by rewrite in_snoc_same.
      * by rewrite in_snoc_other.
  - run. assert (Hd : ∀ g d, rd c (vel g) i j = Some (vel g i j))
      by (intros; by apply rd_in).
    eexists. split; [done|]. fields. split_and!; try done.
    + intros i' j' d. rewrite !upd_at, !at_cell_refl.
      destruct (at_cell i j i' j') eqn:Hc; cbn [andb].
      * apply at_cell_true in Hc as [-> ->].
        unfold updk, macro_vel, macro_mom, macro_rho.
        rewrite !Hr, !Hv, !at_cell_refl. cbn [andb].
        by destruct d as [|[|d]]; cbn [Nat.eqb Nat.ltb Nat.leb].
      * by rewrite Hv, Hc.
    + intros i' j' k. by rewrite Ho, in_static_range.
Qed.

Lemma update_macro_var_run order g :
  order ≡ₚ interior_cells c →
  ∃ g', update_macro_var c order g = Some g' ∧
    f_new g' = f_new g ∧ mask g' = mask g ∧
    (∀ i j, rho g' i j =
       if bool_decide ((i, j) ∈ order) then macro_rho g i j else rho g i j) ∧
    (∀ i j d, vel g' i j d =
       if bool_decide ((i, j) ∈ order) && (d <? 2)%nat
       then macro_vel g i j d else vel g i j d) ∧
    (∀ i j k, f_old g' i j k =
       if bool_decide ((i, j) ∈ order) && (k <? 9)%nat
       then f_new g i j k else f_old g i j k).
Proof.
  intros Hperm. unfold update_macro_var, par_for.
  pose (I := λ (done : list (Z * Z)) (g1 : Grid F),
    f_new g1 = f_new g ∧ mask g1 = mask g ∧
    (∀ i j, rho g1 i j =
       if bool_decide ((i, j) ∈ done) then macro_rho g i j else rho g i j) ∧
    (∀ i j d, vel g1 i j d =
       if bool_decide ((i, j) ∈ done) && (d <? 2)%nat
       then macro_vel g i j d else vel g i j d) ∧
    (∀ i j k, f_old g1 i j k =
       if bool_decide ((i, j) ∈ done) && (k <? 9)%nat
       then f_new g i j k else f_old g i j k)).
  apply (for_each_inv I).
  - split_and!; try done; intros; by rewrite in_nil_false.
  - intros pre [i j] suf g1 Hl (Hn & Hm & Hr & Hv & Ho).
    assert ((i, j) ∈ interior_cells c) as Hin
      by (rewrite <- Hperm; by eapply split_elem_of).
    apply elem_of_interior_cells in Hin as [Hi Hj].
    assert (in_grid c i j = true) as Hin by (apply in_grid_true; lia).
    destruct (macro_cell_spec g1 i j Hin) as (g2 & -> & Hn2 & Hm2 & Hr2 & Hv2 & Ho2).
    exists g2. split; [done|].
    assert (macro_rho g1 i j = macro_rho g i j) as Er
      by (unfold macro_rho; by rewrite Hn).
    assert (∀ d, macro_vel g1 i j d = macro_vel g i j d) as Ev
      by (intros d; unfold macro_vel, macro_mom, macro_rho; by rewrite Hn).
    split_and!; try congruence.
    + intros i' j'. rewrite Hr2, Hr, Er.
      destruct (at_cell i j i' j') eqn:Hc.
      * apply at_cell_true in Hc as [-> ->]. by rewrite in_snoc_same.
      * apply at_cell_false in Hc. by rewrite in_snoc_other.
    + intros i' j' d. rewrite Hv2, Hv, Ev.
      destruct (at_cell i j i' j') eqn:Hc; cbn [andb].
      * apply at_cell_true in Hc as [-> ->]. rewrite in_snoc_same. cbn [andb].
        destruct (d <? 2)%nat; [done|]. by rewrite andb_false_r.
      * apply at_cell_false in Hc. by rewrite in_snoc_other.
    + intros i' j' k. rewrite Ho2, Ho, Hn.
      destruct (at_cell i j i' j') eqn:Hc; cbn [andb].
      * apply at_cell_true in Hc as [-> ->]. rewrite in_snoc_same. cbn [andb].
        destruct (k <? 9)%nat; [done|]. by rewrite andb_false_r.
      * apply at_cell_false in Hc. by rewrite in_snoc_other.
Qed.

(** *** [apply_bc_core] *)

Lemma bc_velocity_spec outer dr ibc jbc inb jnb g :
  in_grid c ibc jbc = true → in_grid c inb jnb = true →
  ∃ g', bc_velocity c outer dr ibc jbc inb jnb g = Some g' ∧
    rho g' = rho g ∧ mask g' = mask g ∧ f_old g' = f_old g ∧ f_new g' = f_new g ∧
    ∀ i' j' d, vel g' i' j' d =
      if at_cell ibc jbc i' j' && (d <? 2)%nat
      then bc_vel_val c outer dr g ibc jbc inb jnb d else vel g i' j' d.
Proof.
  intros Hb Hn. unfold bc_velocity, bc_vel_val.
  destruct (outer =? 1); [destruct (bc_type_at c dr =? 0);
    [|destruct (bc_type_at c dr =? 1)]|].
  - run. eexists. split; [done|]. fields. split_and!; try done.
    intros i' j' d. rewrite !upd_at, !at_cell_refl.
    destruct (at_cell ibc jbc i' j') eqn:Hc; cbn [andb]; [|done].
    apply at_cell_true in Hc as [-> ->]. by destruct d as [|[|d]].
  - run. eexists. split; [done|]. fields. split_and!; try done.
    intros i' j' d. rewrite !upd_at, !at_cell_refl.
    destruct (at_cell ibc jbc i' j') eqn:Hc; cbn [andb]; [|done].
    apply at_cell_true in Hc as [-> ->].
    destruct d as [|[|d]]; cbn [updk Nat.eqb Nat.ltb Nat.leb]; try done.
    destruct (at_cell ibc jbc inb jnb) eqn:Hc; [|done].
    apply at_cell_true in Hc as [-> ->]. done.
  - exists g. split_and!; try done. intros i' j' d.
    destruct (at_cell ibc jbc i' j') eqn:Hc; cbn [andb]; [|done].
    apply at_cell_true in Hc as [-> ->]. by destruct (d <? 2)%nat.
  - exists g. split_and!; try done. intros i' j' d.
    destruct (at_cell ibc jbc i' j') eqn:Hc; cbn [andb]; [|done].
    apply at_cell_true in Hc as [-> ->]. by destruct (d <? 2)%nat.
Qed.

Lemma f_eq_val_ext (r : F) (u u' : Vec F) k :
  u 0%nat = u' 0%nat → u 1%nat = u' 1%nat → f_eq_val r u k = f_eq_val r u' k.
Proof. unfold f_eq_val. by intros -> ->. Qed.

Lemma bc_dir_run ibc jbc inb jnb k g :
  in_grid c ibc jbc = true → in_grid c inb jnb = true →
  bc_dir c ibc jbc inb jnb k g =
    Some (put_f_old g ibc jbc k
            (fadd (fsub (f_eq_val (rho g ibc jbc) (vel g ibc jbc) k)
                        (f_eq_val (rho g inb jnb) (vel g inb jnb) k))
                  (f_old g inb jnb k))).
Proof. intros Hb Hn. unfold bc_dir. by run. Qed.

(** The extrapolation loop over the nine directions. *)
Lemma bc_dir_loop ibc jbc inb jnb g :
  in_grid c ibc jbc = true → in_grid c inb jnb = true →
  (ibc, jbc) ≠ (inb, jnb) →
  ∃ g', for_each (static_range 9) (bc_dir c ibc jbc inb jnb) g = Some g' ∧
    rho g' = rho g ∧ vel g' = vel g ∧ mask g' = mask g ∧ f_new g' = f_new g ∧
    ∀ i' j' k, f_old g' i' j' k =
      if at_cell ibc jbc i' j' && (k <? 9)%nat
      then fadd (fsub (f_eq_val (rho g ibc jbc) (vel g ibc jbc) k)
                      (f_eq_val (rho g inb jnb) (vel g inb jnb) k))
                (f_old g inb jnb k)
      else f_old g i' j' k.
Proof.
  intros Hb Hn Hne.
  pose (I := λ (done : list nat) (g1 : Grid F),
    rho g1 = rho g ∧ vel g1 = vel g ∧ mask g1 = mask g ∧ f_new g1 = f_new g ∧
    ∀ i' j' k, f_old g1 i' j' k =
      if at_cell ibc jbc i' j' && bool_decide (k ∈ done)
      then fadd (fsub (f_eq_val (rho g ibc jbc) (vel g ibc jbc) k)
                      (f_eq_val (rho g inb jnb) (vel g inb jnb) k))
                (f_old g inb jnb k)
      else f_old g i' j' k).
  destruct (for_each_inv I (bc_dir c ibc jbc inb jnb) (static_range 9) g)
    as (g' & Hrun & Hr & Hv & Hm & Hfn & Hfo).
  - split_and!; try done. intros. by rewrite in_nil_false, andb_false_r.
  - intros pre k suf g1 _ (Hr & Hv & Hm & Hfn & Hfo).
    rewrite bc_dir_run by done. eexists. split; [done|].
    split_and!; try done. intros i' j' k'. fields. rewrite Hr, Hv, upd_at.
    assert (at_cell ibc jbc inb jnb = false) as Hnb
      by (apply at_cell_false; congruence).
    rewrite (Hfo inb jnb), Hnb. cbn [andb].
    destruct (at_cell ibc jbc i' j') eqn:Hc; cbn [andb].
    + apply at_cell_true in Hc as [-> ->]. unfold updk.
      destruct (Nat.eqb_spec k' k) as [->|Hk].
      * by rewrite in_snoc_same.
      * by rewrite Hfo, at_cell_refl, in_snoc_other.
    + by rewrite Hfo, Hc.
  - exists g'. split_and!; try done. intros. by rewrite Hfo, in_static_range.
Qed.

Lemma apply_bc_core_spec outer dr ibc jbc inb jnb g :
  in_grid c ibc jbc = true → in_grid c inb jnb = true →
  (ibc, jbc) ≠ (inb, jnb) →
  ∃ g', apply_bc_core c outer dr ibc jbc inb jnb g = Some g' ∧
    mask g' = mask g ∧ f_new g' = f_new g ∧
    (∀ i' j' d, vel g' i' j' d =
       if at_cell ibc jbc i' j' && (d <? 2)%nat
       then bc_vel_val c outer dr g ibc jbc inb jnb d else vel g i' j' d) ∧
    (∀ i' j', rho g' i' j' =
       if at_cell ibc jbc i' j' then rho g inb jnb else rho g i' j') ∧
    (∀ i' j' k, f_old g' i' j' k =
       if at_cell ibc jbc i' j' && (k <? 9)%nat
       then extrapolate g (vel g' ibc jbc) inb jnb k
       else f_old g i' j' k).
Proof.
  intros Hb Hn Hne. unfold apply_bc_core.
  destruct (bc_velocity_spec outer dr ibc jbc inb jnb g Hb Hn)
    as (gv & -> & Hr & Hm & Hfo & Hfn & Hv).
  run.
  destruct (bc_dir_loop ibc jbc inb jnb (put_rho gv ibc jbc (rho gv inb jnb)) Hb Hn Hne)
    as (g' & -> & Hr' & Hv' & Hm' & Hfn' & Hfo').
  assert (at_cell ibc jbc inb jnb = false) as Hnb
    by (apply at_cell_false; congruence).
  exists g'. split; [done|]. revert Hr' Hv' Hm' Hfn' Hfo'. fields.
  intros Hr' Hv' Hm' Hfn' Hfo'. split_and!; try congruence.
  - intros. by rewrite Hv', Hv.
  - intros. by rewrite Hr', upd_at, Hr.
  - intros i' j' k. rewrite Hfo', Hfo. apply if_bool_ext_val. unfold extrapolate.
    rewrite upd_eq, upd_at, Hnb, Hv', Hr. do 2 f_equal.
    apply f_eq_val_ext; by rewrite Hv, Hnb.
Qed.

Lemma apply_bc_core_Some outer dr ibc jbc inb jnb g g' :
  apply_bc_core c outer dr ibc jbc inb jnb g = Some g' →
  in_grid c ibc jbc = true ∧ in_grid c inb jnb = true.
Proof.
  unfold apply_bc_core.
  destruct (bc_velocity c outer dr ibc jbc inb jnb g) as [gv|]; [|done].
  rewrite bind_Some. unfold rd, set_rho.
  destruct (in_grid c inb jnb); [|done]. rewrite bind_Some.
  destruct (in_grid c ibc jbc); [done|]. done.
Qed.

(** *** Loops of independent [apply_bc_core] calls *)

Lemma bc_vel_val_ext outer dr g g' ibc jbc inb jnb d :
  vel g' ibc jbc d = vel g ibc jbc d → vel g' inb jnb d = vel g inb jnb d →
  bc_vel_val c outer dr g' ibc jbc inb jnb d = bc_vel_val c outer dr g ibc jbc inb jnb d.
Proof. unfold bc_vel_val. by intros -> ->. Qed.

Lemma extrapolate_ext g g' (u u' : Vec F) inb jnb k :
  cell_kept g g' inb jnb → (∀ d, u' d = u d) →
  extrapolate g' u' inb jnb k = extrapolate g u inb jnb k.
Proof.
  intros (Hr & Hv & Ho) Hu. unfold extrapolate. rewrite Hr, Ho.
  do 2 f_equal; apply f_eq_val_ext; auto.
Qed.

Lemma cell_kept_refl g i j : cell_kept g g i j.
Proof. by split_and!. Qed.

(** A loop whose iterations each run two calls is the loop over the
    calls. *)
Lemma for_each_two_calls (a b : Z → BcCall) (order : list Z) g :
  for_each order (λ t g, g ← run_call c (a t) g; run_call c (b t) g) g =
  for_each (order ≫= λ t, [a t; b t]) (run_call c) g.
Proof.
  revert g. induction order as [|t order IH]; intros g; [done|].
  cbn [for_each]. change ((t :: order) ≫= λ t, [a t; b t])
    with (a t :: b t :: (order ≫= λ t, [a t; b t])).
  cbn [for_each]. destruct (run_call c (a t) g) as [g1|]; [|done].
  rewrite !bind_Some. destruct (run_call c (b t) g1) as [g2|]; [|done].
  rewrite !bind_Some. apply IH.
Qed.

(** Calls that write pairwise distinct cells, none of which is the
    neighbour read by any call, all see the grid the loop starts from. *)
Lemma calls_independent (qs : list BcCall) g :
  (∀ q, q ∈ qs → in_grid c (call_cell q).1 (call_cell q).2 = true ∧
                 in_grid c (call_nb q).1 (call_nb q).2 = true) →
  NoDup (call_cell <$> qs) →
  (∀ q q', q ∈ qs → q' ∈ qs → call_cell q ≠ call_nb q') →
  ∃ g', for_each qs (run_call c) g = Some g' ∧
    mask g' = mask g ∧ f_new g' = f_new g ∧
    (∀ q, q ∈ qs →
       bc_applied c 1 (call_dr q) g g' (call_cell q).1 (call_cell q).2
                  (call_nb q).1 (call_nb q).2) ∧
    (∀ i j, (i, j) ∉ call_cell <$> qs → cell_kept g g' i j).
Proof.
  intros Hin Hnd Hsep.
  pose (I := λ (done : list BcCall) (g1 : Grid F),
    mask g1 = mask g ∧ f_new g1 = f_new g ∧
    (∀ q, q ∈ done →
       bc_applied c 1 (call_dr q) g g1 (call_cell q).1 (call_cell q).2
                  (call_nb q).1 (call_nb q).2) ∧
    (∀ i j, (i, j) ∉ call_cell <$> done → cell_kept g g1 i j)).
  apply (for_each_inv I).
  - split_and!; try done. intros q Hq. by apply not_elem_of_nil in Hq.
  - intros pre q suf g1 Hl (Hm & Hfn & Happ & Hkept).
    assert (q ∈ qs) as Hq by (by eapply split_elem_of).
    destruct (Hin q Hq) as [Hb Hn].
    destruct (call_cell q) as [ib jb] eqn:Ecell.
    destruct (call_nb q) as [inb jnb] eqn:Enb. cbn [fst snd] in Hb, Hn.
    assert ((ib, jb) ≠ (inb, jnb)) as Hne.
    { rewrite <- Ecell, <- Enb. by apply Hsep. }
    assert ((ib, jb) ∉ call_cell <$> pre) as Hfresh.
    { subst qs. rewrite fmap_app, fmap_cons in Hnd.
      apply NoDup_app in Hnd as (_ & Hd & _). intros Hx.
      apply (Hd _ Hx). rewrite Ecell. left. }
    assert ((inb, jnb) ∉ call_cell <$> pre) as Hnbfree.
    { intros (q' & Hq' & Hin')%list_elem_of_fmap.
      apply (Hsep q' q); [subst qs; rewrite elem_of_app; auto|done|].
      by rewrite Enb. }
    destruct (apply_bc_core_spec 1 (call_dr q) ib jb inb jnb g1 Hb Hn Hne)
      as (g2 & Hrun & Hm2 & Hfn2 & Hv2 & Hr2 & Ho2).
    exists g2. split; [unfold run_call; by rewrite Ecell, Enb|].
    pose proof (Hkept _ _ Hfresh) as (Kr & Kv & Ko).
    pose proof (Hkept _ _ Hnbfree) as Knb.
    assert (bc_applied c 1 (call_dr q) g g2 ib jb inb jnb) as Hnew.
    { split_and!.
      - intros d. rewrite Hv2, at_cell_refl. cbn [andb].
        destruct (d <? 2)%nat; [|apply Kv].
        apply bc_vel_val_ext; [apply Kv|apply Knb].
      - rewrite Hr2, at_cell_refl. apply Knb.
      - intros k. rewrite Ho2, at_cell_refl. cbn [andb].
        destruct (k <? 9)%nat; [|apply Ko]. by apply extrapolate_ext. }
    assert (∀ i j, (i, j) ≠ (ib, jb) → cell_kept g1 g2 i j) as Hother.
    { intros i j Hij. apply at_cell_false in Hij.
      split_and!; intros; by rewrite ?Hv2, ?Hr2, ?Ho2, Hij. }
    split_and!; try congruence.
    + intros q' [Hq'| ->]%elem_of_snoc; [|by rewrite Ecell, Enb].
      destruct (call_cell q') as [ib' jb'] eqn:Ecell'.
      destruct (call_nb q') as [inb' jnb'] eqn:Enb'. cbn [fst snd].
      assert ((ib', jb') ≠ (ib, jb)) as Hd.
      { intros Heq. apply Hfresh. rewrite <- Heq, <- Ecell'.
        by apply list_elem_of_fmap_2. }
      destruct (Hother _ _ Hd) as (Or & Ov & Oo).
      specialize (Happ q' Hq'). rewrite Ecell', Enb' in Happ.
      cbn [fst snd] in Happ. destruct Happ as (Av & Ar & Ao).
      split_and!.
      * intros d. by rewrite Ov, Av.
      * by rewrite Or, Ar.
      * intros k. rewrite Oo, Ao. apply if_bool_ext_val.
        unfold extrapolate. do 2 f_equal. apply f_eq_val_ext; by rewrite Ov.
    + intros i j Hij. rewrite fmap_app, elem_of_app in Hij.
      assert ((i, j) ≠ (ib, jb)) as Hd.
      { intros Heq. apply Hij. right. rewrite Heq, <- Ecell. left. }
      destruct (Hother _ _ Hd) as (Or & Ov & Oo).
      destruct (Hkept i j) as (Pr & Pv & Po); [tauto|].
      split_and!; intros; congruence.
Qed.

Lemma elem_of_two_calls (a b : Z → BcCall) (order : list Z) q :
  q ∈ order ≫= (λ t, [a t; b t]) ↔ ∃ t, t ∈ order ∧ (q = a t ∨ q = b t).
Proof.
  rewrite list_elem_of_bind. split.
  - intros (t & Hq & Ht). exists t. split; [done|].
    apply elem_of_cons in Hq as [->|Hq]; [auto|].
    apply list_elem_of_singleton in Hq. auto.
  - intros (t & Ht & Hq). exists t. split; [|done].
    rewrite elem_of_cons, list_elem_of_singleton. done.
Qed.

Lemma fmap_bind_list {A B C} (f : B → C) (g : A → list B) (l : list A) :
  f <$> (l ≫= g) = l ≫= (λ x, f <$> g x).
Proof.
  induction l as [|x l IH]; [done|]. csimpl. by rewrite fmap_app, IH.
Qed.

Lemma two_calls_loop (a b : Z → BcCall) (order : list Z) g :
  NoDup order →
  (∀ t q, t ∈ order → q = a t ∨ q = b t →
     in_grid c (call_cell q).1 (call_cell q).2 = true ∧
     in_grid c (call_nb q).1 (call_nb q).2 = true) →
  (∀ t t', call_cell (a t) = call_cell (a t') → t = t') →
  (∀ t t', call_cell (b t) = call_cell (b t') → t = t') →
  (∀ t t', t ∈ order → call_cell (a t) ≠ call_cell (b t')) →
  (∀ t t' q q', t ∈ order → t' ∈ order → q = a t ∨ q = b t →
     q' = a t' ∨ q' = b t' → call_cell q ≠ call_nb q') →
  ∃ g', for_each order (λ t g, g ← run_call c (a t) g; run_call c (b t) g) g = Some g' ∧
    mask g' = mask g ∧ f_new g' = f_new g ∧
    (∀ t q, t ∈ order → q = a t ∨ q = b t →
       bc_applied c 1 (call_dr q) g g' (call_cell q).1 (call_cell q).2
                  (call_nb q).1 (call_nb q).2) ∧
    (∀ i j, (∀ t, t ∈ order → (i, j) ≠ call_cell (a t) ∧ (i, j) ≠ call_cell (b t)) →
       cell_kept g g' i j).
Proof.
  intros Hnd Hin Ha Hb Hab Hsep. rewrite for_each_two_calls.
  destruct (calls_independent (order ≫= λ t, [a t; b t]) g)
    as (g' & Hrun & Hm & Hfn & Happ & Hkept).
  - intros q (t & Ht & Hq)%elem_of_two_calls. by eapply Hin.
  - rewrite fmap_bind_list. apply NoDup_bind; [| |done].
    + intros t t' x Ht Ht' Hx Hx'. cbn [fmap list_fmap compose] in Hx, Hx'.
      rewrite elem_of_cons, list_elem_of_singleton in Hx.
      rewrite elem_of_cons, list_elem_of_singleton in Hx'.
      destruct Hx as [->| ->], Hx' as [Hx'|Hx']; auto.
      * by apply Hab in Hx'.
      * symmetry in Hx'. by apply Hab in Hx'.
    + intros t Ht. cbn [fmap list_fmap compose].
      apply NoDup_cons. split; [|apply NoDup_singleton].
      rewrite list_elem_of_singleton. by apply Hab.
  - intros q q' (t & Ht & Hq)%elem_of_two_calls (t' & Ht' & Hq')%elem_of_two_calls.
    by eapply (Hsep t t').
  - exists g'. split_and!; try done.
    + intros t q Ht Hq. apply Happ, elem_of_two_calls. eauto.
    + intros i j Hij. apply Hkept.
      intros (q & Heq & (t & Ht & Hq)%elem_of_two_calls)%list_elem_of_fmap.
      destruct (Hij t Ht) as [Hna Hnb]. destruct Hq as [-> | ->]; congruence.
Qed.

(** *** The two edge loops of [apply_bc] *)

Lemma NoDup_Permutation_range (order l : list Z) :
  order ≡ₚ l → NoDup l → NoDup order.
Proof. intros ->. done. Qed.

Lemma left_right_loop order g :
  3 ≤ nx c → order ≡ₚ left_right_range c →
  ∃ g', par_for order (bc_left_right c) g = Some g' ∧
    mask g' = mask g ∧ f_new g' = f_new g ∧
    (∀ j, 0 ≤ j ≤ ny c - 2 →
       bc_applied c 1 0 g g' 0 j 1 j ∧
       bc_applied c 1 2 g g' (nx c - 1) j (nx c - 2) j) ∧
    (∀ i j, ¬ ((i = 0 ∨ i = nx c - 1) ∧ 0 ≤ j ≤ ny c - 2) → cell_kept g g' i j).
Proof.
  intros Hnx Hperm.
  assert (∀ t, t ∈ order ↔ 0 ≤ t ≤ ny c - 2) as Hmem
    by (intros t; by rewrite Hperm, elem_of_left_right_range).
  destruct (two_calls_loop left_call (right_call c) order g)
    as (g' & Hrun & Hm & Hfn & Happ & Hkept).
  - eapply NoDup_Permutation_range; [done|apply NoDup_ndrange2_flat].
  - intros t q Ht%Hmem [-> | ->]; cbn [left_call right_call call_cell call_nb fst snd];
      rewrite !in_grid_true; lia.
  - intros t t' [= ->]. done.
  - intros t t' [= ->]. done.
  - intros t t' _ [= H1 _]. lia.
  - intros t t' q q' _ _ [-> | ->] [-> | ->] [= H1 _]; lia.
  - exists g'. split; [exact Hrun|]. split_and!; try done.
    + intros j Hj%Hmem. split.
      * apply (Happ j (left_call j)); auto.
      * apply (Happ j (right_call c j)); auto.
    + intros i j Hij. apply Hkept. intros t Ht%Hmem.
      cbn [left_call right_call call_cell]. split; intros [= -> ->]; lia.
Qed.

Lemma top_bottom_loop order g :
  3 ≤ ny c → order ≡ₚ top_bottom_range c →
  ∃ g', par_for order (bc_top_bottom c) g = Some g' ∧
    mask g' = mask g ∧ f_new g' = f_new g ∧
    (∀ i, 0 ≤ i < nx c →
       bc_applied c 1 1 g g' i (ny c - 1) i (ny c - 2) ∧
       bc_applied c 1 3 g g' i 0 i 1) ∧
    (∀ i j, ¬ ((j = 0 ∨ j = ny c - 1) ∧ 0 ≤ i < nx c) → cell_kept g g' i j).
Proof.
  intros Hny Hperm.
  assert (∀ t, t ∈ order ↔ 0 ≤ t < nx c) as Hmem
    by (intros t; by rewrite Hperm, elem_of_top_bottom_range).
  destruct (two_calls_loop (top_call c) bottom_call order g)
    as (g' & Hrun & Hm & Hfn & Happ & Hkept).
  - eapply NoDup_Permutation_range; [done|apply NoDup_range].
  - intros t q Ht%Hmem [-> | ->]; cbn [top_call bottom_call call_cell call_nb fst snd];
      rewrite !in_grid_true; lia.
  - intros t t' [= ->]. done.
  - intros t t' [= ->]. done.
  - intros t t' _ [= _ H1]. lia.
  - intros t t' q q' _ _ [-> | ->] [-> | ->] [= _ H1]; lia.
  - exists g'. split; [exact Hrun|]. split_and!; try done.
    + intros i Hi%Hmem. split.
      * apply (Happ i (top_call c i)); auto.
      * apply (Happ i (bottom_call i)); auto.
    + intros i j Hij. apply Hkept. intros t Ht%Hmem.
      cbn [top_call bottom_call call_cell]. split; intros [= -> ->]; lia.
Qed.

(** *** The obstacle loop of [apply_bc] *)

Lemma obstacle_nb_ne i j : (i, j) ≠ obstacle_nb c (i, j).
Proof.
  unfold obstacle_nb. cbn [fst snd].
  destruct (fleb (cy_para_at c 0) (of_int i)); intros [= ? _]; lia.
Qed.

Lemma bc_obstacle_unmasked g i j :
  in_grid c i j = true → masked c g i j = false →
  bc_obstacle c (i, j) g = Some g.
Proof.
  intros Hin Hm. unfold bc_obstacle. cbn [fst snd]. run.
  unfold masked in Hm. by rewrite Hm.
Qed.

Lemma bc_obstacle_masked g i j :
  in_grid c i j = true → masked c g i j = true →
  in_grid c (obstacle_nb c (i, j)).1 (obstacle_nb c (i, j)).2 = true →
  ∃ g', bc_obstacle c (i, j) g = Some g' ∧
    mask g' = mask g ∧ f_new g' = f_new g ∧
    (∀ i' j' d, vel g' i' j' d =
       if at_cell i j i' j' && (d <? 2)%nat then flit 0 else vel g i' j' d) ∧
    (∀ i' j', rho g' i' j' =
       if at_cell i j i' j'
       then rho g (obstacle_nb c (i, j)).1 (obstacle_nb c (i, j)).2
       else rho g i' j') ∧
    (∀ i' j' k, f_old g' i' j' k =
       if at_cell i j i' j' && (k <? 9)%nat
       then extrapolate g (vel g' i j)
              (obstacle_nb c (i, j)).1 (obstacle_nb c (i, j)).2 k
       else f_old g i' j' k).
Proof.
  intros Hin Hm Hnb. pose proof (obstacle_nb_ne i j) as Hne.
  destruct (obstacle_nb c (i, j)) as [inb jnb] eqn:Enb. cbn [fst snd] in *.
  unfold bc_obstacle. cbn [fst snd]. run.
  unfold masked in Hm. rewrite Hm, Enb. cbn [fst snd].
  destruct (apply_bc_core_spec 0 0 i j inb jnb
              (put_vel (put_vel g i j 0 (flit 0)) i j 1 (flit 0)) Hin Hnb Hne)
    as (g' & -> & Hm' & Hfn' & Hv' & Hr' & Ho').
  assert (at_cell i j inb jnb = false) as Hc by (apply at_cell_false; congruence).
  exists g'. split; [done|]. revert Hm' Hfn' Hv' Hr' Ho'. fields.
  intros Hm' Hfn' Hv' Hr' Ho'. split_and!; try done.
  - intros i' j' d. rewrite Hv'. unfold bc_vel_val. cbn [Z.eqb]. fields.
    rewrite !upd_at, !at_cell_refl.
    destruct (at_cell i j i' j') eqn:Hc'; cbn [andb]; [|done].
    apply at_cell_true in Hc' as [-> ->].
    by destruct d as [|[|d]].
  - intros i' j' k. rewrite Ho'. apply if_bool_ext_val.
    unfold extrapolate. fields. do 2 f_equal.
    apply f_eq_val_ext; by rewrite !upd_at, Hc.
Qed.

Lemma bc_obstacle_Some g g' i j :
  bc_obstacle c (i, j) g = Some g' →
  mask g' = mask g ∧
  (masked c g i j = true →
     in_grid c (obstacle_nb c (i, j)).1 (obstacle_nb c (i, j)).2 = true).
Proof.
  unfold bc_obstacle, masked. cbn [fst snd]. unfold rd.
  destruct (in_grid c i j) eqn:Hin; [|done]. rewrite bind_Some.
  destruct ((cy c =? 1) && feqb (mask g i j) (flit 1)) eqn:Hm.
  - run. intros Hrun. pose proof (apply_bc_core_Some _ _ _ _ _ _ _ _ Hrun) as [_ Hnb].
    split; [|done].
    destruct (apply_bc_core_spec 0 0 i j _ _
              (put_vel (put_vel g i j 0 (flit 0)) i j 1 (flit 0)) Hin Hnb
              (obstacle_nb_ne i j)) as (g2 & Hrun2 & Hm2 & _).
    rewrite Hrun in Hrun2. injection Hrun2 as ->. exact Hm2.
  - intros [= ->]. done.
Qed.

Lemma in_order_all_cells order i j :
  order ≡ₚ all_cells c → bool_decide ((i, j) ∈ order) = in_grid c i j.
Proof.
  intros Hperm. destruct (in_grid c i j) eqn:Hin.
  - apply bool_decide_eq_true_2. rewrite Hperm.
    by apply elem_of_all_cells, in_grid_true.
  - apply bool_decide_eq_false_2. rewrite Hperm, elem_of_all_cells.
    by apply in_grid_false.
Qed.

Lemma obstacle_loop order g :
  order ≡ₚ all_cells c → obstacle_safe c g →
  ∃ g', par_for order (bc_obstacle c) g = Some g' ∧
    mask g' = mask g ∧ f_new g' = f_new g ∧
    (∀ i j d, vel g' i j d =
       if in_grid c i j && masked c g i j && (d <? 2)%nat
       then flit 0 else vel g i j d) ∧
    (∀ i j, in_grid c i j && masked c g i j = false → cell_kept g g' i j).
Proof.
  intros Hperm Hsafe. unfold par_for.
  pose (I := λ (done : list (Z * Z)) (g1 : Grid F),
    mask g1 = mask g ∧ f_new g1 = f_new g ∧
    (∀ i j d, vel g1 i j d =
       if bool_decide ((i, j) ∈ done) && masked c g i j && (d <? 2)%nat
       then flit 0 else vel g i j d) ∧
    (∀ i j, in_grid c i j && masked c g i j = false →
       rho g1 i j = rho g i j ∧ ∀ k, f_old g1 i j k = f_old g i j k)).
  destruct (for_each_inv I (bc_obstacle c) order g)
    as (g' & Hrun & Hm & Hfn & Hv & Hk).
  - split_and!; try done; intros; by rewrite in_nil_false.
  - intros pre [i j] suf g1 Hl (Hm & Hfn & Hv & Hk).
    assert ((i, j) ∈ all_cells c) as Hin
      by (rewrite <- Hperm; by eapply split_elem_of).
    apply elem_of_all_cells, in_grid_true in Hin.
    assert (masked c g1 i j = masked c g i j) as Em
      by (unfold masked; by rewrite Hm).
    destruct (masked c g i j) eqn:Hmk.
    + destruct (bc_obstacle_masked g1 i j Hin Em (Hsafe i j Hin Hmk))
        as (g2 & -> & Hm2 & Hfn2 & Hv2 & Hr2 & Ho2).
      exists g2. split; [done|]. split_and!; try congruence.
      * intros i' j' d. rewrite Hv2, Hv.
        destruct (at_cell i j i' j') eqn:Hc; cbn [andb].
        -- apply at_cell_true in Hc as [-> ->].
           rewrite in_snoc_same, Hmk. cbn [andb].
           destruct (d <? 2)%nat; [done|]. by rewrite andb_false_r.
        -- apply at_cell_false in Hc. by rewrite in_snoc_other.
      * intros i' j' Hu.
        assert (at_cell i j i' j' = false) as Hc.
        { apply at_cell_false. intros [= -> ->]. by rewrite Hin, Hmk in Hu. }
        rewrite Hr2, Hc. split; [by apply Hk|].
        intros k. rewrite Ho2, Hc. by apply Hk.
    + rewrite bc_obstacle_unmasked by done. exists g1. split; [done|].
      split_and!; try done. intros i' j' d. rewrite Hv.
      destruct (decide ((i', j') = (i, j))) as [[= -> ->]|Hne].
      * by rewrite Hmk, !andb_false_r.
      * by rewrite in_snoc_other.
  - exists g'. split; [done|]. split_and!; try done.
    + intros i j d. rewrite Hv. apply if_bool_ext. do 2 f_equal.
      by apply in_order_all_cells.
    + intros i j Hu. destruct (Hk i j Hu) as [Hr Ho].
      split_and!; try done. intros d. rewrite Hv.
      destruct (masked c g i j) eqn:Hmk; [|by rewrite andb_false_r].
      rewrite andb_true_r in Hu.
      rewrite bool_decide_eq_false_2; [done|].
      rewrite Hperm, elem_of_all_cells. by apply in_grid_false.
Qed.

(** A completed obstacle loop had every selected neighbour in the grid. *)
Lemma obstacle_loop_Some order g g' :
  order ≡ₚ all_cells c →
  par_for order (bc_obstacle c) g = Some g' → obstacle_safe c g.
Proof.
  intros Hperm Hrun. unfold par_for in Hrun.
  pose (I := λ (done : list (Z * Z)) (g1 : Grid F),
    mask g1 = mask g ∧
    ∀ i j, (i, j) ∈ done → masked c g i j = true →
      in_grid c (obstacle_nb c (i, j)).1 (obstacle_nb c (i, j)).2 = true).
  assert (I order g') as [_ Hall].
  { apply (for_each_inv_Some I (bc_obstacle c) order g g' Hrun).
    - split; [done|]. intros i j Hin. by apply not_elem_of_nil in Hin.
    - intros pre [i j] suf g1 g2 _ [Hm Hd] Hstep.
      apply bc_obstacle_Some in Hstep as [Hm2 Hnb].
      split; [congruence|].
      intros i' j' [Hin|[= -> ->]]%elem_of_snoc; [by apply Hd|].
      intros Hmk. apply Hnb. unfold masked in *. by rewrite Hm. }
  intros i j Hin Hmk. apply Hall; [|done].
  rewrite Hperm. by apply elem_of_all_cells, in_grid_true.
Qed.

(** *** [init] *)

Lemma init_dir_run g i j k :
  in_grid c i j = true →
  init_dir c i j k g =
    Some (put_f_old (put_f_new g i j k (f_eq_val (rho g i j) (vel g i j) k))
                    i j k (f_eq_val (rho g i j) (vel g i j) k)).
Proof.
  intros Hin. unfold init_dir. run. fields. by rewrite upd_eq, updk_eq.
Qed.

Lemma init_dir_loop g i j :
  in_grid c i j = true →
  ∃ g', for_each (static_range 9) (init_dir c i j) g = Some g' ∧
    rho g' = rho g ∧ vel g' = vel g ∧ mask g' = mask g ∧
    (∀ i' j' k, f_new g' i' j' k =
       if at_cell i j i' j' && (k <? 9)%nat
       then f_eq_val (rho g i j) (vel g i j) k else f_new g i' j' k) ∧
    (∀ i' j' k, f_old g' i' j' k =
       if at_cell i j i' j' && (k <? 9)%nat
       then f_eq_val (rho g i j) (vel g i j) k else f_old g i' j' k).
Proof.
  intros Hin.
  pose (I := λ (done : list nat) (g1 : Grid F),
    rho g1 = rho g ∧ vel g1 = vel g ∧ mask g1 = mask g ∧
    (∀ i' j' k, f_new g1 i' j' k =
       if at_cell i j i' j' && bool_decide (k ∈ done)
       then f_eq_val (rho g i j) (vel g i j) k else f_new g i' j' k) ∧
    (∀ i' j' k, f_old g1 i' j' k =
       if at_cell i j i' j' && bool_decide (k ∈ done)
       then f_eq_val (rho g i j) (vel g i j) k else f_old g i' j' k)).
  destruct (for_each_inv I (init_dir c i j) (static_range 9) g)
    as (g' & Hrun & Hr & Hv & Hm & Hn & Ho).
  - split_and!; try done; intros; by rewrite in_nil_false, andb_false_r.
  - intros pre k suf g1 _ (Hr & Hv & Hm & Hn & Ho).
    rewrite init_dir_run by done. eexists. split; [done|].
    split_and!; try done; intros i' j' k'; fields; rewrite Hr, Hv, upd_at.
    + destruct (at_cell i j i' j') eqn:Hc; cbn [andb].
      * apply at_cell_true in Hc as [-> ->]. unfold updk.
        destruct (Nat.eqb_spec k' k) as [->|Hk].
        -- by rewrite in_snoc_same.
        -- by rewrite Hn, at_cell_refl, in_snoc_other.
      * by rewrite Hn, Hc.
    + destruct (at_cell i j i' j') eqn:Hc; cbn [andb].
      * apply at_cell_true in Hc as [-> ->]. unfold updk.
        destruct (Nat.eqb_spec k' k) as [->|Hk].
        -- by rewrite in_snoc_same.
        -- by rewrite Ho, at_cell_refl, in_snoc_other.
      * by rewrite Ho, Hc.
  - exists g'. split_and!; try done; intros; by rewrite ?Hn, ?Ho, in_static_range.
Qed.

Ltac init_close :=
  match goal with
  | Hr : rho _ = _, Hm : mask _ = _, Hn : ∀ _ _ _, f_new _ _ _ _ = _,
    Ho : ∀ _ _ _, f_old _ _ _ _ = _ |- _ =>
      first [ done
            | by rewrite Hr, upd_at
            | by (rewrite Hm, !upd_at; destruct (at_cell _ _ _ _))
            | by (rewrite Hn; apply if_bool_ext_val, f_eq_val_ext)
            | by (rewrite Ho; apply if_bool_ext_val, f_eq_val_ext) ]
  end.

Lemma init_cell_spec g i j :
  in_grid c i j = true →
  ∃ g', init_cell c (i, j) g = Some g' ∧
    (∀ i' j', rho g' i' j' = if at_cell i j i' j' then flit 1 else rho g i' j') ∧
    (∀ i' j' d, vel g' i' j' d =
       if at_cell i j i' j' && (d <? 2)%nat then flit 0 else vel g i' j' d) ∧
    (∀ i' j', mask g' i' j' =
       if at_cell i j i' j' then init_mask c i j else mask g i' j') ∧
    (∀ i' j' k, f_new g' i' j' k =
       if at_cell i j i' j' && (k <? 9)%nat
       then f_eq_val (flit 1) at_rest k else f_new g i' j' k) ∧
    (∀ i' j' k, f_old g' i' j' k =
       if at_cell i j i' j' && (k <? 9)%nat
       then f_eq_val (flit 1) at_rest k else f_old g i' j' k).
Proof.
  intros Hin. unfold init_cell. cbn [fst snd]. run.
  edestruct (init_dir_loop) as (g1 & -> & Hr & Hv & Hm & Hn & Ho); [exact Hin|].
  rewrite bind_Some. revert Hr Hv Hm Hn Ho. fields. rewrite !upd_eq.
  intros Hr Hv Hm Hn Ho.
  assert (∀ i' j' d,
    vel g1 i' j' d =
      if at_cell i j i' j' && (d <? 2)%nat then flit 0 else vel g i' j' d) as Hv1.
  { intros i' j' d. rewrite Hv, !upd_at, ?at_cell_refl.
    destruct (at_cell i j i' j') eqn:Hc; cbn [andb]; [|done].
    apply at_cell_true in Hc as [-> ->]. by destruct d as [|[|d]]. }
  unfold init_mask.
  destruct ((cy c =? 1) && in_disc c i j) eqn:Hd.
  - apply andb_true_iff in Hd as [-> Hd]. unfold in_disc in Hd. rewrite Hd. run.
    eexists. split; [done|]. fields. split_and!; intros; init_close.
  - exists g1. split.
    + apply andb_false_iff in Hd as [-> | Hd]; [done|].
      unfold in_disc in Hd. rewrite Hd. by destruct (cy c =? 1).
    + split_and!; intros; init_close.
Qed.

Lemma init_run order g :
  order ≡ₚ all_cells c →
  ∃ g', init c order g = Some g' ∧
    (∀ i j, rho g' i j = if in_grid c i j then flit 1 else rho g i j) ∧
    (∀ i j d, vel g' i j d =
       if in_grid c i j && (d <? 2)%nat then flit 0 else vel g i j d) ∧
    (∀ i j, mask g' i j = if in_grid c i j then init_mask c i j else mask g i j) ∧
    (∀ i j k, f_new g' i j k =
       if in_grid c i j && (k <? 9)%nat
       then f_eq_val (flit 1) at_rest k else f_new g i j k) ∧
    (∀ i j k, f_old g' i j k =
       if in_grid c i j && (k <? 9)%nat
       then f_eq_val (flit 1) at_rest k else f_old g i j k).
Proof.
  intros Hperm. unfold init, par_for.
  pose (I := λ (done : list (Z * Z)) (g1 : Grid F),
    (∀ i j, rho g1 i j = if bool_decide ((i, j) ∈ done) then flit 1 else rho g i j) ∧
    (∀ i j d, vel g1 i j d =
       if bool_decide ((i, j) ∈ done) && (d <? 2)%nat then flit 0 else vel g i j d) ∧
    (∀ i j, mask g1 i j =
       if bool_decide ((i, j) ∈ done) then init_mask c i j else mask g i j) ∧
    (∀ i j k, f_new g1 i j k =
       if bool_decide ((i, j) ∈ done) && (k <? 9)%nat
       then f_eq_val (flit 1) at_rest k else f_new g i j k) ∧
    (∀ i j k, f_old g1 i j k =
       if bool_decide ((i, j) ∈ done) && (k <? 9)%nat
       then f_eq_val (flit 1) at_rest k else f_old g i j k)).
  destruct (for_each_inv I (init_cell c) order g)
    as (g' & Hrun & Hr & Hv & Hm & Hn & Ho).
  - split_and!; intros; by rewrite in_nil_false.
  - intros pre [i j] suf g1 Hl (Hr & Hv & Hm & Hn & Ho).
    assert ((i, j) ∈ all_cells c) as Hin
      by (rewrite <- Hperm; by eapply split_elem_of).
    apply elem_of_all_cells, in_grid_true in Hin.
    destruct (init_cell_spec g1 i j Hin) as (g2 & -> & Hr2 & Hv2 & Hm2 & Hn2 & Ho2).
    exists g2. split; [done|].
    split_and!; intros i' j'; intros;
      rewrite ?Hr2, ?Hv2, ?Hm2, ?Hn2, ?Ho2, ?Hr, ?Hv, ?Hm, ?Hn, ?Ho;
      (destruct (at_cell i j i' j') eqn:Hc; cbn [andb];
       [apply at_cell_true in Hc as [-> ->]; rewrite in_snoc_same; cbn [andb]
       |apply at_cell_false in Hc; by rewrite in_snoc_other]); try done.
    + destruct (d <? 2)%nat; [done|]. by rewrite andb_false_r.
    + destruct (k <? 9)%nat; [done|]. by rewrite andb_false_r.
    + destruct (k <? 9)%nat; [done|]. by rewrite andb_false_r.
  - exists g'. split; [done|].
    split_and!; intros; rewrite ?Hr, ?Hv, ?Hm, ?Hn, ?Ho;
      by rewrite (in_order_all_cells order).
Qed.

(** *** [apply_bc] as a whole *)

Lemma run_call_frame q g g' :
  call_cell q ≠ call_nb q → run_call c q g = Some g' →
  mask g' = mask g ∧ f_new g' = f_new g.
Proof.
  unfold run_call. intros Hne Hrun.
  pose proof (apply_bc_core_Some _ _ _ _ _ _ _ _ Hrun) as [Hb Hn].
  destruct (apply_bc_core_spec 1 (call_dr q) _ _ _ _ g Hb Hn)
    as (g2 & Hrun2 & Hm & Hfn & _).
  - by destruct (call_cell q), (call_nb q).
  - rewrite Hrun in Hrun2. by injection Hrun2 as ->.
Qed.

Lemma two_calls_frame (a b : Z → BcCall) (order : list Z) g g' :
  (∀ t, call_cell (a t) ≠ call_nb (a t) ∧ call_cell (b t) ≠ call_nb (b t)) →
  for_each order (λ t g, g ← run_call c (a t) g; run_call c (b t) g) g = Some g' →
  mask g' = mask g ∧ f_new g' = f_new g.
Proof.
  intros Hne Hrun.
  apply (for_each_inv_Some (λ _ g1, mask g1 = mask g ∧ f_new g1 = f_new g)
           _ order g g' Hrun); [done|].
  intros pre t suf g1 g2 _ [Hm Hfn] Hstep.
  destruct (run_call c (a t) g1) as [ga|] eqn:Ea; [|done].
  rewrite bind_Some in Hstep. destruct (Hne t) as [Ha Hb].
  apply run_call_frame in Ea as [? ?]; [|done].
  apply run_call_frame in Hstep as [? ?]; [|done].
  split; congruence.
Qed.

Lemma edge_calls_distinct t :
  (call_cell (left_call t) ≠ call_nb (left_call t) ∧
   call_cell (right_call c t) ≠ call_nb (right_call c t)) ∧
  (call_cell (top_call c t) ≠ call_nb (top_call c t) ∧
   call_cell (bottom_call t) ≠ call_nb (bottom_call t)).
Proof.
  cbn [left_call right_call top_call bottom_call call_cell call_nb].
  split_and!; intros [= ?]; lia.
Qed.

(** The edge loops complete on every grid with at least two rows and
    columns. *)
Lemma two_calls_complete (a b : Z → BcCall) (order : list Z) g :
  (∀ t q, t ∈ order → q = a t ∨ q = b t →
     in_grid c (call_cell q).1 (call_cell q).2 = true ∧
     in_grid c (call_nb q).1 (call_nb q).2 = true ∧
     call_cell q ≠ call_nb q) →
  ∃ g', for_each order (λ t g, g ← run_call c (a t) g; run_call c (b t) g) g = Some g' ∧
    mask g' = mask g ∧ f_new g' = f_new g.
Proof.
  intros Hin.
  apply (for_each_inv (λ _ g1, mask g1 = mask g ∧ f_new g1 = f_new g)); [done|].
  intros pre t suf g1 Hl [Hm Hfn].
  assert (t ∈ order) as Ht by (by eapply split_elem_of).
  destruct (Hin t (a t) Ht) as (Ha1 & Ha2 & Ha3); [auto|].
  destruct (Hin t (b t) Ht) as (Hb1 & Hb2 & Hb3); [auto|].
  destruct (apply_bc_core_spec 1 (call_dr (a t)) _ _ _ _ g1 Ha1 Ha2)
    as (ga & Ea & Hma & Hfa & _); [by destruct (call_cell (a t)), (call_nb (a t))|].
  destruct (apply_bc_core_spec 1 (call_dr (b t)) _ _ _ _ ga Hb1 Hb2)
    as (gb & Eb & Hmb & Hfb & _); [by destruct (call_cell (b t)), (call_nb (b t))|].
  exists gb. unfold run_call. rewrite Ea, bind_Some, Eb.
  split; [done|]. split; congruence.
Qed.

Lemma apply_bc_complete o g :
  2 ≤ nx c → 2 ≤ ny c → bc_order_ok c o → obstacle_safe c g →
  ∃ g', apply_bc c o g = Some g' ∧ mask g' = mask g ∧ f_new g' = f_new g.
Proof.
  intros Hnx Hny (Hlr & Htb & Hob) Hsafe. unfold apply_bc, par_for.
  destruct (two_calls_complete left_call (right_call c) (o_lr o) g)
    as (g1 & E1 & Hm1 & Hf1).
  { intros t q Ht. rewrite Hlr in Ht. apply elem_of_left_right_range in Ht.
    intros [-> | ->]; cbn [left_call right_call call_cell call_nb fst snd];
      rewrite !in_grid_true; split_and!; try lia; intros [= ?]; lia. }
  destruct (two_calls_complete (top_call c) bottom_call (o_tb o) g1)
    as (g2 & E2 & Hm2 & Hf2).
  { intros t q Ht. rewrite Htb in Ht. apply elem_of_top_bottom_range in Ht.
    intros [-> | ->]; cbn [top_call bottom_call call_cell call_nb fst snd];
      rewrite !in_grid_true; split_and!; try lia; intros [= ?]; lia. }
  destruct (obstacle_loop (o_ob o) g2 Hob) as (g3 & E3 & Hm3 & Hf3 & _).
  { intros i j Hin Hmk. apply Hsafe; [done|].
    unfold masked in *. by rewrite <- Hm1, <- Hm2. }
  exists g3. split; [|split; congruence].
  change (for_each (o_lr o) (bc_left_right c) g) with
    (for_each (o_lr o) (λ t g, g ← run_call c (left_call t) g;
                               run_call c (right_call c t) g) g).
  rewrite E1, bind_Some.
  change (for_each (o_tb o) (bc_top_bottom c) g1) with
    (for_each (o_tb o) (λ t g, g ← run_call c (top_call c t) g;
                               run_call c (bottom_call t) g) g1).
  rewrite E2, bind_Some. exact E3.
Qed.

(** The three stages of a completed [apply_bc]. *)
Lemma apply_bc_stages o g g' :
  bc_order_ok c o → apply_bc c o g = Some g' →
  ∃ g1 g2,
    par_for (o_lr o) (bc_left_right c) g = Some g1 ∧
    par_for (o_tb o) (bc_top_bottom c) g1 = Some g2 ∧
    par_for (o_ob o) (bc_obstacle c) g2 = Some g' ∧
    mask g1 = mask g ∧ mask g2 = mask g ∧ mask g' = mask g ∧
    f_new g1 = f_new g ∧ f_new g2 = f_new g ∧ f_new g' = f_new g ∧
    obstacle_safe c g ∧
    (∀ i j d, vel g' i j d =
       if in_grid c i j && masked c g i j && (d <? 2)%nat
       then flit 0 else vel g2 i j d) ∧
    (∀ i j, in_grid c i j && masked c g i j = false → cell_kept g2 g' i j).
Proof.
  intros (Hlr & Htb & Hob). unfold apply_bc.
  destruct (par_for (o_lr o) (bc_left_right c) g) as [g1|] eqn:E1; [|done].
  rewrite bind_Some.
  destruct (par_for (o_tb o) (bc_top_bottom c) g1) as [g2|] eqn:E2; [|done].
  rewrite bind_Some. intros E3. exists g1, g2.
  destruct (two_calls_frame left_call (right_call c) (o_lr o) g g1) as [Hm1 Hf1];
    [intros t; apply edge_calls_distinct|exact E1|].
  destruct (two_calls_frame (top_call c) bottom_call (o_tb o) g1 g2) as [Hm2 Hf2];
    [intros t; apply edge_calls_distinct|exact E2|].
  pose proof (obstacle_loop_Some _ _ _ Hob E3) as Hsafe.
  destruct (obstacle_loop (o_ob o) g2 Hob Hsafe) as (g3 & E3' & Hm3 & Hf3 & Hv3 & Hk3).
  rewrite E3 in E3'. injection E3' as <-.
  assert (∀ i j, masked c g2 i j = masked c g i j) as Emk
    by (intros; unfold masked; by rewrite Hm2, Hm1).
  split_and!; try congruence.
  - intros i j Hin Hmk. rewrite <- Emk in Hmk. by apply Hsafe.
  - intros i j d. by rewrite Hv3, Emk.
  - intros i j Hu. apply Hk3. by rewrite Emk.
Qed.

(** ** The kernels, claim by claim *)



(** C3.  Every application of a boundary condition follows one scheme.
    A call [apply_bc_core(1, dr, ibc, jbc, inb, jnb)] of an edge loop, on
    two distinct cells of the grid, completes; it gives the boundary cell
    the configured velocity under Dirichlet and the neighbour's velocity
    under Neumann, copies the neighbour's density, and then sets
    [f_old[boundary][k] = f_eq(boundary) - f_eq(neighbour) + f_old[neighbour][k]]
    for every [k], where [f_eq(boundary)] is taken at the velocity just
    assigned and the density just copied.  The iteration of the obstacle
    loop at a masked cell whose selected neighbour lies in the grid does
    the same with the boundary velocity zero. *)
Theorem bc_extrapolation g :
  (∀ dr ibc jbc inb jnb,
     in_grid c ibc jbc = true → in_grid c inb jnb = true →
     (ibc, jbc) ≠ (inb, jnb) →
     ∃ g', apply_bc_core c 1 dr ibc jbc inb jnb g = Some g' ∧
       (bc_type_at c dr = 0 →
          vel g' ibc jbc 0%nat = (bc_value_at c dr).1 ∧
          vel g' ibc jbc 1%nat = (bc_value_at c dr).2) ∧
       (bc_type_at c dr = 1 →
          vel g' ibc jbc 0%nat = vel g inb jnb 0%nat ∧
          vel g' ibc jbc 1%nat = vel g inb jnb 1%nat) ∧
       rho g' ibc jbc = rho g inb jnb ∧
       (∀ k, (k < 9)%nat →
          f_old g' ibc jbc k =
            fadd (fsub (f_eq_val (rho g' ibc jbc) (vel g' ibc jbc) k)
                       (f_eq_val (rho g inb jnb) (vel g inb jnb) k))
                 (f_old g inb jnb k))) ∧
  (∀ i j,
     in_grid c i j = true → cy c = 1 → feqb (mask g i j) (flit 1) = true →
     in_grid c (obstacle_nb c (i, j)).1 (obstacle_nb c (i, j)).2 = true →
     let inb := (obstacle_nb c (i, j)).1 in
     let jnb := (obstacle_nb c (i, j)).2 in
     ∃ g', bc_obstacle c (i, j) g = Some g' ∧
       vel g' i j 0%nat = flit 0 ∧ vel g' i j 1%nat = flit 0 ∧
       rho g' i j = rho g inb jnb ∧
       (∀ k, (k < 9)%nat →
          f_old g' i j k =
            fadd (fsub (f_eq_val (rho g' i j) (vel g' i j) k)
                       (f_eq_val (rho g inb jnb) (vel g inb jnb) k))
                 (f_old g inb jnb k))).
Proof.
  split.
  - intros dr ibc jbc inb jnb Hb Hn Hne.
    destruct (apply_bc_core_spec 1 dr ibc jbc inb jnb g Hb Hn Hne)
      as (g' & Hrun & _ & _ & Hv & Hr & Ho).
    exists g'. split; [done|].
    assert (rho g' ibc jbc = rho g inb jnb) as Er
      by (by rewrite Hr, at_cell_refl).
    split_and!; try done.
    + intros Ht. rewrite !Hv, at_cell_refl. unfold bc_vel_val.
      by rewrite Ht.
    + intros Ht. rewrite !Hv, at_cell_refl. unfold bc_vel_val.
      rewrite Ht. cbn [Z.eqb andb Nat.ltb Nat.leb].
      by destruct (bc_type_at c dr =? 0) eqn:E; [apply Z.eqb_eq in E; lia|].
    + intros k Hk%Nat.ltb_lt. by rewrite Ho, at_cell_refl, Hk, Er.
  - intros i j Hin Hcy Hmk Hnb inb jnb.
    destruct (bc_obstacle_masked g i j Hin) as (g' & Hrun & _ & _ & Hv & Hr & Ho);
      [unfold masked; by rewrite Hcy, Hmk|done|].
    exists g'. split; [done|].
    assert (rho g' i j = rho g inb jnb) as Er by (by rewrite Hr, at_cell_refl).
    split_and!; try done.
    + by rewrite Hv, at_cell_refl.
    + by rewrite Hv, at_cell_refl.
    + intros k Hk%Nat.ltb_lt. by rewrite Ho, at_cell_refl, Hk, Er.
Qed.

(** The velocity of the boundary cells between the edge loops and the
    obstacle loop. *)
Lemma edge_loops_velocity o g g1 g2 :
  3 ≤ nx c → 3 ≤ ny c → bc_order_ok c o →
  par_for (o_lr o) (bc_left_right c) g = Some g1 →
  par_for (o_tb o) (bc_top_bottom c) g1 = Some g2 →
  ∀ dr ibc jbc inb jnb, edge_cell c dr ibc jbc inb jnb →
    (bc_type_at c dr = 0 →
       vel g2 ibc jbc 0%nat = (bc_value_at c dr).1 ∧
       vel g2 ibc jbc 1%nat = (bc_value_at c dr).2) ∧
    (bc_type_at c dr = 1 →
       vel g2 ibc jbc 0%nat = vel g2 inb jnb 0%nat ∧
       vel g2 ibc jbc 1%nat = vel g2 inb jnb 1%nat).
Proof.
  intros Hnx Hny (Hlr & Htb & _) E1 E2.
  destruct (left_right_loop (o_lr o) g Hnx Hlr) as (g1' & E1' & _ & _ & Hap1 & Hk1).
  rewrite E1 in E1'. injection E1' as <-.
  destruct (top_bottom_loop (o_tb o) g1 Hny Htb) as (g2' & E2' & _ & _ & Hap2 & Hk2).
  rewrite E2 in E2'. injection E2' as <-.
  intros dr ibc jbc inb jnb Hedge.
  destruct Hedge as [j Hj|j Hj|i Hi|i Hi].
  - destruct (Hk2 0 j) as (_ & Kv & _); [lia|].
    destruct (Hk2 1 j) as (_ & Kn & _); [lia|].
    destruct (Hk1 1 j) as (_ & Kn1 & _); [lia|].
    destruct (Hap1 j) as [(Av & _) _]; [lia|].
    rewrite !Kv, !Av, !Kn, !Kn1. unfold bc_vel_val. cbn [Z.eqb Nat.ltb Nat.leb].
    split; intros ->; done.
  - destruct (Hk2 (nx c - 1) j) as (_ & Kv & _); [lia|].
    destruct (Hk2 (nx c - 2) j) as (_ & Kn & _); [lia|].
    destruct (Hk1 (nx c - 2) j) as (_ & Kn1 & _); [lia|].
    destruct (Hap1 j) as [_ (Av & _)]; [lia|].
    rewrite !Kv, !Av, !Kn, !Kn1. unfold bc_vel_val. cbn [Z.eqb Nat.ltb Nat.leb].
    split; intros ->; done.
  - destruct (Hk2 i (ny c - 2)) as (_ & Kn & _); [lia|].
    destruct (Hap2 i Hi) as [(Av & _) _].
    rewrite !Av, !Kn. unfold bc_vel_val. cbn [Z.eqb Nat.ltb Nat.leb].
    split; intros ->; done.
  - destruct (Hk2 i 1) as (_ & Kn & _); [lia|].
    destruct (Hap2 i Hi) as [_ (Av & _)].
    rewrite !Av, !Kn. unfold bc_vel_val. cbn [Z.eqb Nat.ltb Nat.leb].
    split; intros ->; done.
Qed.

(** C5, as amended.  On a grid with at least three rows and columns on
    which no obstacle cell selects a neighbour outside the grid, one call
    to [apply_bc] completes, whatever the iteration order of its loops.
    Afterwards every boundary cell that is not an obstacle cell carries
    the condition of the last edge loop that processes it: the top edge
    for the cells [(i, ny-1)] and the bottom edge for the cells [(i, 0)],
    corners included; the left and right edges for the cells [(0, j)] and
    [(nx-1, j)] with [1 <= j <= ny-2].  Under Dirichlet its velocity is
    exactly that edge's [bc_value]; under Neumann its velocity equals the
    velocity its inward neighbour has after the call, provided that
    neighbour is not an obstacle cell either. *)
Theorem apply_bc_edge_velocity o g :
  3 ≤ nx c → 3 ≤ ny c → bc_order_ok c o → obstacle_safe c g →
  ∃ g', apply_bc c o g = Some g' ∧
    ∀ dr ibc jbc inb jnb,
      edge_cell c dr ibc jbc inb jnb → masked c g ibc jbc = false →
      (bc_type_at c dr = 0 →
         vel g' ibc jbc 0%nat = (bc_value_at c dr).1 ∧
         vel g' ibc jbc 1%nat = (bc_value_at c dr).2) ∧
      (bc_type_at c dr = 1 → masked c g inb jnb = false →
         vel g' ibc jbc 0%nat = vel g' inb jnb 0%nat ∧
         vel g' ibc jbc 1%nat = vel g' inb jnb 1%nat).
Proof.
  intros Hnx Hny Hok Hsafe.
  destruct (apply_bc_complete o g) as (g' & Hrun & _); [lia|lia|done|done|].
  exists g'. split; [done|].
  destruct (apply_bc_stages o g g' Hok Hrun)
    as (g1 & g2 & E1 & E2 & _ & _ & _ & _ & _ & _ & _ & _ & Hv & _).
  intros dr ibc jbc inb jnb Hedge Hmk.
  destruct (edge_loops_velocity o g g1 g2 Hnx Hny Hok E1 E2 _ _ _ _ _ Hedge)
    as [HD HN].
  rewrite !Hv, !Hmk, !andb_false_r. cbn [andb]. split; [done|].
  intros Ht Hmn. rewrite !Hmn, !andb_false_r. cbn [andb]. by apply HN.
Qed.

(** C6.  With the obstacle enabled, whenever [apply_bc] completes (it
    does on every grid with at least two rows and columns on which no
    obstacle cell selects a neighbour outside the grid), every cell whose
    mask is [1] has velocity exactly [(0, 0)].  The neighbour an obstacle
    cell is extrapolated from is [i + 1] when [i >= cy_para[0]] and
    [i - 1] otherwise, and likewise [j + 1] when [j >= cy_para[1]] and
    [j - 1] otherwise: the iteration of the obstacle loop at such a cell
    copies the density of that neighbour and extrapolates [f_old] from
    it. *)
Theorem apply_bc_obstacle o g :
  bc_order_ok c o → cy c = 1 →
  (2 ≤ nx c → 2 ≤ ny c → obstacle_safe c g → is_Some (apply_bc c o g)) ∧
  (∀ g', apply_bc c o g = Some g' →
     ∀ i j, in_grid c i j = true → feqb (mask g i j) (flit 1) = true →
       vel g' i j 0%nat = flit 0 ∧ vel g' i j 1%nat = flit 0) ∧
  (∀ i j,
     let inb := if fleb (cy_para_at c 0) (of_int i) then i + 1 else i - 1 in
     let jnb := if fleb (cy_para_at c 1) (of_int j) then j + 1 else j - 1 in
     obstacle_nb c (i, j) = (inb, jnb) ∧
     ∀ g1 g2, feqb (mask g1 i j) (flit 1) = true →
       bc_obstacle c (i, j) g1 = Some g2 →
       rho g2 i j = rho g1 inb jnb ∧
       ∀ k, (k < 9)%nat →
         f_old g2 i j k = extrapolate g1 (vel g2 i j) inb jnb k).
Proof.
  intros Hok Hcy. split_and!.
  - intros Hnx Hny Hsafe.
    destruct (apply_bc_complete o g Hnx Hny Hok Hsafe) as (g' & -> & _). by eexists.
  - intros g' Hrun i j Hin Hmk.
    destruct (apply_bc_stages o g g' Hok Hrun)
      as (g1 & g2 & _ & _ & _ & _ & _ & _ & _ & _ & _ & _ & Hv & _).
    rewrite !Hv, Hin. unfold masked. by rewrite Hcy, Hmk.
  - intros i j inb jnb. split; [done|]. intros g1 g2 Hmk Hrun.
    assert (masked c g1 i j = true) as Hmk' by (unfold masked; by rewrite Hcy, Hmk).
    assert (in_grid c i j = true) as Hin.
    { unfold bc_obstacle, rd in Hrun. cbn [fst snd] in Hrun.
      by destruct (in_grid c i j). }
    pose proof (bc_obstacle_Some _ _ _ _ Hrun) as [_ Hnb].
    destruct (bc_obstacle_masked g1 i j Hin Hmk' (Hnb Hmk'))
      as (g2' & Hrun' & _ & _ & _ & Hr & Ho).
    rewrite Hrun in Hrun'. injection Hrun' as <-.
    split; [by rewrite Hr, at_cell_refl|].
    intros k Hk%Nat.ltb_lt. by rewrite Ho, at_cell_refl, Hk.
Qed.

(** C7.  One call to [init], whatever the order in which the cells are
    processed, completes and leaves every cell of the grid with density
    [1], velocity [(0, 0)], and, for every direction [k], [f_old] and
    [f_new] equal to [f_eq] of that cell in the resulting state, which is
    the equilibrium value of density [1] at rest.  The mask of a cell is
    [1] when the obstacle is enabled ([cy == 1]) and
    [(i - cx)^2 + (j - cy)^2 <= r^2], and [0] otherwise, so that the test
    [mask == 1] holds in exactly that case.  No other kernel writes the
    mask: [collide_and_stream], [update_macro_var] and [apply_bc] return
    it unchanged. *)
Theorem init_state order g :
  order ≡ₚ all_cells c →
  ∃ g', init c order g = Some g' ∧
    (∀ i j, 0 ≤ i < nx c → 0 ≤ j < ny c →
       rho g' i j = flit 1 ∧
       vel g' i j 0%nat = flit 0 ∧ vel g' i j 1%nat = flit 0 ∧
       (∀ k, (k < 9)%nat →
          f_eq c g' i j k = Some (f_eq_val (flit 1) at_rest k) ∧
          f_old g' i j k = f_eq_val (flit 1) at_rest k ∧
          f_new g' i j k = f_eq_val (flit 1) at_rest k) ∧
       mask g' i j = (if (cy c =? 1) && in_disc c i j then flit 1 else flit 0) ∧
       feqb (mask g' i j) (flit 1) = (cy c =? 1) && in_disc c i j) ∧
    (∀ o1 g1 g2, collide_and_stream c o1 g1 = Some g2 →
       o1 ≡ₚ interior_cells c → mask g2 = mask g1) ∧
    (∀ o1 g1 g2, update_macro_var c o1 g1 = Some g2 →
       o1 ≡ₚ interior_cells c → mask g2 = mask g1) ∧
    (∀ o1 g1 g2, apply_bc c o1 g1 = Some g2 →
       bc_order_ok c o1 → mask g2 = mask g1).
Proof.
  intros Hperm.
  destruct (init_run order g Hperm) as (g' & Hrun & Hr & Hv & Hm & Hn & Ho).
  exists g'. split; [done|]. split_and!.
  - intros i j Hi Hj.
    assert (in_grid c i j = true) as Hin by (by apply in_grid_true).
    split_and!.
    + by rewrite Hr, Hin.
    + by rewrite Hv, Hin.
    + by rewrite Hv, Hin.
    + intros k Hk%Nat.ltb_lt. split_and!.
      * rewrite f_eq_in by done. f_equal. rewrite Hr, Hin.
        apply f_eq_val_ext; by rewrite Hv, Hin.
      * by rewrite Ho, Hin, Hk.
      * by rewrite Hn, Hin, Hk.
    + by rewrite Hm, Hin.
    + rewrite Hm, Hin. unfold init_mask.
      destruct ((cy c =? 1) && in_disc c i j).
      * apply feqb_one_one.
      * apply feqb_zero_one.
  - intros o1 g1 g2 Hrun1 Ho1.
    destruct (collide_and_stream_run o1 g1 Ho1) as (g3 & E & (_ & _ & Hm3 & _) & _).
    congruence.
  - intros o1 g1 g2 Hrun1 Ho1.
    destruct (update_macro_var_run o1 g1 Ho1) as (g3 & E & _ & Hm3 & _).
    congruence.
  - intros o1 g1 g2 Hrun1 Ho1.
    destruct (apply_bc_stages o1 g1 g2 Ho1 Hrun1)
      as (? & ? & _ & _ & _ & _ & _ & Hm3 & _). done.
Qed.

(** *** Accesses outside the grid *)

(** [apply_bc] completes exactly when no obstacle cell selects a
    neighbour outside the grid (on a grid with at least two rows and
    columns). *)
Lemma apply_bc_complete_iff o g :
  2 ≤ nx c → 2 ≤ ny c → bc_order_ok c o →
  is_Some (apply_bc c o g) ↔ obstacle_safe c g.
Proof.
  intros Hnx Hny Hok. split.
  - intros [g' Hrun].
    by destruct (apply_bc_stages o g g' Hok Hrun)
      as (? & ? & _ & _ & _ & _ & _ & _ & _ & _ & _ & Hsafe & _).
  - intros Hsafe.
    destruct (apply_bc_complete o g Hnx Hny Hok Hsafe) as (g' & -> & _). by eexists.
Qed.

Lemma ring_free_safe g :
  (∀ i j, in_grid c i j = true → masked c g i j = true →
     1 ≤ i ≤ nx c - 2 ∧ 1 ≤ j ≤ ny c - 2) →
  obstacle_safe c g.
Proof.
  intros Hring i j Hin Hmk. destruct (Hring i j Hin Hmk) as [Hi Hj].
  unfold obstacle_nb. cbn [fst snd]. apply in_grid_true.
  destruct (fleb (cy_para_at c 0) (of_int i)),
           (fleb (cy_para_at c 1) (of_int j)); lia.
Qed.

(** *** Iteration order *)

Lemma collide_and_stream_order o1 o2 g :
  o1 ≡ₚ interior_cells c → o2 ≡ₚ interior_cells c →
  collide_and_stream c o1 g = collide_and_stream c o2 g.
Proof.
  intros H1 H2.
  destruct (collide_and_stream_run o1 g H1) as (g1 & -> & (Hr1 & Hv1 & Hm1 & Ho1) & Hn1).
  destruct (collide_and_stream_run o2 g H2) as (g2 & -> & (Hr2 & Hv2 & Hm2 & Ho2) & Hn2).
  f_equal. apply grid_ext; intros; try congruence.
  rewrite Hn1, Hn2. apply if_bool_ext. f_equal.
  apply bool_decide_ext. by rewrite H1, H2.
Qed.

Lemma update_macro_var_order o1 o2 g :
  o1 ≡ₚ interior_cells c → o2 ≡ₚ interior_cells c →
  update_macro_var c o1 g = update_macro_var c o2 g.
Proof.
  intros H1 H2.
  assert (∀ i j, bool_decide ((i, j) ∈ o1) = bool_decide ((i, j) ∈ o2)) as Hmem
    by (intros; apply bool_decide_ext; by rewrite H1, H2).
  destruct (update_macro_var_run o1 g H1) as (g1 & -> & Hn1 & Hm1 & Hr1 & Hv1 & Ho1).
  destruct (update_macro_var_run o2 g H2) as (g2 & -> & Hn2 & Hm2 & Hr2 & Hv2 & Ho2).
  f_equal. apply grid_ext; intros; try congruence.
  - by rewrite Hr1, Hr2, Hmem.
  - by rewrite Hv1, Hv2, Hmem.
  - by rewrite Ho1, Ho2, Hmem.
Qed.

Lemma init_order o1 o2 g :
  o1 ≡ₚ all_cells c → o2 ≡ₚ all_cells c → init c o1 g = init c o2 g.
Proof.
  intros H1 H2.
  destruct (init_run o1 g H1) as (g1 & -> & Hr1 & Hv1 & Hm1 & Hn1 & Ho1).
  destruct (init_run o2 g H2) as (g2 & -> & Hr2 & Hv2 & Hm2 & Hn2 & Ho2).
  f_equal.
  apply grid_ext; intros;
    by rewrite ?Hr1, ?Hr2, ?Hv1, ?Hv2, ?Hm1, ?Hm2, ?Hn1, ?Hn2, ?Ho1, ?Ho2.
Qed.

Lemma for_each_app {A} (body : A → Grid F → option (Grid F)) (l1 l2 : list A) g :
  for_each (l1 ++ l2) body g = for_each l1 body g ≫= for_each l2 body.
Proof.
  revert g. induction l1 as [|x l1 IH]; intros g; [done|].
  cbn [app for_each]. destruct (body x g) as [g1|]; [|done].
  rewrite !bind_Some. apply IH.
Qed.

(** Iterations that commute pairwise can run in any order. *)
Lemma for_each_perm {A} `{EqDecision A}
    (body : A → Grid F → option (Grid F)) (l1 l2 : list A) :
  l1 ≡ₚ l2 →
  (∀ x y, x ∈ l1 → y ∈ l1 → x ≠ y →
     ∀ g, for_each [x; y] body g = for_each [y; x] body g) →
  ∀ g, for_each l1 body g = for_each l2 body g.
Proof.
  induction 1 as [|x l l' Hp IH|x y l|l l' l'' Hp1 IH1 Hp2 IH2]; intros Hsw g.
  - done.
  - cbn [for_each]. destruct (body x g) as [g1|]; [|done].
    rewrite !bind_Some. apply IH. intros a b Ha Hb. apply Hsw; by right.
  - change (y :: x :: l) with ([y; x] ++ l).
    change (x :: y :: l) with ([x; y] ++ l).
    rewrite !for_each_app. destruct (decide (x = y)) as [->|Hne]; [done|].
    rewrite (Hsw y x); [done| | |done].
    + left.
    + right. left.
  - rewrite IH1 by done. apply IH2.
    intros a b Ha Hb. apply Hsw; by rewrite Hp1.
Qed.

Lemma run_call_None q g :
  in_grid c (call_cell q).1 (call_cell q).2 &&
  in_grid c (call_nb q).1 (call_nb q).2 = false →
  run_call c q g = None.
Proof.
  intros Hout. destruct (run_call c q g) as [g'|] eqn:Hrun; [|done].
  apply apply_bc_core_Some in Hrun as [Hb Hn]. by rewrite Hb, Hn in Hout.
Qed.

Lemma bc_applied_unique outer dr g g1 g2 ibc jbc inb jnb :
  bc_applied c outer dr g g1 ibc jbc inb jnb →
  bc_applied c outer dr g g2 ibc jbc inb jnb →
  cell_kept g1 g2 ibc jbc.
Proof.
  intros (Hv1 & Hr1 & Ho1) (Hv2 & Hr2 & Ho2).
  assert (∀ d, vel g2 ibc jbc d = vel g1 ibc jbc d) as Hv
    by (intros; by rewrite Hv1, Hv2).
  split_and!; [congruence|done|].
  intros k. rewrite Ho1, Ho2. apply if_bool_ext_val.
  unfold extrapolate. do 2 f_equal. by apply f_eq_val_ext.
Qed.

(** Two calls that neither write the same cell nor write a cell the
    other one reads can be exchanged. *)
Lemma run_call_swap q1 q2 g :
  call_cell q1 ≠ call_nb q1 → call_cell q2 ≠ call_nb q2 →
  call_cell q1 ≠ call_cell q2 →
  call_cell q1 ≠ call_nb q2 → call_cell q2 ≠ call_nb q1 →
  for_each [q1; q2] (run_call c) g = for_each [q2; q1] (run_call c) g.
Proof.
  intros H11 H22 H12 Hn12 Hn21.
  destruct (in_grid c (call_cell q1).1 (call_cell q1).2 &&
            in_grid c (call_nb q1).1 (call_nb q1).2) eqn:E1;
  [destruct (in_grid c (call_cell q2).1 (call_cell q2).2 &&
             in_grid c (call_nb q2).1 (call_nb q2).2) eqn:E2|].
  - apply andb_true_iff in E1 as [B1 N1]. apply andb_true_iff in E2 as [B2 N2].
    assert (∀ qs, qs = [q1; q2] ∨ qs = [q2; q1] →
      ∃ g', for_each qs (run_call c) g = Some g' ∧
        mask g' = mask g ∧ f_new g' = f_new g ∧
        (∀ q, q = q1 ∨ q = q2 →
           bc_applied c 1 (call_dr q) g g' (call_cell q).1 (call_cell q).2
                      (call_nb q).1 (call_nb q).2) ∧
        (∀ i j, (i, j) ≠ call_cell q1 → (i, j) ≠ call_cell q2 →
           cell_kept g g' i j)) as Hboth.
    { intros qs Hqs.
      assert (∀ q, q ∈ qs ↔ q = q1 ∨ q = q2) as Hmem.
      { intros q. destruct Hqs as [-> | ->];
          rewrite elem_of_cons, list_elem_of_singleton; tauto. }
      destruct (calls_independent qs g) as (g' & Hrun & Hm & Hfn & Hap & Hk).
      - intros q [-> | ->]%Hmem; auto.
      - destruct Hqs as [-> | ->]; cbn [fmap list_fmap];
          (apply NoDup_cons; split; [|apply NoDup_singleton]);
          rewrite list_elem_of_singleton; congruence.
      - intros q q' [-> | ->]%Hmem [-> | ->]%Hmem; done.
      - exists g'. split_and!; try done.
        + intros q Hq. by apply Hap, Hmem.
        + intros i j Hn1 Hn2. apply Hk.
          intros (q & Heq & [-> | ->]%Hmem)%list_elem_of_fmap; congruence. }
    destruct (Hboth [q1; q2]) as (ga & -> & Hma & Hfa & Hapa & Hka); [auto|].
    destruct (Hboth [q2; q1]) as (gb & -> & Hmb & Hfb & Hapb & Hkb); [auto|].
    f_equal.
    assert (∀ i j, cell_kept ga gb i j) as Hcells.
    { intros i j.
      destruct (decide ((i, j) = call_cell q1)) as [E|Hn1].
      { pose proof (bc_applied_unique _ _ _ _ _ _ _ _ _
                      (Hapa q1 (or_introl eq_refl)) (Hapb q1 (or_introl eq_refl))) as K.
        rewrite <- E in K. exact K. }
      destruct (decide ((i, j) = call_cell q2)) as [E|Hn2].
      { pose proof (bc_applied_unique _ _ _ _ _ _ _ _ _
                      (Hapa q2 (or_intror eq_refl)) (Hapb q2 (or_intror eq_refl))) as K.
        rewrite <- E in K. exact K. }
      destruct (Hka i j Hn1 Hn2) as (Ar & Av & Ao).
      destruct (Hkb i j Hn1 Hn2) as (Br & Bv & Bo).
      split_and!; intros; congruence. }
    apply grid_ext; intros; try congruence;
      destruct (Hcells i j) as (Kr & Kv & Ko); by rewrite ?Kr, ?Kv, ?Ko.
  - cbn [for_each]. rewrite (run_call_None q2 g) by done.
    destruct (run_call c q1 g) as [g1|]; [|done].
    by rewrite bind_Some, (run_call_None q2 g1).
  - cbn [for_each]. rewrite (run_call_None q1 g) by done.
    destruct (run_call c q2 g) as [g2|]; [|done].
    by rewrite bind_Some, (run_call_None q1 g2).
Qed.

Lemma for_each_swap_at {A} (body : A → Grid F → option (Grid F))
    (pre suf : list A) (x y : A) g :
  (∀ g, for_each [x; y] body g = for_each [y; x] body g) →
  for_each (pre ++ x :: y :: suf) body g = for_each (pre ++ y :: x :: suf) body g.
Proof.
  intros Hsw. rewrite !for_each_app.
  destruct (for_each pre body g) as [g1|]; [|done]. rewrite !bind_Some.
  change (x :: y :: suf) with ([x; y] ++ suf).
  change (y :: x :: suf) with ([y; x] ++ suf).
  by rewrite !for_each_app, Hsw.
Qed.

(** Two iterations of an edge loop commute when each call of one can be
    exchanged with each call of the other. *)
Lemma two_calls_swap (a b : Z → BcCall) (t t' : Z) g :
  (∀ q q', q = a t ∨ q = b t → q' = a t' ∨ q' = b t' →
     ∀ g, for_each [q; q'] (run_call c) g = for_each [q'; q] (run_call c) g) →
  for_each [t; t'] (λ t g, g ← run_call c (a t) g; run_call c (b t) g) g =
  for_each [t'; t] (λ t g, g ← run_call c (a t) g; run_call c (b t) g) g.
Proof.
  intros Hsw. rewrite !for_each_two_calls.
  change ([t; t'] ≫= λ t, [a t; b t]) with ([a t] ++ b t :: a t' :: [b t']).
  rewrite for_each_swap_at by (apply Hsw; auto).
  change ([a t] ++ a t' :: b t :: [b t']) with ([] ++ a t :: a t' :: [b t; b t']).
  rewrite for_each_swap_at by (apply Hsw; auto).
  change ([] ++ a t' :: a t :: [b t; b t']) with ([a t'; a t] ++ b t :: b t' :: []).
  rewrite for_each_swap_at by (apply Hsw; auto).
  change ([a t'; a t] ++ b t' :: b t :: []) with ([a t'] ++ a t :: b t' :: [b t]).
  rewrite for_each_swap_at by (apply Hsw; auto).
  done.
Qed.

(** The result of each edge loop of [apply_bc] does not depend on the
    order of its iterations, whatever the size of the grid. *)
Lemma left_right_order o1 o2 g :
  o1 ≡ₚ o2 →
  par_for o1 (bc_left_right c) g = par_for o2 (bc_left_right c) g.
Proof.
  intros Hperm. unfold par_for. apply for_each_perm; [done|].
  intros t t' _ _ Hne g1.
  apply (two_calls_swap left_call (right_call c)).
  intros q q' [-> | ->] [-> | ->] g2; apply run_call_swap;
    cbn [left_call right_call call_cell call_nb]; intros [= ?]; lia.
Qed.

Lemma top_bottom_order o1 o2 g :
  o1 ≡ₚ o2 →
  par_for o1 (bc_top_bottom c) g = par_for o2 (bc_top_bottom c) g.
Proof.
  intros Hperm. unfold par_for. apply for_each_perm; [done|].
  intros t t' _ _ Hne g1.
  apply (two_calls_swap (top_call c) bottom_call).
  intros q q' [-> | ->] [-> | ->] g2; apply run_call_swap;
    cbn [top_call bottom_call call_cell call_nb]; intros [= ?]; lia.
Qed.

Lemma apply_bc_order o1 o2 g :
  bc_order_ok c o1 → bc_order_ok c o2 → o_ob o1 = o_ob o2 →
  apply_bc c o1 g = apply_bc c o2 g.
Proof.
  intros (L1 & T1 & _) (L2 & T2 & _) Hob. unfold apply_bc.
  rewrite (left_right_order (o_lr o1) (o_lr o2)) by (by rewrite L1, L2).
  destruct (par_for (o_lr o2) (bc_left_right c) g) as [g1|]; [|done].
  rewrite !bind_Some.
  rewrite (top_bottom_order (o_tb o1) (o_tb o2)) by (by rewrite T1, T2).
  by rewrite Hob.
Qed.

Lemma step_order o1 o2 g :
  step_order_ok c o1 → step_order_ok c o2 →
  o_ob (o_bc o1) = o_ob (o_bc o2) →
  step c o1 g = step c o2 g.
Proof.
  intros (C1 & M1 & B1) (C2 & M2 & B2) Hob. unfold step.
  rewrite (collide_and_stream_order (o_collide o1) (o_collide o2)) by done.
  destruct (collide_and_stream c (o_collide o2) g) as [g1|]; [|done].
  rewrite !bind_Some.
  rewrite (update_macro_var_order (o_macro o1) (o_macro o2)) by done.
  destruct (update_macro_var c (o_macro o2) g1) as [g2|]; [|done].
  rewrite !bind_Some. by apply apply_bc_order.
Qed.

Lemma obstacle_loop_disabled order g :
  cy c ≠ 1 → order ≡ₚ all_cells c →
  par_for order (bc_obstacle c) g = Some g.
Proof.
  intros Hcy Hperm. unfold par_for.
  destruct (for_each_inv (λ _ g1, g1 = g) (bc_obstacle c) order g)
    as (g' & Hrun & ->); [done| |done].
  intros pre [i j] suf g1 Hl ->. exists g. split; [|done].
  apply bc_obstacle_unmasked.
  - apply in_grid_true, elem_of_all_cells. rewrite <- Hperm.
    by eapply split_elem_of.
  - unfold masked. by apply Z.eqb_neq in Hcy as ->.
Qed.

Lemma apply_bc_order_disabled o1 o2 g :
  cy c ≠ 1 → bc_order_ok c o1 → bc_order_ok c o2 →
  apply_bc c o1 g = apply_bc c o2 g.
Proof.
  intros Hcy (L1 & T1 & O1) (L2 & T2 & O2). unfold apply_bc.
  rewrite (left_right_order (o_lr o1) (o_lr o2)) by (by rewrite L1, L2).
  destruct (par_for (o_lr o2) (bc_left_right c) g) as [g1|]; [|done].
  rewrite !bind_Some.
  rewrite (top_bottom_order (o_tb o1) (o_tb o2)) by (by rewrite T1, T2).
  destruct (par_for (o_tb o2) (bc_top_bottom c) g1) as [g2|]; [|done].
  rewrite !bind_Some. by rewrite !obstacle_loop_disabled.
Qed.

(** C10, as amended.  Two runs of the per-step pipeline
    ([collide_and_stream], [update_macro_var], [apply_bc]) from the same
    grid and parameters agree after every step (both fault at the same
    step or both hold the same grid, hence the same density and
    velocity), whatever order the iterations of the parallel loops take
    in either run, provided that the obstacle is disabled or that the two
    runs execute the iterations of the obstacle loop of [apply_bc] in the
    same order.  The results of [collide_and_stream], of
    [update_macro_var] and of the two edge loops of [apply_bc] do not
    depend on the order of their iterations at all. *)
Theorem replay_deterministic (os1 os2 : list (StepOrder)) g :
  Forall2 (λ o1 o2, step_order_ok c o1 ∧ step_order_ok c o2 ∧
                    (cy c ≠ 1 ∨ o_ob (o_bc o1) = o_ob (o_bc o2))) os1 os2 →
  (∀ n, run c (take n os1) g = run c (take n os2) g) ∧
  (∀ o1 o2 g1, o1 ≡ₚ interior_cells c → o2 ≡ₚ interior_cells c →
     collide_and_stream c o1 g1 = collide_and_stream c o2 g1 ∧
     update_macro_var c o1 g1 = update_macro_var c o2 g1) ∧
  (∀ o1 o2 g1, o1 ≡ₚ o2 →
     par_for o1 (bc_left_right c) g1 = par_for o2 (bc_left_right c) g1 ∧
     par_for o1 (bc_top_bottom c) g1 = par_for o2 (bc_top_bottom c) g1).
Proof.
  intros Hall. split_and!.
  - intros n. revert g n.
    induction Hall as [|o1 o2 os1 os2 (Ok1 & Ok2 & Hob) Hrest IH]; intros g n.
    + by rewrite !take_nil.
    + destruct n as [|n]; [done|]. cbn [take run].
      assert (step c o1 g = step c o2 g) as ->.
      { destruct Hob as [Hcy|Hob]; [|by apply step_order].
        destruct Ok1 as (C1 & M1 & B1), Ok2 as (C2 & M2 & B2). unfold step.
        rewrite (collide_and_stream_order (o_collide o1) (o_collide o2)) by done.
        destruct (collide_and_stream c (o_collide o2) g) as [g1|]; [|done].
        rewrite !bind_Some.
        rewrite (update_macro_var_order (o_macro o1) (o_macro o2)) by done.
        destruct (update_macro_var c (o_macro o2) g1) as [g2|]; [|done].
        rewrite !bind_Some. by apply apply_bc_order_disabled. }
      destruct (step c o2 g) as [g1|]; [|done]. rewrite !bind_Some. apply IH.
  - intros o1 o2 g1 H1 H2. split.
    + by apply collide_and_stream_order.
    + by apply update_macro_var_order.
  - intros o1 o2 g1 Hperm. split.
    + by apply left_right_order.
    + by apply top_bottom_order.
Qed.

(** The second half of C9, as amended: on a grid with at least two rows
    and columns, [apply_bc] accesses no entry outside the grid when no
    obstacle cell lies on the outermost ring. *)
Lemma apply_bc_in_bounds o g :
  2 ≤ nx c → 2 ≤ ny c → bc_order_ok c o →
  (∀ i j, in_grid c i j = true → masked c g i j = true →
     1 ≤ i ≤ nx c - 2 ∧ 1 ≤ j ≤ ny c - 2) →
  is_Some (apply_bc c o g).
Proof.
  intros Hnx Hny Hok Hring. apply apply_bc_complete_iff; try done.
  by apply ring_free_safe.
Qed.

(** An obstacle cell whose selected neighbour lies outside the grid makes
    [apply_bc] fault. *)
Lemma apply_bc_out_of_bounds o g i j :
  bc_order_ok c o → in_grid c i j = true → masked c g i j = true →
  in_grid c (obstacle_nb c (i, j)).1 (obstacle_nb c (i, j)).2 = false →
  apply_bc c o g = None.
Proof.
  intros Hok Hin Hmk Hout.
  destruct (apply_bc c o g) as [g'|] eqn:Hrun; [|done].
  destruct (apply_bc_stages o g g' Hok Hrun)
    as (? & ? & _ & _ & _ & _ & _ & _ & _ & _ & _ & Hsafe & _).
  by rewrite (Hsafe i j Hin Hmk) in Hout.
Qed.

(** ** Further properties of the kernels *)

(** *** Grids without interior cells *)



(** *** Grids with a single row or column *)

Lemma apply_bc_core_None outer dr ibc jbc inb jnb g :
  in_grid c inb jnb = false →
  apply_bc_core c outer dr ibc jbc inb jnb g = None.
Proof.
  intros Hout.
  destruct (apply_bc_core c outer dr ibc jbc inb jnb g) as [g'|] eqn:Hrun; [|done].
  apply apply_bc_core_Some in Hrun as [_ Hn]. by rewrite Hn in Hout.
Qed.

Lemma for_each_fault {A} (body : A → Grid F → option (Grid F)) (l : list A) g :
  l ≠ [] → (∀ x g1, x ∈ l → body x g1 = None) → for_each l body g = None.
Proof.
  destruct l as [|x l]; [done|]. intros _ Hnone. cbn [for_each].
  rewrite Hnone; [done|left].
Qed.

Lemma perm_nonempty {A} (l l' : list A) x : l ≡ₚ l' → x ∈ l' → l ≠ [].
Proof. intros Hp Hx ->. rewrite <- Hp in Hx. by apply not_elem_of_nil in Hx. Qed.

Lemma perm_empty {A} (l l' : list A) : l ≡ₚ l' → (∀ x, x ∉ l') → l = [].
Proof.
  intros Hp Hno. destruct l as [|x l]; [done|].
  exfalso. apply (Hno x). rewrite <- Hp. left.
Qed.

Lemma apply_bc_thin o g :
  1 ≤ nx c → 1 ≤ ny c → nx c = 1 ∨ ny c = 1 → bc_order_ok c o →
  apply_bc c o g = None.
Proof.
  intros Hnx Hny Hthin (Hlr & Htb & _). unfold apply_bc, par_for.
  destruct (decide (ny c = 1)) as [Hy|Hy].
  - assert (o_lr o = []) as ->.
    { apply (perm_empty _ _ Hlr). intros x Hx%elem_of_left_right_range. lia. }
    cbn [for_each]. rewrite bind_Some.
    rewrite for_each_fault; [done| |].
    + apply (perm_nonempty _ _ 0 Htb), elem_of_top_bottom_range. lia.
    + intros i g1 _. unfold bc_top_bottom.
      rewrite apply_bc_core_None; [done|]. apply in_grid_false. lia.
  - rewrite for_each_fault; [done| |].
    + apply (perm_nonempty _ _ 0 Hlr), elem_of_left_right_range. lia.
    + intros j g1 _. unfold bc_left_right.
      rewrite apply_bc_core_None; [done|]. apply in_grid_false. lia.
Qed.

(** X2.  On a grid with a single row or a single column every call to
    [apply_bc] accesses the fields out of bounds, whatever the state of
    the grid and the iteration order: the inward neighbour of the first
    edge cell processed lies outside the grid.  A time step therefore
    faults as well. *)
Theorem apply_bc_faults_on_thin_grid o g :
  1 ≤ nx c → 1 ≤ ny c → nx c = 1 ∨ ny c = 1 → step_order_ok c o →
  apply_bc c (o_bc o) g = None ∧ step c o g = None.
Proof.
  intros Hnx Hny Hthin Hok. split.
  - apply apply_bc_thin; try done. apply Hok.
  - destruct Hok as (Hc & Hm & Hb). unfold step.
    destruct (collide_and_stream_run (o_collide o) g Hc) as (g1 & -> & _).
    rewrite bind_Some.
    destruct (update_macro_var_run (o_macro o) g1 Hm) as (g2 & -> & _).
    rewrite bind_Some. by apply apply_bc_thin.
Qed.

(** *** Repeating a kernel *)

Lemma macro_same_f_new g g' i j :
  f_new g' = f_new g →
  macro_rho g' i j = macro_rho g i j ∧ ∀ d, macro_vel g' i j d = macro_vel g i j d.
Proof.
  intros Hn. unfold macro_vel, macro_mom, macro_rho. by rewrite Hn.
Qed.

(** X3.  [collide_and_stream] is idempotent: it reads [rho], [vel] and
    [f_old] and writes [f_new] only, so that a second call right after
    the first, in any iteration order, stores the same values again and
    returns the grid unchanged. *)
Theorem collide_and_stream_idempotent o1 o2 g g' :
  o1 ≡ₚ interior_cells c → o2 ≡ₚ interior_cells c →
  collide_and_stream c o1 g = Some g' →
  collide_and_stream c o2 g' = Some g'.
Proof.
  intros H1 H2 Hrun.
  destruct (collide_and_stream_run o1 g H1) as (g1 & E1 & Hsame & Hn1).
  rewrite Hrun in E1. injection E1 as <-.
  destruct (collide_and_stream_run o2 g' H2) as (g2 & -> & (Hr & Hv & Hm & Ho) & Hn2).
  f_equal. apply grid_ext; intros; try congruence.
  rewrite Hn2, (collide_val_same g g') by done. rewrite Hn1.
  assert (bool_decide ((i, j) ∈ o2) = bool_decide ((i, j) ∈ o1)) as ->
    by (apply bool_decide_ext; by rewrite H1, H2).
  by destruct (bool_decide ((i, j) ∈ o1) && (k <? 9)%nat).
Qed.

(** X4.  [update_macro_var] is idempotent: the density and velocity it
    stores are computed from [f_new], which it does not write, so that a
    second call right after the first, in any iteration order, returns
    the grid unchanged. *)
Theorem update_macro_var_idempotent o1 o2 g g' :
  o1 ≡ₚ interior_cells c → o2 ≡ₚ interior_cells c →
  update_macro_var c o1 g = Some g' →
  update_macro_var c o2 g' = Some g'.
Proof.
  intros H1 H2 Hrun.
  destruct (update_macro_var_run o1 g H1) as (g1 & E1 & Hn1 & Hm1 & Hr1 & Hv1 & Ho1).
  rewrite Hrun in E1. injection E1 as <-.
  destruct (update_macro_var_run o2 g' H2) as (g2 & -> & Hn2 & Hm2 & Hr2 & Hv2 & Ho2).
  assert (∀ i j, bool_decide ((i, j) ∈ o2) = bool_decide ((i, j) ∈ o1)) as Hmem
    by (intros; apply bool_decide_ext; by rewrite H1, H2).
  f_equal. apply grid_ext; intros; try congruence.
  - rewrite Hr2, Hmem, (proj1 (macro_same_f_new g g' i j Hn1)), Hr1.
    by destruct (bool_decide ((i, j) ∈ o1)).
  - rewrite Hv2, Hmem, (proj2 (macro_same_f_new g g' i j Hn1)), Hv1.
    by destruct (bool_decide ((i, j) ∈ o1) && (k <? 2)%nat).
  - rewrite Ho2, Hmem, Hn1, Ho1.
    by destruct (bool_decide ((i, j) ∈ o1) && (k <? 9)%nat).
Qed.

(** *** What [apply_bc] leaves alone *)

Lemma cell_kept_trans g1 g2 g3 i j :
  cell_kept g1 g2 i j → cell_kept g2 g3 i j → cell_kept g1 g3 i j.
Proof.
  intros (Hr & Hv & Ho) (Hr' & Hv' & Ho').
  split_and!; intros; congruence.
Qed.

Lemma cell_kept_sym g1 g2 i j : cell_kept g1 g2 i j → cell_kept g2 g1 i j.
Proof. intros (Hr & Hv & Ho). split_and!; intros; congruence. Qed.

(** The edge loops of a completed [apply_bc] on a grid with at least
    three rows and columns. *)
Lemma apply_bc_edges o g g' :
  3 ≤ nx c → 3 ≤ ny c → bc_order_ok c o → apply_bc c o g = Some g' →
  ∃ g1 g2,
    (∀ j, 0 ≤ j ≤ ny c - 2 →
       bc_applied c 1 0 g g1 0 j 1 j ∧
       bc_applied c 1 2 g g1 (nx c - 1) j (nx c - 2) j) ∧
    (∀ i j, ¬ ((i = 0 ∨ i = nx c - 1) ∧ 0 ≤ j ≤ ny c - 2) → cell_kept g g1 i j) ∧
    (∀ i, 0 ≤ i < nx c →
       bc_applied c 1 1 g1 g2 i (ny c - 1) i (ny c - 2) ∧
       bc_applied c 1 3 g1 g2 i 0 i 1) ∧
    (∀ i j, ¬ ((j = 0 ∨ j = ny c - 1) ∧ 0 ≤ i < nx c) → cell_kept g1 g2 i j) ∧
    (∀ i j d, vel g' i j d =
       if in_grid c i j && masked c g i j && (d <? 2)%nat
       then flit 0 else vel g2 i j d) ∧
    (∀ i j, in_grid c i j && masked c g i j = false → cell_kept g2 g' i j) ∧
    mask g' = mask g ∧ f_new g' = f_new g.
Proof.
  intros Hnx Hny Hok Hrun.
  destruct (apply_bc_stages o g g' Hok Hrun)
    as (g1 & g2 & E1 & E2 & _ & _ & _ & Hm & _ & _ & Hfn & _ & Hv & Hk).
  destruct Hok as (Hlr & Htb & _).
  destruct (left_right_loop (o_lr o) g Hnx Hlr) as (g1' & E1' & _ & _ & Hap1 & Hk1).
  rewrite E1 in E1'. injection E1' as <-.
  destruct (top_bottom_loop (o_tb o) g1 Hny Htb) as (g2' & E2' & _ & _ & Hap2 & Hk2).
  rewrite E2 in E2'. injection E2' as <-.
  exists g1, g2. by split_and!.
Qed.

Lemma apply_bc_interior_kept o g g' i j :
  bc_order_ok c o → apply_bc c o g = Some g' →
  1 ≤ i ≤ nx c - 2 → 1 ≤ j ≤ ny c - 2 → masked c g i j = false →
  cell_kept g g' i j.
Proof.
  intros Hok Hrun Hi Hj Hmk.
  destruct (apply_bc_edges o g g') as (g1' & g2' & _ & Hk1 & _ & Hk2 & _ & Hk3 & _);
    [lia|lia|done|done|].
  eapply cell_kept_trans; [apply Hk1; lia|].
  eapply cell_kept_trans; [apply Hk2; lia|].
  apply Hk3. by rewrite Hmk, andb_false_r.
Qed.

(** X5.  A completed [apply_bc] writes boundary cells only: [f_new] and
    [mask] are returned as they were, and every cell off the outermost
    ring that is not an obstacle cell keeps its density, velocity and
    [f_old]. *)
Theorem apply_bc_writes_boundary_only o g g' :
  bc_order_ok c o → apply_bc c o g = Some g' →
  f_new g' = f_new g ∧ mask g' = mask g ∧
  ∀ i j, 1 ≤ i ≤ nx c - 2 → 1 ≤ j ≤ ny c - 2 → masked c g i j = false →
    rho g' i j = rho g i j ∧
    (∀ d, vel g' i j d = vel g i j d) ∧
    (∀ k, f_old g' i j k = f_old g i j k).
Proof.
  intros Hok Hrun.
  destruct (apply_bc_stages o g g' Hok Hrun)
    as (g1 & g2 & _ & _ & _ & _ & _ & Hm & _ & _ & Hfn & _).
  split_and!; try done. intros i j Hi Hj Hmk.
  by apply (apply_bc_interior_kept o).
Qed.

(** X6.  A boundary type other than [0] and [1] is accepted without
    complaint.  On a grid with at least three rows and columns, a cell of
    an edge of such a type that is neither a corner nor an obstacle cell
    keeps the velocity it had, while its density is still overwritten
    with the density of its inward neighbour. *)
Theorem apply_bc_unknown_type o g g' dr ibc jbc inb jnb :
  3 ≤ nx c → 3 ≤ ny c → bc_order_ok c o → apply_bc c o g = Some g' →
  edge_cell c dr ibc jbc inb jnb → 1 ≤ ibc ≤ nx c - 2 ∨ 1 ≤ jbc ≤ ny c - 2 →
  masked c g ibc jbc = false →
  bc_type_at c dr ≠ 0 → bc_type_at c dr ≠ 1 →
  (∀ d, vel g' ibc jbc d = vel g ibc jbc d) ∧
  rho g' ibc jbc = rho g inb jnb.
Proof.
  intros Hnx Hny Hok Hrun Hedge Hside Hmk Ht0%Z.eqb_neq Ht1%Z.eqb_neq.
  destruct (apply_bc_edges o g g' Hnx Hny Hok Hrun)
    as (g1 & g2 & Hap1 & Hk1 & Hap2 & Hk2 & _ & Hk3 & _).
  assert (cell_kept g2 g' ibc jbc) as (Kr & Kv & _)
    by (apply Hk3; by rewrite Hmk, andb_false_r).
  assert (∀ b d, bc_vel_val c 1 dr b ibc jbc inb jnb d = vel b ibc jbc d) as Hval.
  { intros b d. unfold bc_vel_val. cbn [Z.eqb]. by rewrite Ht0, Ht1. }
  destruct Hedge as [j Hj|j Hj|i Hi|i Hi].
  - destruct (Hap1 j) as [(Av & Ar & _) _]; [lia|].
    destruct (Hk2 0 j) as (Br & Bv & _); [lia|].
    split.
    + intros d. rewrite Kv, Bv, Av, Hval. by destruct (d <? 2)%nat.
    + by rewrite Kr, Br, Ar.
  - destruct (Hap1 j) as [_ (Av & Ar & _)]; [lia|].
    destruct (Hk2 (nx c - 1) j) as (Br & Bv & _); [lia|].
    split.
    + intros d. rewrite Kv, Bv, Av, Hval. by destruct (d <? 2)%nat.
    + by rewrite Kr, Br, Ar.
  - destruct (Hap2 i Hi) as [(Av & Ar & _) _].
    destruct (Hk1 i (ny c - 1)) as (_ & Bv & _); [lia|].
    destruct (Hk1 i (ny c - 2)) as (Cr & _ & _); [lia|].
    split.
    + intros d. rewrite Kv, Av, Hval. rewrite Bv.
      by destruct (d <? 2)%nat.
    + by rewrite Kr, Ar, Cr.
  - destruct (Hap2 i Hi) as [_ (Av & Ar & _)].
    destruct (Hk1 i 0) as (_ & Bv & _); [lia|].
    destruct (Hk1 i 1) as (Cr & _ & _); [lia|].
    split.
    + intros d. rewrite Kv, Av, Hval. rewrite Bv.
      by destruct (d <? 2)%nat.
    + by rewrite Kr, Ar, Cr.
Qed.

(** *** The whole run *)

Lemma masked_init_mask g i j :
  mask g i j = init_mask c i j →
  masked c g i j = (cy c =? 1) && in_disc c i j.
Proof.
  intros Hm. unfold masked. rewrite Hm. unfold init_mask.
  destruct (cy c =? 1); [|done]. cbn [andb]. destruct (in_disc c i j).
  - apply feqb_one_one.
  - apply feqb_zero_one.
Qed.

Lemma obstacle_safe_mask g g' :
  mask g' = mask g → obstacle_safe c g → obstacle_safe c g'.
Proof.
  intros Hm Hsafe i j Hin Hmk. apply Hsafe; [done|].
  unfold masked in *. by rewrite <- Hm.
Qed.

Lemma disc_obstacle_safe g :
  (∀ i j, in_grid c i j = true → mask g i j = init_mask c i j) →
  disc_safe c ↔ obstacle_safe c g.
Proof.
  intros Hmask. split.
  - intros Hdisc i j Hin Hmk. apply Hdisc; [done|].
    by rewrite <- (masked_init_mask g) by auto.
  - intros Hsafe i j Hin Hd. apply Hsafe; [done|].
    by rewrite (masked_init_mask g) by auto.
Qed.

Lemma step_complete o g :
  2 ≤ nx c → 2 ≤ ny c → step_order_ok c o → obstacle_safe c g →
  ∃ g', step c o g = Some g' ∧ mask g' = mask g.
Proof.
  intros Hnx Hny (Hc & Hm & Hb) Hsafe. unfold step.
  destruct (collide_and_stream_run (o_collide o) g Hc)
    as (g1 & -> & (_ & _ & Hm1 & _) & _).
  rewrite bind_Some.
  destruct (update_macro_var_run (o_macro o) g1 Hm) as (g2 & -> & _ & Hm2 & _).
  rewrite bind_Some.
  destruct (apply_bc_complete (o_bc o) g2 Hnx Hny Hb) as (g3 & -> & Hm3 & _).
  { apply (obstacle_safe_mask g); [congruence|done]. }
  exists g3. split; [done|congruence].
Qed.

(** A completed step started from a grid whose obstacle cells select
    neighbours inside the grid. *)
Lemma step_Some_safe o g g' :
  step_order_ok c o → step c o g = Some g' → obstacle_safe c g.
Proof.
  intros (Hc & Hm & Hb). unfold step.
  destruct (collide_and_stream_run (o_collide o) g Hc)
    as (g1 & -> & (_ & _ & Hm1 & _) & _).
  rewrite bind_Some.
  destruct (update_macro_var_run (o_macro o) g1 Hm) as (g2 & -> & _ & Hm2 & _).
  rewrite bind_Some. intros Hrun.
  destruct (apply_bc_stages (o_bc o) g2 g' Hb Hrun)
    as (? & ? & _ & _ & _ & _ & _ & _ & _ & _ & _ & Hsafe & _).
  apply (obstacle_safe_mask g2); [congruence|done].
Qed.

Lemma run_complete os g :
  2 ≤ nx c → 2 ≤ ny c → Forall (step_order_ok c) os → obstacle_safe c g →
  ∃ g', run c os g = Some g' ∧ mask g' = mask g.
Proof.
  intros Hnx Hny Hall. revert g.
  induction Hall as [|o os Ho Hos IH]; intros g Hsafe.
  - by exists g.
  - cbn [run]. destruct (step_complete o g Hnx Hny Ho Hsafe) as (g1 & -> & Hm1).
    rewrite bind_Some. destruct (IH g1) as (g2 & -> & Hm2).
    + by apply (obstacle_safe_mask g).
    + exists g2. split; [done|congruence].
Qed.

Lemma solve_safe oi os g :
  2 ≤ nx c → 2 ≤ ny c → disc_safe c → oi ≡ₚ all_cells c →
  Forall (step_order_ok c) os →
  ∃ g', solve c oi os g = Some g'.
Proof.
  intros Hnx Hny Hdisc Hoi Hall. unfold solve.
  destruct (init_run oi g Hoi) as (g0 & -> & _ & _ & Hm0 & _).
  rewrite bind_Some.
  destruct (run_complete os g0 Hnx Hny Hall) as (g' & -> & _); [|by exists g'].
  apply disc_obstacle_safe; [|done]. intros i j Hin. by rewrite Hm0, Hin.
Qed.

(** X7.  On a grid with at least two rows and columns the whole run
    ([init] followed by any number of time steps, in any iteration
    orders, from any contents of the fields) never accesses a field out
    of bounds provided every cell of the obstacle disc has the neighbour
    selected for it inside the grid; the mask it ends with is the one
    [init] computed.  The condition is necessary as soon as one step is
    run. *)
Theorem solve_completes oi os g :
  2 ≤ nx c → 2 ≤ ny c → oi ≡ₚ all_cells c → Forall (step_order_ok c) os →
  (disc_safe c →
     ∃ g', solve c oi os g = Some g' ∧
       ∀ i j, in_grid c i j = true → mask g' i j = init_mask c i j) ∧
  (os ≠ [] → is_Some (solve c oi os g) → disc_safe c).
Proof.
  intros Hnx Hny Hoi Hall. unfold solve.
  destruct (init_run oi g Hoi) as (g0 & -> & _ & _ & Hm0 & _).
  rewrite bind_Some.
  assert (∀ i j, in_grid c i j = true → mask g0 i j = init_mask c i j) as Hmask.
  { intros i j Hin. by rewrite Hm0, Hin. }
  split.
  - intros Hdisc.
    destruct (run_complete os g0 Hnx Hny Hall) as (g' & -> & Hm').
    { by apply disc_obstacle_safe. }
    exists g'. split; [done|]. intros i j Hin. rewrite Hm'. by apply Hmask.
  - intros Hne [g' Hrun]. destruct Hall as [|o os Ho Hos]; [done|].
    cbn [run] in Hrun. destruct (step c o g0) as [g1|] eqn:Hstep; [|done].
    apply (disc_obstacle_safe g0 Hmask). by eapply step_Some_safe.
Qed.

(** *** Domain of dependence *)

Lemma accum_ext (t1 t2 : nat → F) ks :
  (∀ k, k ∈ ks → t1 k = t2 k) → accum t1 ks = accum t2 ks.
Proof.
  intros Heq. unfold accum. generalize (flit 0).
  induction ks as [|k ks IH]; intros a; [done|].
  cbn [fold_left]. rewrite Heq by left. apply IH.
  intros k' Hk'. apply Heq. by right.
Qed.

Lemma static_range_lt k n : k ∈ static_range n → (k <? n)%nat = true.
Proof. intros Hk. rewrite <- in_static_range. by apply bool_decide_eq_true_2. Qed.

Lemma collide_val_around g1 g2 i j k :
  agree_around g1 g2 i j → collide_val c g2 i j k = collide_val c g1 i j k.
Proof.
  intros Hag. pose proof (e_bounds k) as [He1 He2].
  destruct (Hag (- (e k).1) (- (e k).2)) as (Hr & Hv & Ho); [lia|lia|].
  replace (i + - (e k).1) with (i - (e k).1) in * by lia.
  replace (j + - (e k).2) with (j - (e k).2) in * by lia.
  unfold collide_val. cbn zeta. rewrite Hr, Ho. do 2 f_equal.
  apply f_eq_val_ext; apply Hv.
Qed.

(** The state of an interior cell that is not an obstacle cell after one
    time step, read off the grid the step starts from. *)
Lemma step_interior o g g' i j :
  step_order_ok c o → step c o g = Some g' →
  1 ≤ i ≤ nx c - 2 → 1 ≤ j ≤ ny c - 2 → masked c g i j = false →
  (∀ k, f_new g' i j k =
     if (k <? 9)%nat then collide_val c g i j k else f_new g i j k) ∧
  rho g' i j = accum (λ k, collide_val c g i j k) (static_range 9) ∧
  (∀ d, vel g' i j d =
     if (d <? 2)%nat
     then fdiv (accum (λ k, fmul (of_int (e_at k d)) (collide_val c g i j k))
                      (static_range 9))
               (accum (λ k, collide_val c g i j k) (static_range 9))
     else vel g i j d) ∧
  (∀ k, f_old g' i j k =
     if (k <? 9)%nat then collide_val c g i j k else f_old g i j k).
Proof.
  intros (Hc & Hm & Hb) Hrun Hi Hj Hmk. unfold step in Hrun.
  destruct (collide_and_stream_run (o_collide o) g Hc)
    as (g1 & E1 & (Hr1 & Hv1 & Hm1 & Ho1) & Hn1).
  rewrite E1, bind_Some in Hrun.
  destruct (update_macro_var_run (o_macro o) g1 Hm)
    as (g2 & E2 & Hn2 & Hm2 & Hr2 & Hv2 & Ho2).
  rewrite E2, bind_Some in Hrun.
  assert (masked c g2 i j = false) as Hmk2
    by (unfold masked in *; by rewrite Hm2, Hm1).
  destruct (apply_bc_interior_kept (o_bc o) g2 g' i j Hb Hrun Hi Hj Hmk2)
    as (Kr & Kv & Ko).
  destruct (apply_bc_stages (o_bc o) g2 g' Hb Hrun)
    as (? & ? & _ & _ & _ & _ & _ & _ & _ & _ & Hfn & _).
  assert (bool_decide ((i, j) ∈ o_collide o) = true) as Dc.
  { apply bool_decide_eq_true_2. rewrite Hc. by apply elem_of_interior_cells. }
  assert (bool_decide ((i, j) ∈ o_macro o) = true) as Dm.
  { apply bool_decide_eq_true_2. rewrite Hm. by apply elem_of_interior_cells. }
  assert (∀ k, f_new g1 i j k =
            if (k <? 9)%nat then collide_val c g i j k else f_new g i j k) as Hnew
    by (intros k; by rewrite Hn1, Dc).
  assert (macro_rho g1 i j = accum (λ k, collide_val c g i j k) (static_range 9))
    as Er.
  { unfold macro_rho. apply accum_ext. intros k Hk. rewrite Hnew.
    by rewrite (static_range_lt k 9 Hk). }
  assert (∀ d, macro_mom g1 i j d =
            accum (λ k, fmul (of_int (e_at k d)) (collide_val c g i j k))
                  (static_range 9)) as Em.
  { intros d. unfold macro_mom. apply accum_ext. intros k Hk. rewrite Hnew.
    by rewrite (static_range_lt k 9 Hk). }
  split_and!.
  - intros k. by rewrite Hfn, Hn2.
  - by rewrite Kr, Hr2, Dm.
  - intros d. rewrite Kv, Hv2, Dm. cbn [andb]. unfold macro_vel.
    by rewrite Er, Em, Hv1.
  - intros k. rewrite Ko, Ho2, Dm, Hnew, Ho1. cbn [andb].
    by destruct (k <? 9)%nat.
Qed.

(** X8.  Information travels at most one cell per time step: the density,
    velocity, [f_old] and [f_new] an interior cell that is not an obstacle
    cell holds after a step depend only on the density, velocity and
    [f_old] that the cell and its eight neighbours hold before it.  Two
    grids that agree there end the step with the same state at that
    cell, whatever they hold elsewhere and whatever the iteration
    orders. *)
Theorem step_domain_of_dependence o1 o2 g1 g2 g1' g2' i j :
  step_order_ok c o1 → step_order_ok c o2 →
  step c o1 g1 = Some g1' → step c o2 g2 = Some g2' →
  1 ≤ i ≤ nx c - 2 → 1 ≤ j ≤ ny c - 2 →
  masked c g1 i j = false → masked c g2 i j = false →
  agree_around g1 g2 i j →
  rho g2' i j = rho g1' i j ∧
  (∀ d, vel g2' i j d = vel g1' i j d) ∧
  (∀ k, f_old g2' i j k = f_old g1' i j k) ∧
  (∀ k, (k < 9)%nat → f_new g2' i j k = f_new g1' i j k).
Proof.
  intros Ho1 Ho2 E1 E2 Hi Hj Hm1 Hm2 Hag.
  destruct (step_interior o1 g1 g1' i j Ho1 E1 Hi Hj Hm1) as (An & Ar & Av & Ao).
  destruct (step_interior o2 g2 g2' i j Ho2 E2 Hi Hj Hm2) as (Bn & Br & Bv & Bo).
  assert (∀ k, collide_val c g2 i j k = collide_val c g1 i j k) as Hcv
    by (intros; by apply collide_val_around).
  destruct (Hag 0 0) as (_ & Hv0 & Ho0); [lia|lia|].
  rewrite !Z.add_0_r in Hv0, Ho0.
  assert (accum (λ k, collide_val c g2 i j k) (static_range 9) =
          accum (λ k, collide_val c g1 i j k) (static_range 9)) as Eacc
    by (apply accum_ext; intros; apply Hcv).
  split_and!.
  - by rewrite Ar, Br.
  - intros d. rewrite Av, Bv, Eacc, Hv0. apply if_bool_ext_val. f_equal.
    apply accum_ext. intros k _. by rewrite Hcv.
  - intros k. by rewrite Ao, Bo, Hcv, Ho0.
  - intros k Hk%Nat.ltb_lt. by rewrite An, Bn, Hk, Hcv.
Qed.

(** *** The obstacle loop without a race *)

(** Iterations that commute pairwise on the grids satisfying an
    invariant can run in any order. *)
Lemma for_each_perm_inv {A} `{EqDecision A} (P : Grid F → Prop)
    (body : A → Grid F → option (Grid F)) (l1 l2 : list A) :
  l1 ≡ₚ l2 →
  (∀ x g g', P g → body x g = Some g' → P g') →
  (∀ x y, x ∈ l1 → y ∈ l1 → x ≠ y →
     ∀ g, P g → for_each [x; y] body g = for_each [y; x] body g) →
  ∀ g, P g → for_each l1 body g = for_each l2 body g.
Proof.
  intros Hperm Hpres.
  induction Hperm as [|x l l' Hp IH|x y l|l l' l'' Hp1 IH1 Hp2 IH2]; intros Hsw g Hg.
  - done.
  - cbn [for_each]. destruct (body x g) as [g1|] eqn:Hb; [|done].
    rewrite !bind_Some. apply IH; [|by eapply Hpres].
    intros a b Ha Hb'. apply Hsw; by right.
  - change (y :: x :: l) with ([y; x] ++ l).
    change (x :: y :: l) with ([x; y] ++ l).
    rewrite !for_each_app. destruct (decide (x = y)) as [->|Hne]; [done|].
    rewrite (Hsw y x); [done| | |done|done].
    + left.
    + right. left.
  - rewrite IH1 by done. apply IH2; [|done].
    intros a b Ha Hb. apply Hsw; by rewrite Hp1.
Qed.

Lemma bc_obstacle_None g i j :
  masked c g i j = true →
  in_grid c (obstacle_nb c (i, j)).1 (obstacle_nb c (i, j)).2 = false →
  bc_obstacle c (i, j) g = None.
Proof.
  intros Hmk Hout.
  destruct (bc_obstacle c (i, j) g) as [g'|] eqn:Hrun; [|done].
  apply bc_obstacle_Some in Hrun as [_ Hnb]. by rewrite (Hnb Hmk) in Hout.
Qed.

Lemma bc_obstacle_kept g g' i j i' j' :
  bc_obstacle c (i, j) g = Some g' → (i', j') ≠ (i, j) → cell_kept g g' i' j'.
Proof.
  intros Hrun Hne. apply at_cell_false in Hne.
  assert (in_grid c i j = true) as Hin.
  { unfold bc_obstacle, rd in Hrun. cbn [fst snd] in Hrun.
    by destruct (in_grid c i j). }
  destruct (masked c g i j) eqn:Hmk.
  - pose proof (bc_obstacle_Some _ _ _ _ Hrun) as [_ Hnb].
    destruct (bc_obstacle_masked g i j Hin Hmk (Hnb Hmk))
      as (g2 & E & _ & _ & Hv & Hr & Ho).
    rewrite Hrun in E. injection E as <-.
    split_and!; intros; by rewrite ?Hv, ?Hr, ?Ho, Hne.
  - rewrite bc_obstacle_unmasked in Hrun by done. injection Hrun as <-.
    apply cell_kept_refl.
Qed.

Lemma for_each_pair {A} (body : A → Grid F → option (Grid F)) (x y : A) g :
  for_each [x; y] body g = body x g ≫= body y.
Proof.
  cbn [for_each]. destruct (body x g) as [g1|]; [|done].
  rewrite !bind_Some. by destruct (body y g1).
Qed.

(** Two iterations of the obstacle loop commute when neither of their
    cells is the neighbour selected for the other. *)
Lemma bc_obstacle_swap g i j i' j' :
  in_grid c i j = true → in_grid c i' j' = true → (i, j) ≠ (i', j') →
  obstacle_separated c g →
  for_each [(i, j); (i', j')] (bc_obstacle c) g =
  for_each [(i', j'); (i, j)] (bc_obstacle c) g.
Proof.
  intros Hin Hin' Hne Hsep. rewrite !for_each_pair.
  assert (∀ a b g1, bc_obstacle c (a, b) g = Some g1 →
            ∀ p q, masked c g1 p q = masked c g p q) as Hkeep.
  { intros a b g1 Hrun p q. apply bc_obstacle_Some in Hrun as [Hm _].
    unfold masked. by rewrite Hm. }
  destruct (masked c g i j) eqn:Hmk; [destruct (masked c g i' j') eqn:Hmk'|].
  - (* both cells are obstacle cells *)
    pose proof (Hsep i j Hin Hmk) as Hfree.
    pose proof (Hsep i' j' Hin' Hmk') as Hfree'.
    destruct (obstacle_nb c (i, j)) as [a b] eqn:Enb.
    destruct (obstacle_nb c (i', j')) as [a' b'] eqn:Enb'. cbn [fst snd] in *.
    assert (at_cell i j a' b' = false) as Hxn'.
    { apply at_cell_false. intros [= -> ->]. congruence. }
    assert (at_cell i' j' a b = false) as Hyn.
    { apply at_cell_false. intros [= -> ->]. congruence. }
    destruct (in_grid c a b) eqn:Hnb; [destruct (in_grid c a' b') eqn:Hnb'|].
    + destruct (bc_obstacle_masked g i j Hin Hmk) as (g1 & E1 & Hm1 & Hn1 & Hv1 & Hr1 & Ho1);
        [by rewrite Enb|]. rewrite Enb in Hr1, Ho1. cbn [fst snd] in Hr1, Ho1.
      destruct (bc_obstacle_masked g i' j' Hin' Hmk')
        as (g1' & E1' & Hm1' & Hn1' & Hv1' & Hr1' & Ho1');
        [by rewrite Enb'|]. rewrite Enb' in Hr1', Ho1'. cbn [fst snd] in Hr1', Ho1'.
      rewrite E1, E1', !bind_Some.
      destruct (bc_obstacle_masked g1 i' j' Hin')
        as (g2 & -> & Hm2 & Hn2 & Hv2 & Hr2 & Ho2);
        [by rewrite (Hkeep _ _ _ E1)|by rewrite Enb'|].
      rewrite Enb' in Hr2, Ho2. cbn [fst snd] in Hr2, Ho2.
      destruct (bc_obstacle_masked g1' i j Hin)
        as (g2' & -> & Hm2' & Hn2' & Hv2' & Hr2' & Ho2');
        [by rewrite (Hkeep _ _ _ E1')|by rewrite Enb|].
      rewrite Enb in Hr2', Ho2'. cbn [fst snd] in Hr2', Ho2'.
      f_equal.
      assert (∀ p q, at_cell i j p q = true → at_cell i' j' p q = false) as Hxy.
      { intros p q [-> ->]%at_cell_true. apply at_cell_false. congruence. }
      apply grid_ext; try congruence.
      * intros p q. rewrite Hr2, Hr2', !Hr1, !Hr1', Hxn', Hyn.
        destruct (at_cell i j p q) eqn:Hx; [by rewrite (Hxy _ _ Hx)|done].
      * intros p q d. rewrite Hv2, Hv2', !Hv1, !Hv1'.
        destruct (at_cell i j p q) eqn:Hx; [rewrite (Hxy _ _ Hx)|]; cbn [andb]; done.
      * intros p q k. rewrite Ho2, Ho2', Ho1, Ho1'.
        destruct (at_cell i j p q) eqn:Hx; [rewrite (Hxy _ _ Hx)|]; cbn [andb].
        -- apply if_bool_ext_val. symmetry. apply extrapolate_ext.
           ++ eapply bc_obstacle_kept; [done|]. intros [= -> ->]. congruence.
           ++ intros d. rewrite Hv2', Hv1', Hv1.
              apply at_cell_true in Hx as [-> ->].
              by rewrite at_cell_refl, (proj2 (at_cell_false i' j' i j)) by congruence.
        -- apply if_bool_ext_val. apply extrapolate_ext.
           ++ eapply bc_obstacle_kept; [done|]. intros [= -> ->]. congruence.
           ++ intros d. rewrite Hv2, Hv1', Hv1, at_cell_refl.
              by rewrite (proj2 (at_cell_false i j i' j')) by congruence.
    + rewrite (bc_obstacle_None g i' j') by (by rewrite ?Enb').
      destruct (bc_obstacle c (i, j) g) as [g1|] eqn:E1; [|done].
      rewrite bind_Some. rewrite bc_obstacle_None; [done| |by rewrite Enb'].
      by rewrite (Hkeep _ _ _ E1).
    + rewrite (bc_obstacle_None g i j) by (by rewrite ?Enb).
      destruct (bc_obstacle c (i', j') g) as [g1|] eqn:E1; [|done].
      rewrite bind_Some. rewrite bc_obstacle_None; [done| |by rewrite Enb].
      by rewrite (Hkeep _ _ _ E1).
  - (* the second cell is not an obstacle cell *)
    rewrite (bc_obstacle_unmasked g i' j') by done. rewrite bind_Some.
    destruct (bc_obstacle c (i, j) g) as [g1|] eqn:E1; [|done].
    rewrite !bind_Some. rewrite bc_obstacle_unmasked; [done|done|].
    by rewrite (Hkeep _ _ _ E1).
  - (* the first cell is not an obstacle cell *)
    rewrite (bc_obstacle_unmasked g i j) by done. rewrite bind_Some.
    destruct (bc_obstacle c (i', j') g) as [g1|] eqn:E1; [|done].
    rewrite !bind_Some. rewrite bc_obstacle_unmasked; [done|done|].
    by rewrite (Hkeep _ _ _ E1).
Qed.

Lemma obstacle_separated_mask g g' :
  mask g' = mask g → obstacle_separated c g → obstacle_separated c g'.
Proof.
  intros Hm Hsep i j Hin. unfold masked. rewrite !Hm. by apply Hsep.
Qed.

Lemma obstacle_loop_order o1 o2 g :
  o1 ≡ₚ all_cells c → o2 ≡ₚ all_cells c → obstacle_separated c g →
  par_for o1 (bc_obstacle c) g = par_for o2 (bc_obstacle c) g.
Proof.
  intros H1 H2 Hsep. unfold par_for.
  apply (for_each_perm_inv (λ g1, mask g1 = mask g)); [by rewrite H1, H2| | |done].
  - intros [i j] g1 g2 Hm Hrun. apply bc_obstacle_Some in Hrun as [Hm2 _]. congruence.
  - intros [i j] [i' j'] Hx Hy Hne g1 Hm.
    rewrite H1 in Hx, Hy. apply elem_of_all_cells, in_grid_true in Hx, Hy.
    apply bc_obstacle_swap; try done. by apply (obstacle_separated_mask g).
Qed.

Lemma apply_bc_order_separated o1 o2 g :
  bc_order_ok c o1 → bc_order_ok c o2 → obstacle_separated c g →
  apply_bc c o1 g = apply_bc c o2 g.
Proof.
  intros (L1 & T1 & O1) (L2 & T2 & O2) Hsep. unfold apply_bc.
  rewrite (left_right_order (o_lr o1) (o_lr o2)) by (by rewrite L1, L2).
  destruct (par_for (o_lr o2) (bc_left_right c) g) as [g1|] eqn:E1; [|done].
  rewrite !bind_Some.
  rewrite (top_bottom_order (o_tb o1) (o_tb o2)) by (by rewrite T1, T2).
  destruct (par_for (o_tb o2) (bc_top_bottom c) g1) as [g2|] eqn:E2; [|done].
  rewrite !bind_Some. apply obstacle_loop_order; try done.
  destruct (two_calls_frame left_call (right_call c) (o_lr o2) g g1) as [Hm1 _];
    [intros t; apply edge_calls_distinct|exact E1|].
  destruct (two_calls_frame (top_call c) bottom_call (o_tb o2) g1 g2) as [Hm2 _];
    [intros t; apply edge_calls_distinct|exact E2|].
  apply (obstacle_separated_mask g); [congruence|done].
Qed.

Lemma step_order_separated o1 o2 g :
  step_order_ok c o1 → step_order_ok c o2 → obstacle_separated c g →
  step c o1 g = step c o2 g ∧
  ∀ g', step c o2 g = Some g' → mask g' = mask g.
Proof.
  intros (C1 & M1 & B1) (C2 & M2 & B2) Hsep. unfold step.
  rewrite (collide_and_stream_order (o_collide o1) (o_collide o2)) by done.
  destruct (collide_and_stream_run (o_collide o2) g C2)
    as (g1 & -> & (_ & _ & Hm1 & _) & _).
  rewrite !bind_Some.
  rewrite (update_macro_var_order (o_macro o1) (o_macro o2)) by done.
  destruct (update_macro_var_run (o_macro o2) g1 M2) as (g2 & -> & _ & Hm2 & _).
  rewrite !bind_Some. split.
  - apply apply_bc_order_separated; try done.
    apply (obstacle_separated_mask g); [congruence|done].
  - intros g' Hrun.
    destruct (apply_bc_stages (o_bc o2) g2 g' B2 Hrun)
      as (? & ? & _ & _ & _ & _ & _ & Hm3 & _). congruence.
Qed.

(** X9.  The obstacle loop is free of races when no obstacle cell selects
    an obstacle cell as its neighbour: [apply_bc] then returns the same
    result for every iteration order of its three loops, and so does any
    number of time steps started from such a grid, whatever the iteration
    orders of the kernels in either run. *)
Theorem obstacle_loop_race_free (os1 os2 : list StepOrder) g :
  obstacle_separated c g →
  (∀ o1 o2, bc_order_ok c o1 → bc_order_ok c o2 →
     apply_bc c o1 g = apply_bc c o2 g) ∧
  (Forall2 (λ o1 o2, step_order_ok c o1 ∧ step_order_ok c o2) os1 os2 →
     run c os1 g = run c os2 g).
Proof.
  intros Hsep. split.
  - intros o1 o2 H1 H2. by apply apply_bc_order_separated.
  - intros Hall. revert g Hsep.
    induction Hall as [|o1 o2 os1 os2 (Ok1 & Ok2) Hrest IH]; intros g Hsep; [done|].
    cbn [run]. destruct (step_order_separated o1 o2 g Ok1 Ok2 Hsep) as [-> Hm].
    destruct (step c o2 g) as [g1|]; [|done]. rewrite !bind_Some.
    apply IH. apply (obstacle_separated_mask g); [by apply Hm|done].
Qed.

(** *** Applying the boundary conditions twice *)

Lemma bc_vel_val_unknown dr g ibc jbc inb jnb d :
  bc_type_at c dr ≠ 0 → bc_type_at c dr ≠ 1 →
  bc_vel_val c 1 dr g ibc jbc inb jnb d = vel g ibc jbc d.
Proof.
  intros H0%Z.eqb_neq H1%Z.eqb_neq. unfold bc_vel_val. by rewrite H0, H1.
Qed.

Lemma bc_vel_val_again dr g gb ibc jbc inb jnb d :
  (∀ d, vel gb inb jnb d = vel g inb jnb d) →
  (bc_type_at c dr ≠ 0 → bc_type_at c dr ≠ 1 →
     vel gb ibc jbc d = vel g ibc jbc d) →
  bc_vel_val c 1 dr gb ibc jbc inb jnb d = bc_vel_val c 1 dr g ibc jbc inb jnb d.
Proof.
  intros Hn Hu. unfold bc_vel_val.
  destruct (Z.eqb_spec (bc_type_at c dr) 0) as [|H0]; [done|].
  destruct (Z.eqb_spec (bc_type_at c dr) 1) as [|H1]; [by rewrite Hn|].
  cbn. by apply Hu.
Qed.

(** A boundary condition applied a second time, to a grid in which the
    neighbour is as it was and the boundary cell holds what the first
    application read of it, stores what the first application stored. *)
Lemma bc_applied_again dr g ga gb gc ibc jbc inb jnb :
  bc_applied c 1 dr g ga ibc jbc inb jnb →
  bc_applied c 1 dr gb gc ibc jbc inb jnb →
  cell_kept g gb inb jnb →
  (∀ d, (d <? 2)%nat = true → bc_type_at c dr ≠ 0 → bc_type_at c dr ≠ 1 →
     vel gb ibc jbc d = vel g ibc jbc d) →
  (∀ d, (d <? 2)%nat = false → vel gb ibc jbc d = vel g ibc jbc d) →
  (∀ k, (k <? 9)%nat = false → f_old gb ibc jbc k = f_old g ibc jbc k) →
  cell_kept ga gc ibc jbc.
Proof.
  intros (Av & Ar & Ao) (Bv & Br & Bo) (Nr & Nv & No) Hu Hd Hk.
  assert (∀ d, vel gc ibc jbc d = vel ga ibc jbc d) as Hv.
  { intros d. rewrite Av, Bv. destruct (d <? 2)%nat eqn:Ed; [|by apply Hd].
    apply bc_vel_val_again; [done|]. by apply Hu. }
  split_and!; [congruence|done|].
  intros k. rewrite Ao, Bo. destruct (k <? 9)%nat eqn:Ek; [|by apply Hk].
  apply extrapolate_ext; [by split_and!|done].
Qed.

(** The same when the boundary cell still holds what the first
    application stored. *)
Lemma bc_applied_stable dr g ga gb gc ibc jbc inb jnb :
  bc_applied c 1 dr g ga ibc jbc inb jnb →
  bc_applied c 1 dr gb gc ibc jbc inb jnb →
  cell_kept g gb inb jnb → cell_kept ga gb ibc jbc →
  cell_kept gb gc ibc jbc.
Proof.
  intros Ha Hb Hn Hc. pose proof Ha as (Av & Ar & Ao). destruct Hc as (Cr & Cv & Co).
  eapply cell_kept_trans; [apply cell_kept_sym; by split_and!|].
  apply (bc_applied_again dr g ga gb gc ibc jbc inb jnb); try done.
  - intros d Hd H0 H1. by rewrite Cv, Av, Hd, bc_vel_val_unknown.
  - intros d Hd. by rewrite Cv, Av, Hd.
  - intros k Hk. by rewrite Co, Ao, Hk.
Qed.

(** [apply_bc] with the obstacle disabled, on a grid with at least three
    rows and columns: the grids after the first and the second loop. *)
Lemma apply_bc_disabled o g :
  3 ≤ nx c → 3 ≤ ny c → cy c ≠ 1 → bc_order_ok c o →
  ∃ g1 g2, apply_bc c o g = Some g2 ∧
    mask g2 = mask g ∧ f_new g2 = f_new g ∧
    (∀ j, 0 ≤ j ≤ ny c - 2 →
       bc_applied c 1 0 g g1 0 j 1 j ∧
       bc_applied c 1 2 g g1 (nx c - 1) j (nx c - 2) j) ∧
    (∀ i j, ¬ ((i = 0 ∨ i = nx c - 1) ∧ 0 ≤ j ≤ ny c - 2) → cell_kept g g1 i j) ∧
    (∀ i, 0 ≤ i < nx c →
       bc_applied c 1 1 g1 g2 i (ny c - 1) i (ny c - 2) ∧
       bc_applied c 1 3 g1 g2 i 0 i 1) ∧
    (∀ i j, ¬ ((j = 0 ∨ j = ny c - 1) ∧ 0 ≤ i < nx c) → cell_kept g1 g2 i j).
Proof.
  intros Hnx Hny Hcy (Hlr & Htb & Hob). unfold apply_bc.
  destruct (left_right_loop (o_lr o) g Hnx Hlr) as (g1 & -> & Hm1 & Hn1 & Hap1 & Hk1).
  destruct (top_bottom_loop (o_tb o) g1 Hny Htb) as (g2 & E2 & Hm2 & Hn2 & Hap2 & Hk2).
  rewrite bind_Some, E2, bind_Some, obstacle_loop_disabled by done.
  exists g1, g2. split_and!; try done; congruence.
Qed.

(** X10.  With the obstacle disabled, on a grid with at least three rows
    and columns, [apply_bc] is idempotent: a second call right after the
    first, in any iteration order, returns the grid unchanged. *)
Theorem apply_bc_idempotent o1 o2 g g' :
  3 ≤ nx c → 3 ≤ ny c → cy c ≠ 1 → bc_order_ok c o1 → bc_order_ok c o2 →
  apply_bc c o1 g = Some g' → apply_bc c o2 g' = Some g'.
Proof.
  intros Hnx Hny Hcy Ok1 Ok2 Hrun.
  destruct (apply_bc_disabled o1 g Hnx Hny Hcy Ok1)
    as (g1 & g2 & E & _ & _ & A1 & K1 & A2 & K2).
  rewrite Hrun in E. injection E as <-.
  destruct (apply_bc_disabled o2 g' Hnx Hny Hcy Ok2)
    as (g3 & g4 & -> & Hm & Hn & B1 & J1 & B2 & J2).
  f_equal.
  (* the cells of the left and right edges off the top and bottom rows *)
  assert (∀ i j, (i = 0 ∨ i = nx c - 1) → 1 ≤ j ≤ ny c - 2 →
            cell_kept g' g3 i j) as Hside.
  { intros i j [-> | ->] Hj.
    - destruct (A1 j) as [Ha _]; [lia|]. destruct (B1 j) as [Hb _]; [lia|].
      apply (bc_applied_stable 0 g g1 g' g3 0 j 1 j Ha Hb).
      + eapply cell_kept_trans; [apply K1|apply K2]; lia.
      + apply K2. lia.
    - destruct (A1 j) as [_ Ha]; [lia|]. destruct (B1 j) as [_ Hb]; [lia|].
      apply (bc_applied_stable 2 g g1 g' g3 (nx c - 1) j (nx c - 2) j Ha Hb).
      + eapply cell_kept_trans; [apply K1|apply K2]; lia.
      + apply K2. lia. }
  (* the second row and the last but one: the neighbours of the top and
     bottom edges *)
  assert (∀ i j, 1 ≤ j ≤ ny c - 2 → cell_kept g1 g3 i j) as Hnear.
  { intros i j Hj. eapply cell_kept_trans; [apply K2; lia|].
    destruct (decide (i = 0 ∨ i = nx c - 1)) as [Hi|Hi].
    - by apply Hside.
    - apply J1. tauto. }
  (* the bottom row, corners apart, when the bottom type is unknown *)
  assert (∀ i d, 1 ≤ i ≤ nx c - 2 → bc_type_at c 3 ≠ 0 → bc_type_at c 3 ≠ 1 →
            vel g' i 0 d = vel g i 0 d) as Hrow0.
  { intros i d Hi H0 H1. destruct (A2 i) as [_ (Av & _)]; [lia|].
    destruct (K1 i 0) as (_ & Kv & _); [lia|].
    rewrite Av, bc_vel_val_unknown, Kv by done. by destruct (d <? 2)%nat. }
  assert (∀ i j, cell_kept g' g4 i j) as Hall.
  { intros i j.
    destruct (decide ((j = 0 ∨ j = ny c - 1) ∧ 0 ≤ i < nx c)) as [[Hj Hi]|Hoff].
    - destruct Hj as [-> | ->].
      + (* bottom row *)
        destruct (A2 i Hi) as [_ Ha]. destruct (B2 i Hi) as [_ Hb].
        pose proof Ha as (Av & Ar & Ao).
        apply (bc_applied_again 3 g1 g' g3 g4 i 0 i 1 Ha Hb).
        * apply Hnear. lia.
        * intros d Hd H0 H1.
          destruct (decide (i = 0 ∨ i = nx c - 1)) as [Hc|Hc].
          -- (* a corner: the left/right loop has written it again *)
             assert (vel g' i 0 d = vel g1 i 0 d) as Eg'
               by (by rewrite Av, Hd, bc_vel_val_unknown).
             destruct Hc as [-> | ->].
             ++ destruct (A1 0) as [(Lv & _) _]; [lia|].
                destruct (B1 0) as [(Mv & _) _]; [lia|].
                rewrite Mv, Lv, Hd. apply bc_vel_val_again.
                ** intros d'. by apply Hrow0; [lia|..].
                ** intros L0 L1. by rewrite Eg', Lv, Hd, bc_vel_val_unknown.
             ++ destruct (A1 0) as [_ (Lv & _)]; [lia|].
                destruct (B1 0) as [_ (Mv & _)]; [lia|].
                rewrite Mv, Lv, Hd. apply bc_vel_val_again.
                ** intros d'. by apply Hrow0; [lia|..].
                ** intros L0 L1. by rewrite Eg', Lv, Hd, bc_vel_val_unknown.
          -- destruct (J1 i 0) as (_ & Jv & _); [tauto|].
             by rewrite Jv, Av, Hd, bc_vel_val_unknown.
        * intros d Hd.
          assert (vel g3 i 0 d = vel g' i 0 d) as ->.
          { destruct (decide (i = 0 ∨ i = nx c - 1)) as [[-> | ->]|Hc].
            - destruct (B1 0) as [(Mv & _) _]; [lia|]. by rewrite Mv, Hd.
            - destruct (B1 0) as [_ (Mv & _)]; [lia|]. by rewrite Mv, Hd.
            - destruct (J1 i 0) as (_ & Jv & _); [tauto|]. done. }
          by rewrite Av, Hd.
        * intros k Hk.
          assert (f_old g3 i 0 k = f_old g' i 0 k) as ->.
          { destruct (decide (i = 0 ∨ i = nx c - 1)) as [[-> | ->]|Hc].
            - destruct (B1 0) as [(_ & _ & Mo) _]; [lia|]. by rewrite Mo, Hk.
            - destruct (B1 0) as [_ (_ & _ & Mo)]; [lia|]. by rewrite Mo, Hk.
            - destruct (J1 i 0) as (_ & _ & Jo); [tauto|]. done. }
          by rewrite Ao, Hk.
      + (* top row: the left/right loop does not reach it *)
        destruct (A2 i Hi) as [Ha _]. destruct (B2 i Hi) as [Hb _].
        eapply cell_kept_trans; [apply (J1 i (ny c - 1)); lia|].
        apply (bc_applied_stable 1 g1 g' g3 g4 i (ny c - 1) i (ny c - 2) Ha Hb).
        * apply Hnear. lia.
        * apply J1. lia.
    - eapply cell_kept_trans; [|by apply J2].
      destruct (decide ((i = 0 ∨ i = nx c - 1) ∧ 0 ≤ j ≤ ny c - 2)) as [[Hi Hj]|Hin].
      + apply Hside; [done|]. lia.
      + by apply J1. }
  apply grid_ext; intros; try congruence;
    destruct (Hall i j) as (Kr & Kv & Ko); by rewrite ?Kr, ?Kv, ?Ko.
Qed.

(** *** The display kernels *)

Lemma display_for_upd (val : Z → Z → F)
    (body : Z * Z → Field F → option (Field F)) (order : list (Z * Z)) dv :
  (∀ i j dv1, (i, j) ∈ order → body (i, j) dv1 = Some (upd dv1 i j (val i j))) →
  ∃ dv', display_for order body dv = Some dv' ∧
    ∀ i j, dv' i j = if bool_decide ((i, j) ∈ order) then val i j else dv i j.
Proof.
  revert dv. induction order as [|[a b] order IH]; intros dv Hbody.
  - exists dv. split; [done|]. intros i j. by rewrite in_nil_false.
  - cbn [display_for]. rewrite Hbody by left. rewrite bind_Some.
    destruct (IH (upd dv a b (val a b))) as (dv' & -> & Hdv').
    { intros i j dv1 Hin. apply Hbody. by right. }
    exists dv'. split; [done|]. intros i j. rewrite Hdv', upd_at.
    destruct (at_cell a b i j) eqn:Hc.
    + apply at_cell_true in Hc as [-> ->].
      rewrite (bool_decide_eq_true_2 ((a, b) ∈ (a, b) :: order)) by left.
      by destruct (bool_decide ((a, b) ∈ order)).
    + apply at_cell_false in Hc. apply if_bool_ext, bool_decide_ext.
      rewrite elem_of_cons. intuition.
Qed.

Lemma set_display_in dv i j v :
  in_grid c i j = true → set_display c dv i j v = Some (upd dv i j v).
Proof. unfold set_display. by intros ->. Qed.

(** X11.  [get_display_var] never accesses a field out of bounds,
    whatever the shape of the grid and the iteration order, and leaves in
    [display_var], at every cell of the grid, the square root of
    [vel.x ** 2 + vel.y ** 2] of that cell; what [display_var] held before
    does not matter. *)
Theorem get_display_var_magnitude (fsqrt : F → F) order g dv :
  order ≡ₚ all_cells c →
  ∃ dv', get_display_var fsqrt c order g dv = Some dv' ∧
    ∀ i j, dv' i j =
      if in_grid c i j
      then fsqrt (fadd (fsq (vel g i j 0%nat)) (fsq (vel g i j 1%nat)))
      else dv i j.
Proof.
  intros Hperm. unfold get_display_var.
  destruct (display_for_upd
              (λ i j, fsqrt (fadd (fsq (vel g i j 0%nat)) (fsq (vel g i j 1%nat))))
              (display_cell fsqrt c g) order dv) as (dv' & -> & Hdv').
  - intros i j dv1 Hin. rewrite Hperm in Hin.
    apply elem_of_all_cells, in_grid_true in Hin.
    unfold display_cell. cbn [fst snd]. run. by apply set_display_in.
  - exists dv'. split; [done|]. intros i j.
    by rewrite Hdv', (in_order_all_cells order).
Qed.

Lemma get_display_var_x_run order g dv :
  order ≡ₚ all_cells c →
  ∃ dv', get_display_var_x c order g dv = Some dv' ∧
    ∀ i j, dv' i j = if in_grid c i j then vel g i j 0%nat else dv i j.
Proof.
  intros Hperm. unfold get_display_var_x.
  destruct (display_for_upd (λ i j, vel g i j 0%nat)
              (display_x_cell c g) order dv) as (dv' & -> & Hdv').
  - intros i j dv1 Hin. rewrite Hperm in Hin.
    apply elem_of_all_cells, in_grid_true in Hin.
    unfold display_x_cell. cbn [fst snd]. run. by apply set_display_in.
  - exists dv'. split; [done|]. intros i j.
    by rewrite Hdv', (in_order_all_cells order).
Qed.

Lemma lookup_range (lo hi i : Z) :
  lo ≤ i < hi → range lo hi !! Z.to_nat (i - lo) = Some i.
Proof.
  intros Hi. unfold range. rewrite lookup_seqZ_lt by lia. f_equal. lia.
Qed.

(** X12.  [pass_to_py] never accesses a field out of bounds and returns
    an array of [nx] rows of [ny] entries whose entry [(i, j)] is the x
    component of the velocity of cell [(i, j)], whatever [display_var]
    held before (the velocity magnitudes that [solve] leaves there are
    overwritten) and whatever the iteration order. *)
Theorem pass_to_py_x_velocity order g dv :
  order ≡ₚ all_cells c →
  ∃ a, pass_to_py c order g dv = Some a ∧
    length a = Z.to_nat (nx c) ∧
    (∀ row, row ∈ a → length row = Z.to_nat (ny c)) ∧
    ∀ i j, 0 ≤ i < nx c → 0 ≤ j < ny c →
      a !! Z.to_nat i ≫= (λ row, row !! Z.to_nat j) = Some (vel g i j 0%nat).
Proof.
  intros Hperm. unfold pass_to_py.
  destruct (get_display_var_x_run order g dv Hperm) as (dv' & -> & Hdv').
  rewrite bind_Some. eexists. split; [done|]. unfold to_numpy. split_and!.
  - rewrite length_fmap. unfold range. rewrite length_seqZ. lia.
  - intros row (i & -> & _)%list_elem_of_fmap.
    rewrite length_fmap. unfold range. rewrite length_seqZ. lia.
  - intros i j Hi Hj. rewrite list_lookup_fmap.
    replace (Z.to_nat i) with (Z.to_nat (i - 0)) by (f_equal; lia).
    rewrite lookup_range by lia. cbn [fmap option_fmap option_map mbind option_bind].
    rewrite list_lookup_fmap.
    replace (Z.to_nat j) with (Z.to_nat (j - 0)) by (f_equal; lia).
    rewrite lookup_range by lia. cbn [fmap option_fmap option_map].
    f_equal. rewrite Hdv'. by rewrite (proj2 (in_grid_true i j)).
Qed.

(** *** The obstacle switch *)

(** X16.  The obstacle is enabled by [cy == 1] and by nothing else: for
    every other value of [cy], non-zero ones included, [init] leaves the
    mask [0] in every cell of the grid, and the obstacle loop of
    [apply_bc] returns the grid unchanged whatever the mask holds. *)
Theorem obstacle_disabled_unless_cy_is_1 oi oo g g0 :
  cy c ≠ 1 → oi ≡ₚ all_cells c → oo ≡ₚ all_cells c →
  (∃ g', init c oi g0 = Some g' ∧
     ∀ i j, in_grid c i j = true → mask g' i j = flit 0) ∧
  par_for oo (bc_obstacle c) g = Some g.
Proof.
  intros Hcy Hoi Hoo. split.
  - destruct (init_run oi g0 Hoi) as (g' & -> & _ & _ & Hm & _).
    exists g'. split; [done|]. intros i j Hin. rewrite Hm, Hin.
    unfold init_mask. by apply Z.eqb_neq in Hcy as ->.
  - by apply obstacle_loop_disabled.
Qed.

(** *** Row [0] of the left/right loop *)

(** The left/right loop run over any set of rows of the grid. *)
Lemma left_right_rows rows g :
  3 ≤ nx c → NoDup rows → (∀ t, t ∈ rows → 0 ≤ t < ny c) →
  ∃ g', par_for rows (bc_left_right c) g = Some g' ∧
    mask g' = mask g ∧ f_new g' = f_new g ∧
    (∀ j, j ∈ rows →
       bc_applied c 1 0 g g' 0 j 1 j ∧
       bc_applied c 1 2 g g' (nx c - 1) j (nx c - 2) j) ∧
    (∀ i j, ¬ ((i = 0 ∨ i = nx c - 1) ∧ j ∈ rows) → cell_kept g g' i j).
Proof.
  intros Hnx Hnd Hrows.
  destruct (two_calls_loop left_call (right_call c) rows g)
    as (g' & Hrun & Hm & Hfn & Happ & Hkept).
  - done.
  - intros t q Ht%Hrows [-> | ->]; cbn [left_call right_call call_cell call_nb fst snd];
      rewrite !in_grid_true; lia.
  - intros t t' [= ->]. done.
  - intros t t' [= ->]. done.
  - intros t t' _ [= H1 _]. lia.
  - intros t t' q q' _ _ [-> | ->] [-> | ->] [= H1 _]; lia.
  - exists g'. split; [exact Hrun|]. split_and!; try done.
    + intros j Hj. split.
      * apply (Happ j (left_call j)); auto.
      * apply (Happ j (right_call c j)); auto.
    + intros i j Hij. apply Hkept. intros t Ht.
      cbn [left_call right_call call_cell]. split; intros [= -> ->]; tauto.
Qed.

(** X18.  On a grid with at least three rows and columns whose bottom
    edge has type [0] or [1], the iteration of the left/right loop at row
    [0] has no effect on the result of [apply_bc]: whatever it writes to
    the corners [(0, 0)] and [(nx - 1, 0)] is overwritten by the bottom
    edge, and neither the top nor the bottom edge reads row [0].
    [apply_bc] returns the same grid as it would with the left/right loop
    run over the interior rows [1 .. ny - 2] only. *)
Theorem left_right_row_0_is_overwritten o o' g :
  3 ≤ nx c → 3 ≤ ny c → bc_order_ok c o →
  o_lr o' ≡ₚ range 1 (ny c - 1) → o_tb o' = o_tb o → o_ob o' = o_ob o →
  bc_type_at c 3 = 0 ∨ bc_type_at c 3 = 1 →
  apply_bc c o' g = apply_bc c o g.
Proof.
  intros Hnx Hny (Hlr & Htb & _) Hlr' Etb Eob Htype. unfold apply_bc.
  rewrite Etb, Eob.
  destruct (left_right_rows (o_lr o) g Hnx) as (g1 & -> & Hm1 & Hn1 & A1 & K1).
  { eapply NoDup_Permutation_range; [done|apply NoDup_ndrange2_flat]. }
  { intros t Ht. rewrite Hlr in Ht. apply elem_of_left_right_range in Ht. lia. }
  destruct (left_right_rows (o_lr o') g Hnx) as (g1' & -> & Hm1' & Hn1' & A1' & K1').
  { eapply NoDup_Permutation_range; [done|apply NoDup_range]. }
  { intros t Ht. rewrite Hlr' in Ht. apply elem_of_range in Ht. lia. }
  rewrite !bind_Some.
  destruct (top_bottom_loop (o_tb o) g1 Hny Htb) as (g2 & -> & Hm2 & Hn2 & A2 & K2).
  destruct (top_bottom_loop (o_tb o) g1' Hny Htb)
    as (g2' & -> & Hm2' & Hn2' & A2' & K2').
  rewrite !bind_Some. f_equal.
  assert (∀ j, j ∈ o_lr o ↔ 0 ≤ j ≤ ny c - 2) as Hin
    by (intros j; by rewrite Hlr, elem_of_left_right_range).
  assert (∀ j, j ∈ o_lr o' ↔ 1 ≤ j ≤ ny c - 2) as Hin'
    by (intros j; rewrite Hlr', elem_of_range; lia).
  (* after the first loop the two grids differ at the two corners only *)
  assert (∀ i j, ¬ ((i = 0 ∨ i = nx c - 1) ∧ j = 0) → cell_kept g1 g1' i j) as Hsame.
  { intros i j Hj.
    destruct (decide ((i = 0 ∨ i = nx c - 1) ∧ 1 ≤ j ≤ ny c - 2)) as [[Hi Hr]|Hoff].
    - destruct (A1 j) as [Ha Hb]; [apply Hin; lia|].
      destruct (A1' j) as [Ha' Hb']; [by apply Hin'|].
      destruct Hi as [-> | ->]; by eapply bc_applied_unique.
    - eapply cell_kept_trans; [apply cell_kept_sym, K1|apply K1'].
      + rewrite Hin. intros [Hi Hr]. destruct (decide (j = 0)); [tauto|].
        apply Hoff. split; [done|lia].
      + rewrite Hin'. tauto. }
  assert (∀ i d, (d <? 2)%nat = false → vel g1' i 0 d = vel g1 i 0 d) as Hhigh.
  { intros i d Hd.
    assert (vel g1' i 0 d = vel g i 0 d) as ->.
    { destruct (K1' i 0) as (_ & Kv & _); [rewrite Hin'; lia|done]. }
    destruct (decide (i = 0 ∨ i = nx c - 1)) as [Hi|Hi].
    - destruct (A1 0) as [(Av & _) (Bv & _)]; [apply Hin; lia|].
      destruct Hi as [-> | ->]; by rewrite ?Av, ?Bv, Hd.
    - destruct (K1 i 0) as (_ & Kv & _); [tauto|done]. }
  assert (∀ i k, (k <? 9)%nat = false → f_old g1' i 0 k = f_old g1 i 0 k) as Hhigh'.
  { intros i k Hk.
    assert (f_old g1' i 0 k = f_old g i 0 k) as ->.
    { destruct (K1' i 0) as (_ & _ & Ko); [rewrite Hin'; lia|done]. }
    destruct (decide (i = 0 ∨ i = nx c - 1)) as [Hi|Hi].
    - destruct (A1 0) as [(_ & _ & Ao) (_ & _ & Bo)]; [apply Hin; lia|].
      destruct Hi as [-> | ->]; by rewrite ?Ao, ?Bo, Hk.
    - destruct (K1 i 0) as (_ & _ & Ko); [tauto|done]. }
  assert (∀ i j, cell_kept g2 g2' i j) as Hall.
  { intros i j.
    destruct (decide ((j = 0 ∨ j = ny c - 1) ∧ 0 ≤ i < nx c)) as [[Hj Hi]|Hoff].
    - destruct (A2 i Hi) as [Ht Hb]. destruct (A2' i Hi) as [Ht' Hb'].
      destruct Hj as [-> | ->].
      + apply (bc_applied_again 3 g1 g2 g1' g2' i 0 i 1 Hb Hb').
        * apply Hsame. lia.
        * intros d _ H0 H1. destruct Htype; contradiction.
        * apply Hhigh.
        * apply Hhigh'.
      + destruct (Hsame i (ny c - 1)) as (Sr & Sv & So); [lia|].
        apply (bc_applied_again 1 g1 g2 g1' g2' i (ny c - 1) i (ny c - 2) Ht Ht');
          [apply Hsame; lia|auto..].
    - eapply cell_kept_trans; [apply cell_kept_sym, K2; tauto|].
      eapply cell_kept_trans; [|apply K2'; tauto].
      apply Hsame. intros [Hi ->]. apply Hoff. lia. }
  apply grid_ext; intros; try congruence;
    destruct (Hall i j) as (Kr & Kv & Ko); by rewrite ?Kr, ?Kv, ?Ko.
Qed.

(** *** What the time loop never updates *)

Lemma step_f_new_ring o g g' i j k :
  step_order_ok c o → step c o g = Some g' →
  ¬ (1 ≤ i ≤ nx c - 2 ∧ 1 ≤ j ≤ ny c - 2) →
  f_new g' i j k = f_new g i j k.
Proof.
  intros (Hc & Hm & Hb) Hrun Hring. unfold step in Hrun.
  destruct (collide_and_stream_run (o_collide o) g Hc) as (g1 & E1 & _ & Hn1).
  rewrite E1, bind_Some in Hrun.
  destruct (update_macro_var_run (o_macro o) g1 Hm) as (g2 & E2 & Hn2 & _).
  rewrite E2, bind_Some in Hrun.
  destruct (apply_bc_stages (o_bc o) g2 g' Hb Hrun)
    as (? & ? & _ & _ & _ & _ & _ & _ & _ & _ & Hn3 & _).
  rewrite Hn3, Hn2, Hn1.
  rewrite bool_decide_eq_false_2; [done|].
  by rewrite Hc, elem_of_interior_cells.
Qed.

Lemma run_f_new_ring os g g' i j k :
  Forall (step_order_ok c) os → run c os g = Some g' →
  ¬ (1 ≤ i ≤ nx c - 2 ∧ 1 ≤ j ≤ ny c - 2) →
  f_new g' i j k = f_new g i j k.
Proof.
  intros Hall. revert g. induction Hall as [|o os Ho Hos IH]; intros g Hrun Hring.
  - by injection Hrun as <-.
  - cbn [run] in Hrun. destruct (step c o g) as [g1|] eqn:Hstep; [|done].
    rewrite bind_Some in Hrun. rewrite (IH g1 Hrun Hring).
    by eapply step_f_new_ring.
Qed.

(** X19.  The time loop never updates [f_new] on the outermost ring:
    [collide_and_stream] writes it at interior cells only and no other
    kernel of the loop writes it at all.  After [solve], whatever the
    number of steps and the iteration orders, [f_new] of every cell of
    the ring still holds the equilibrium of density [1] at rest that
    [init] stored there. *)
Theorem ring_f_new_is_never_updated oi os g0 g' :
  oi ≡ₚ all_cells c → Forall (step_order_ok c) os →
  solve c oi os g0 = Some g' →
  ∀ i j k, in_grid c i j = true → ¬ (1 ≤ i ≤ nx c - 2 ∧ 1 ≤ j ≤ ny c - 2) →
    (k < 9)%nat → f_new g' i j k = f_eq_val (flit 1) at_rest k.
Proof.
  intros Hoi Hall. unfold solve.
  destruct (init_run oi g0 Hoi) as (g & -> & _ & _ & _ & Hn & _).
  rewrite bind_Some. intros Hrun i j k Hin Hring Hk%Nat.ltb_lt.
  rewrite (run_f_new_ring os g g' i j k Hall Hrun Hring).
  by rewrite Hn, Hin, Hk.
Qed.

(** *** The density at the boundary *)

(** X20.  After [apply_bc] the density has no gradient across the
    boundary: on a grid with at least three rows and columns, every
    boundary cell, corners included, holds the density of its inward
    neighbour (the one of the last edge loop that processes it), provided
    neither of the two is an obstacle cell. *)
Theorem apply_bc_density_zero_gradient o g g' dr ibc jbc inb jnb :
  3 ≤ nx c → 3 ≤ ny c → bc_order_ok c o → apply_bc c o g = Some g' →
  edge_cell c dr ibc jbc inb jnb →
  masked c g ibc jbc = false → masked c g inb jnb = false →
  rho g' ibc jbc = rho g' inb jnb.
Proof.
  intros Hnx Hny Hok Hrun Hedge Hmb Hmn.
  destruct (apply_bc_edges o g g' Hnx Hny Hok Hrun)
    as (g1 & g2 & A1 & K1 & A2 & K2 & _ & K3 & _).
  destruct (K3 ibc jbc) as (-> & _); [by rewrite Hmb, andb_false_r|].
  destruct (K3 inb jnb) as (-> & _); [by rewrite Hmn, andb_false_r|].
  destruct Hedge as [j Hj|j Hj|i Hi|i Hi].
  - destruct (A1 j) as [(_ & Ar & _) _]; [lia|].
    destruct (K2 0 j) as (-> & _); [lia|]. destruct (K2 1 j) as (-> & _); [lia|].
    destruct (K1 1 j) as (-> & _); [lia|]. done.
  - destruct (A1 j) as [_ (_ & Ar & _)]; [lia|].
    destruct (K2 (nx c - 1) j) as (-> & _); [lia|].
    destruct (K2 (nx c - 2) j) as (-> & _); [lia|].
    destruct (K1 (nx c - 2) j) as (-> & _); [lia|]. done.
  - destruct (A2 i Hi) as [(_ & Ar & _) _].
    destruct (K2 i (ny c - 2)) as (-> & _); [lia|]. done.
  - destruct (A2 i Hi) as [_ (_ & Ar & _)].
    destruct (K2 i 1) as (-> & _); [lia|]. done.
Qed.

End Facts.

(** ** A run of the embedding *)

(** One step of the 10 x 10 cavity in source order: the relaxation time is
    [1], the density stays [1] in every cell, and the left edge, corners
    apart, moves with the inflow velocity while its interior neighbours
    are still at rest. *)
Example cavity10_one_step :
  tau cavity10 = 1%Q ∧
  ((λ g, (forallb (λ ij, Qeq_bool (rho g ij.1 ij.2) 1) (all_cells cavity10),
          (λ j, (vel g 0 j 0%nat, vel g 1 j 0%nat)) <$> seqZ 0 10))
     <$> solve_serial cavity10 blank)
  = Some (true,
          [(0%Q, 0%Q); ((1 # 10)%Q, 0%Q); ((1 # 10)%Q, 0%Q); ((1 # 10)%Q, 0%Q);
           ((1 # 10)%Q, 0%Q); ((1 # 10)%Q, 0%Q); ((1 # 10)%Q, 0%Q);
           ((1 # 10)%Q, 0%Q); ((1 # 10)%Q, 0%Q); (0%Q, 0%Q)]).
Proof. split; vm_compute; reflexivity. Qed.

(** ** The lattice constants in exact arithmetic *)


Lemma fold_left_Q_sum (term : nat → Q) (ks : list nat) (a : Q) :
  (fold_left (λ acc k, fadd acc (term k)) ks a
   == a + fold_right Qplus 0 (term <$> ks))%Q.
Proof.
  revert a. induction ks as [|k ks IH]; intros a.
  - cbn. ring.
  - cbn [fold_left fmap list_fmap fold_right]. rewrite IH.
    cbn [fadd Q_scalar]. rewrite Qred_correct. ring.
Qed.

Lemma accum_Q_sum (term : nat → Q) (ks : list nat) :
  (accum term ks == fold_right Qplus 0 (term <$> ks))%Q.
Proof. unfold accum. rewrite fold_left_Q_sum. cbn [flit Q_scalar]. ring. Qed.


(** ** The iteration space of the left/right loop *)

(** C4.  The loop [for j in ti.ndrange(1, self.ny - 1)] of [apply_bc] runs
    over [j = 0 .. ny - 2], not over the interior rows [1 .. ny - 2], while
    the top/bottom loop runs over every [i = 0 .. nx - 1].  In the shipped
    configuration the left/right loop visits row [0] and stops before row
    [ny - 1], so that the corners [(0, 0)] and [(nx - 1, 0)] are processed
    by the left/right loop and again by the top/bottom loop.  On a 3 x 2
    grid, where no row is interior, the left condition is applied all the
    same at [(0, 0)]: the zero-gradient top edge then copies the inflow
    velocity into [(0, 1)]. *)
Theorem left_right_loop_visits_row_0 :
  (∀ (c : Config Q) (j : Z), j ∈ left_right_range c ↔ 0 ≤ j ≤ ny c - 2) ∧
  (∀ (c : Config Q) (i : Z), i ∈ top_bottom_range c ↔ 0 ≤ i < nx c) ∧
  left_right_range karman = seqZ 0 100 ∧
  0 ∈ left_right_range karman ∧
  ¬ (ny karman - 1 ∈ left_right_range karman) ∧
  top_bottom_range karman = seqZ 0 401 ∧
  call_cell (left_call 0) = (0, 0) ∧
  call_cell (bottom_call 0) = (0, 0) ∧
  call_cell (right_call karman 0) = (400, 0) ∧
  call_cell (bottom_call 400) = (400, 0) ∧
  left_right_range strip = [0] ∧
  ((λ g, vel g 0 1 0%nat) <$> apply_bc strip (bc_serial strip) (fresh strip))
    = Some (1 # 10)%Q.
Proof.
  split_and!; try (vm_compute; reflexivity).
  - intros c j. apply elem_of_left_right_range.
  - intros c i. apply elem_of_top_bottom_range.
  - rewrite elem_of_left_right_range. cbn. lia.
  - rewrite elem_of_left_right_range. cbn. lia.
Qed.

(** ** Boundary velocities at the corners *)

Lemma fmap_Some_is_Some {A B} (f : A → B) (m : option A) (y : B) :
  f <$> m = Some y → is_Some m.
Proof. destruct m; [by eexists|done]. Qed.

Lemma apply_bc_channel3_corner :
  ((λ g, vel g 0 2 0%nat) <$>
     apply_bc channel3 (bc_serial channel3) (fresh channel3))
  = Some 0%Q.
Proof. vm_compute. reflexivity. Qed.

(** C5, as worded, fails on the 3 x 3 channel: the left edge is Dirichlet
    with velocity [(0.1, 0)], and the corner [(0, 2)], which lies on that
    edge, ends up with the velocity [(0, 0)] of the top edge. *)
Lemma dirichlet_fails_at_corner :
  is_Some (apply_bc channel3 (bc_serial channel3) (fresh channel3)) ∧
  ∀ g', apply_bc channel3 (bc_serial channel3) (fresh channel3) = Some g' →
    ¬ dirichlet_on_every_edge_cell channel3 g'.
Proof.
  split.
  - eapply fmap_Some_is_Some, apply_bc_channel3_corner.
  - intros g' Hrun Hall.
    pose proof apply_bc_channel3_corner as Hc. rewrite Hrun in Hc.
    injection Hc as Hc.
    destruct (Hall 0%nat 0 2) as [Hv _].
    + unfold on_edge. cbn. lia.
    + reflexivity.
    + rewrite Hc in Hv. discriminate Hv.
Qed.

(** ** Accesses outside the grid *)

(** The second half of C9, as worded, fails on a grid of a single cell: no
    cell is masked, and the top/bottom loop reads row [-1]. *)
Lemma apply_bc_faults_on_one_cell :
  ring_free one_cell (fresh one_cell) ∧
  apply_bc one_cell (bc_serial one_cell) (fresh one_cell) = None.
Proof.
  split.
  - intros i j _ Hmk. unfold masked in Hmk. cbn in Hmk. discriminate Hmk.
  - vm_compute. reflexivity.
Qed.

(** C9, as amended.  There is a configuration with the obstacle enabled and
    a masked cell in the last column, on the high side of the centre, for
    which the selected neighbour has column index [nx] and [apply_bc]
    accesses the grid out of bounds; in general [apply_bc] faults whenever
    an obstacle cell selects a neighbour outside the grid.  On a grid with
    at least two rows and columns on which no masked cell touches the
    outermost ring, [apply_bc] completes: every access it makes stays
    within the grid, whatever the iteration order of its loops. *)
Theorem apply_bc_bounds :
  (∃ (c : Config Q) (g : Grid Q) (j : Z),
     cy c = 1 ∧ in_grid c (nx c - 1) j = true ∧
     feqb (mask g (nx c - 1) j) (flit 1) = true ∧
     fleb (cy_para_at c 0) (of_int (nx c - 1)) = true ∧
     (obstacle_nb c (nx c - 1, j)).1 = nx c ∧
     apply_bc c (bc_serial c) g = None) ∧
  (∀ F (S : Scalar F) (c : Config F) (o : BcOrder) (g : Grid F) (i j : Z),
     bc_order_ok c o → in_grid c i j = true → masked c g i j = true →
     in_grid c (obstacle_nb c (i, j)).1 (obstacle_nb c (i, j)).2 = false →
     apply_bc c o g = None) ∧
  (∀ F (S : Scalar F) (c : Config F) (o : BcOrder) (g : Grid F),
     2 ≤ nx c → 2 ≤ ny c → bc_order_ok c o → ring_free c g →
     is_Some (apply_bc c o g)).
Proof.
  split_and!.
  - exists edge_obstacle, (fresh edge_obstacle), 2.
    split_and!; vm_compute; reflexivity.
  - intros F S c o g i j. apply apply_bc_out_of_bounds.
  - intros F S c o g. apply apply_bc_in_bounds.
Qed.

(** ** Replay *)

Lemma step_serial_ok `{Scalar F} (c : Config F) : step_order_ok c (step_serial c).
Proof. unfold step_order_ok, bc_order_ok. cbn. by split_and!. Qed.

Lemma second_half_first_perm {A} (l : list A) : second_half_first l ≡ₚ l.
Proof.
  unfold second_half_first.
  rewrite (comm (++)). by rewrite take_drop.
Qed.

Lemma step_second_first_ok `{Scalar F} (c : Config F) :
  step_order_ok c (step_second_first c).
Proof.
  unfold step_order_ok, bc_order_ok. cbn. split_and!; try done.
  apply second_half_first_perm.
Qed.

Lemma lid_obstacle_serial :
  ((λ g, rho g 3 3) <$>
     solve lid_obstacle (all_cells lid_obstacle)
           (replicate 3 (step_serial lid_obstacle)) blank)
  = Some (21541 # 21600)%Q.
Proof. vm_compute. reflexivity. Qed.

Lemma lid_obstacle_second_first :
  ((λ g, rho g 3 3) <$>
     solve lid_obstacle (all_cells lid_obstacle)
           (replicate 3 (step_second_first lid_obstacle)) blank)
  = Some (86339 # 86400)%Q.
Proof. vm_compute. reflexivity. Qed.

(** C10, as worded, fails on the lid-driven cavity with an obstacle: two
    runs of three time steps from the same freshly allocated grid, which
    differ only in the order in which the iterations of the obstacle loop
    take effect (in source order in one run, the second half of the loop
    before the first in the other), end with different densities at cell
    [(3, 3)]. *)
Lemma replay_depends_on_obstacle_order :
  Forall (step_order_ok lid_obstacle) (replicate 3 (step_serial lid_obstacle)) ∧
  Forall (step_order_ok lid_obstacle) (replicate 3 (step_second_first lid_obstacle)) ∧
  ∃ q1 q2 : Q,
    ((λ g, rho g 3 3) <$>
       solve lid_obstacle (all_cells lid_obstacle)
             (replicate 3 (step_serial lid_obstacle)) blank) = Some q1 ∧
    ((λ g, rho g 3 3) <$>
       solve lid_obstacle (all_cells lid_obstacle)
             (replicate 3 (step_second_first lid_obstacle)) blank) = Some q2 ∧
    ¬ Qeq q1 q2.
Proof.
  split_and!.
  - repeat constructor; apply step_serial_ok.
  - repeat constructor; apply step_second_first_ok.
  - exists (21541 # 21600)%Q, (86339 # 86400)%Q. split_and!.
    + exact lid_obstacle_serial.
    + exact lid_obstacle_second_first.
    + intros Heq. discriminate Heq.
Qed.

(** ** The general results at concrete inputs *)

Lemma bc_serial_ok `{Scalar F} (c : Config F) : bc_order_ok c (bc_serial c).
Proof. unfold bc_order_ok. cbn. by split_and!. Qed.

Lemma no_obstacle_safe `{Scalar F} (c : Config F) (g : Grid F) :
  cy c ≠ 1 → obstacle_safe c g.
Proof.
  intros Hcy i j _ Hmk. unfold masked in Hmk.
  apply Z.eqb_neq in Hcy. by rewrite Hcy in Hmk.
Qed.



Lemma bc_extrapolation_witness :
  in_grid channel3 0 1 = true ∧ in_grid channel3 1 1 = true ∧ (0, 1) ≠ (1, 1) ∧
  ∃ g', apply_bc_core channel3 1 0 0 1 1 1 (fresh channel3) = Some g' ∧
    rho g' 0 1 = rho (fresh channel3) 1 1.
Proof.
  split_and!; [reflexivity|reflexivity|discriminate|].
  destruct (proj1 (bc_extrapolation channel3 (fresh channel3)) 0%nat 0 1 1 1)
    as (g' & Hrun & _ & _ & Hr & _); [reflexivity|reflexivity|discriminate|].
  exists g'. split; [exact Hrun|exact Hr].
Defined.

Lemma apply_bc_edge_velocity_witness :
  3 ≤ nx channel3 ∧ 3 ≤ ny channel3 ∧ bc_order_ok channel3 (bc_serial channel3) ∧
  obstacle_safe channel3 (fresh channel3) ∧
  ∃ g', apply_bc channel3 (bc_serial channel3) (fresh channel3) = Some g' ∧
    vel g' 0 1 0%nat = (1 # 10)%Q ∧ vel g' 0 1 1%nat = 0%Q.
Proof.
  assert (obstacle_safe channel3 (fresh channel3)) as Hsafe
    by (apply no_obstacle_safe; discriminate).
  split_and!; [cbn; lia|cbn; lia|apply bc_serial_ok|exact Hsafe|].
  destruct (apply_bc_edge_velocity channel3 (bc_serial channel3) (fresh channel3))
    as (g' & Hrun & Hedge); [cbn; lia|cbn; lia|apply bc_serial_ok|exact Hsafe|].
  exists g'. split; [exact Hrun|].
  destruct (Hedge 0%nat 0 1 1 1) as [HD _].
  - apply (edge_left channel3 1). cbn. lia.
  - reflexivity.
  - apply HD. reflexivity.
Defined.

Lemma apply_bc_obstacle_witness :
  bc_order_ok lid_obstacle (bc_serial lid_obstacle) ∧ cy lid_obstacle = 1 ∧
  in_grid lid_obstacle 3 3 = true ∧
  feqb (mask (fresh lid_obstacle) 3 3) (flit 1) = true ∧
  ∀ g', apply_bc lid_obstacle (bc_serial lid_obstacle) (fresh lid_obstacle) = Some g' →
    vel g' 3 3 0%nat = 0%Q ∧ vel g' 3 3 1%nat = 0%Q.
Proof.
  split_and!; [apply bc_serial_ok|reflexivity|reflexivity|vm_compute; reflexivity|].
  intros g' Hrun.
  destruct (apply_bc_obstacle lid_obstacle (bc_serial lid_obstacle) (fresh lid_obstacle))
    as (_ & Hzero & _); [apply bc_serial_ok|reflexivity|].
  apply (Hzero g' Hrun 3 3); [reflexivity|vm_compute; reflexivity].
Defined.

Lemma init_state_witness :
  all_cells lid_obstacle ≡ₚ all_cells lid_obstacle ∧
  ∃ g', init lid_obstacle (all_cells lid_obstacle) blank = Some g' ∧
    rho g' 3 3 = 1%Q ∧ feqb (mask g' 3 3) (flit 1) = true.
Proof.
  split; [reflexivity|].
  destruct (init_state lid_obstacle (all_cells lid_obstacle) blank)
    as (g' & Hrun & Hcells & _); [reflexivity|].
  exists g'. split; [exact Hrun|].
  destruct (Hcells 3 3) as (Hr & _ & _ & _ & _ & Hm); [cbn; lia|cbn; lia|].
  split; [exact Hr|]. rewrite Hm. vm_compute. reflexivity.
Defined.


Lemma ring_free_b_true `{Scalar F} (c : Config F) (g : Grid F) :
  ring_free_b c g = true → ring_free c g.
Proof.
  unfold ring_free_b. rewrite forallb_forall. intros Hall i j Hin Hmk.
  specialize (Hall (i, j)). cbn [fst snd] in Hall. rewrite Hmk in Hall.
  cbn [implb] in Hall. rewrite !andb_true_iff in Hall.
  assert (In (i, j) (all_cells c)) as Hc.
  { apply list_elem_of_In, elem_of_all_cells. by apply in_grid_true. }
  specialize (Hall Hc). lia.
Qed.

Lemma lid_obstacle_ring_free : ring_free lid_obstacle (fresh lid_obstacle).
Proof. apply ring_free_b_true. vm_compute. reflexivity. Qed.

Lemma apply_bc_bounds_witness :
  2 ≤ nx lid_obstacle ∧ 2 ≤ ny lid_obstacle ∧
  bc_order_ok lid_obstacle (bc_serial lid_obstacle) ∧
  ring_free lid_obstacle (fresh lid_obstacle) ∧
  is_Some (apply_bc lid_obstacle (bc_serial lid_obstacle) (fresh lid_obstacle)).
Proof.
  split_and!; [cbn; lia|cbn; lia|apply bc_serial_ok|apply lid_obstacle_ring_free|].
  destruct apply_bc_bounds as (_ & _ & Hin).
  apply Hin; [cbn; lia|cbn; lia|apply bc_serial_ok|apply lid_obstacle_ring_free].
Defined.

Lemma step_reversed_ok `{Scalar F} (c : Config F) : step_order_ok c (step_reversed c).
Proof.
  unfold step_order_ok, bc_order_ok. cbn.
  split_and!; try done; symmetry; apply Permutation_rev.
Qed.

Lemma replay_deterministic_witness :
  Forall2 (λ o1 o2, step_order_ok lid_obstacle o1 ∧ step_order_ok lid_obstacle o2 ∧
                    (cy lid_obstacle ≠ 1 ∨ o_ob (o_bc o1) = o_ob (o_bc o2)))
          (replicate 2 (step_serial lid_obstacle))
          (replicate 2 (step_reversed lid_obstacle)) ∧
  run lid_obstacle (take 2 (replicate 2 (step_serial lid_obstacle)))
      (fresh lid_obstacle)
  = run lid_obstacle (take 2 (replicate 2 (step_reversed lid_obstacle)))
      (fresh lid_obstacle).
Proof.
  assert (Forall2 (λ o1 o2, step_order_ok lid_obstacle o1 ∧
                            step_order_ok lid_obstacle o2 ∧
                            (cy lid_obstacle ≠ 1 ∨ o_ob (o_bc o1) = o_ob (o_bc o2)))
            (replicate 2 (step_serial lid_obstacle))
            (replicate 2 (step_reversed lid_obstacle))) as Hall.
  { repeat constructor; first [apply step_serial_ok | apply step_reversed_ok]. }
  split; [exact Hall|].
  destruct (replay_deterministic lid_obstacle _ _ (fresh lid_obstacle) Hall)
    as (Hrun & _).
  apply (Hrun 2%nat).
Defined.

(** ** Conservation in exact arithmetic *)

Lemma accum_sum9 (term : nat → Q) : (accum term (static_range 9) == sum9 term)%Q.
Proof. apply accum_Q_sum. Qed.

Lemma sum9_ext (t1 t2 : nat → Q) :
  (∀ k, (k < 9)%nat → (t1 k == t2 k)%Q) → (sum9 t1 == sum9 t2)%Q.
Proof.
  intros Heq. unfold sum9, static_range. cbn [seq fmap list_fmap fold_right].
  rewrite !Heq by lia. reflexivity.
Qed.

(** The moments of the equilibrium distribution. *)
Lemma f_eq_val_moments (r : Q) (u : Vec Q) :
  (sum9 (λ k, f_eq_val r u k) == r)%Q ∧
  (∀ d, (d < 2)%nat →
     (sum9 (λ k, inject_Z (e_at k d) * f_eq_val r u k) == r * u d)%Q).
Proof.
  split.
  - unfold sum9, static_range. cbn [seq fmap list_fmap fold_right].
    unfold f_eq_val, of_int, w.
    cbn [e e_arr w_arr nth fst snd fadd fsub fmul fsq flit Q_scalar].
    rewrite !Qred_correct. unfold inject_Z. ring.
  - intros d Hd. unfold sum9, static_range. cbn [seq fmap list_fmap fold_right].
    unfold f_eq_val, of_int, w.
    destruct d as [|[|d]]; [| |lia];
      cbn [e_at e e_arr w_arr nth fst snd fadd fsub fmul fsq flit Q_scalar];
      rewrite !Qred_correct; unfold inject_Z; ring.
Qed.

(** X13.  In exact arithmetic the equilibrium distribution carries the
    density and the momentum it is built from, for every density and
    velocity: its nine values sum to [rho] and their first moments to
    [rho * u].  Hence the density and the velocity that [update_macro_var]
    recovers from a cell holding an equilibrium distribution are that
    density and, when it is not zero, that velocity. *)
Theorem equilibrium_moments (r : Q) (u : Vec Q) :
  (accum (λ k, f_eq_val r u k) (static_range 9) == r)%Q ∧
  (accum (λ k, fmul (of_int (e k).1) (f_eq_val r u k)) (static_range 9)
     == r * u 0%nat)%Q ∧
  (accum (λ k, fmul (of_int (e k).2) (f_eq_val r u k)) (static_range 9)
     == r * u 1%nat)%Q ∧
  (∀ (g : Grid Q) (i j : Z),
     (∀ k, (k < 9)%nat → f_new g i j k = f_eq_val r u k) →
     (macro_rho g i j == r)%Q ∧
     (¬ (r == 0)%Q →
        (macro_vel g i j 0 == u 0%nat)%Q ∧ (macro_vel g i j 1 == u 1%nat)%Q)).
Proof.
  destruct (f_eq_val_moments r u) as [Hm0 Hm1].
  assert (∀ d, (d < 2)%nat →
    (accum (λ k, fmul (of_int (e_at k d)) (f_eq_val r u k)) (static_range 9)
       == r * u d)%Q) as Hmom.
  { intros d Hd. rewrite accum_sum9, <- (Hm1 d Hd). apply sum9_ext.
    intros k _. unfold of_int. cbn [fmul flit Q_scalar]. apply Qred_correct. }
  split_and!.
  - by rewrite accum_sum9.
  - apply (Hmom 0%nat). lia.
  - apply (Hmom 1%nat). lia.
  - intros g i j Hg.
    assert (macro_rho g i j = accum (λ k, f_eq_val r u k) (static_range 9)) as Er.
    { unfold macro_rho. apply accum_ext. intros k Hk. apply Hg.
      apply Nat.ltb_lt. by apply static_range_lt. }
    assert (∀ d, macro_mom g i j d =
      accum (λ k, fmul (of_int (e_at k d)) (f_eq_val r u k)) (static_range 9)) as Em.
    { intros d. unfold macro_mom. apply accum_ext. intros k Hk. rewrite Hg; [done|].
      apply Nat.ltb_lt. by apply static_range_lt. }
    split.
    + by rewrite Er, accum_sum9.
    + intros Hr. unfold macro_vel. rewrite Er, !Em. cbn [fdiv Q_scalar].
      rewrite !Qred_correct, (accum_sum9 (λ k, f_eq_val r u k)), Hm0.
      rewrite !Hmom by lia. split; field; done.
Qed.

(** The value [collide_and_stream] stores, in exact arithmetic. *)
Lemma collide_val_Q (c : Config Q) (g : Grid Q) (i j : Z) (k : nat) :
  (collide_val c g i j k ==
     (1 - inv_tau c) * f_old g (i - (e k).1)%Z (j - (e k).2)%Z k +
     f_eq_val (rho g (i - (e k).1)%Z (j - (e k).2)%Z)
              (vel g (i - (e k).1)%Z (j - (e k).2)%Z) k * inv_tau c)%Q.
Proof.
  unfold collide_val. cbn [fadd fsub fmul flit Q_scalar].
  by rewrite !Qred_correct.
Qed.

Lemma sum9_relax (a : Q) (fo fe : nat → Q) :
  (sum9 (λ k, (1 - a) * fo k + fe k * a) == (1 - a) * sum9 fo + sum9 fe * a)%Q.
Proof.
  unfold sum9, static_range. cbn [seq fmap list_fmap fold_right]. ring.
Qed.

Lemma sum9_relax_mom (a : Q) (ed fo fe : nat → Q) :
  (sum9 (λ k, ed k * ((1 - a) * fo k + fe k * a))
   == (1 - a) * sum9 (λ k, ed k * fo k) + sum9 (λ k, ed k * fe k) * a)%Q.
Proof.
  unfold sum9, static_range. cbn [seq fmap list_fmap fold_right]. ring.
Qed.

(** X14.  In exact arithmetic [collide_and_stream] conserves mass and
    momentum cell by cell.  Take a cell whose eight neighbours are all
    interior and whose density is the sum of its [f_old] (as
    [update_macro_var] leaves it): the nine values that the kernel sends out
    of that cell, [f_new[i + e_k.x, j + e_k.y][k]], sum to its density; and
    if its velocity times its density is the first moment of its [f_old],
    their first moment is that momentum again. *)
Theorem collide_and_stream_conserves (c : Config Q) order (g : Grid Q) (i j : Z) :
  order ≡ₚ interior_cells c →
  2 ≤ i ≤ nx c - 3 → 2 ≤ j ≤ ny c - 3 →
  (rho g i j == accum (λ k, f_old g i j k) (static_range 9))%Q →
  ∃ g', collide_and_stream c order g = Some g' ∧
    (accum (λ k, f_new g' (i + (e k).1)%Z (j + (e k).2)%Z k) (static_range 9)
       == rho g i j)%Q ∧
    ∀ d, (d < 2)%nat →
      (rho g i j * vel g i j d
         == accum (λ k, fmul (of_int (e_at k d)) (f_old g i j k)) (static_range 9))%Q →
      (accum (λ k, fmul (of_int (e_at k d))
                        (f_new g' (i + (e k).1)%Z (j + (e k).2)%Z k)) (static_range 9)
         == rho g i j * vel g i j d)%Q.
Proof.
  intros Hperm Hi Hj Hrho.
  destruct (collide_and_stream_run c order g Hperm) as (g' & Hrun & _ & Hn).
  exists g'. split; [done|].
  assert (∀ k, (k < 9)%nat →
    (f_new g' (i + (e k).1)%Z (j + (e k).2)%Z k ==
       (1 - inv_tau c) * f_old g i j k +
       f_eq_val (rho g i j) (vel g i j) k * inv_tau c)%Q) as Hout.
  { intros k Hk. pose proof (e_bounds k) as [He1 He2]. rewrite Hn.
    rewrite bool_decide_eq_true_2
      by (rewrite Hperm; apply elem_of_interior_cells; lia).
    apply Nat.ltb_lt in Hk as ->. cbn [andb]. rewrite collide_val_Q.
    by rewrite !Z.add_simpl_r. }
  destruct (f_eq_val_moments (rho g i j) (vel g i j)) as [Hm0 Hm1].
  rewrite accum_sum9 in Hrho. split.
  - rewrite accum_sum9, (sum9_ext _ _ Hout), sum9_relax, Hm0, <- Hrho. ring.
  - intros d Hd Hmom. rewrite accum_sum9 in Hmom. rewrite accum_sum9.
    rewrite (sum9_ext _ (λ k, inject_Z (e_at k d) *
               ((1 - inv_tau c) * f_old g i j k +
                f_eq_val (rho g i j) (vel g i j) k * inv_tau c))%Q).
    + rewrite sum9_relax_mom, (Hm1 d Hd).
      rewrite (sum9_ext (λ k, inject_Z (e_at k d) * f_old g i j k)%Q
                        (λ k, fmul (of_int (e_at k d)) (f_old g i j k))).
      * rewrite <- Hmom. ring.
      * intros k _. unfold of_int. cbn [fmul flit Q_scalar].
        by rewrite Qred_correct.
    + intros k Hk. unfold of_int. cbn [fmul flit Q_scalar].
      by rewrite Qred_correct, (Hout k Hk).
Qed.

Lemma sum9_extrapolate (fb fn fo : nat → Q) :
  (sum9 (λ k, fb k - fn k + fo k) == sum9 fb - sum9 fn + sum9 fo)%Q.
Proof.
  unfold sum9, static_range. cbn [seq fmap list_fmap fold_right]. ring.
Qed.

Lemma sum9_extrapolate_mom (ed fb fn fo : nat → Q) :
  (sum9 (λ k, ed k * (fb k - fn k + fo k))
   == sum9 (λ k, ed k * fb k) - sum9 (λ k, ed k * fn k) + sum9 (λ k, ed k * fo k))%Q.
Proof.
  unfold sum9, static_range. cbn [seq fmap list_fmap fold_right]. ring.
Qed.

(** X21.  In exact arithmetic the non-equilibrium extrapolation leaves a
    boundary cell whose stored density and velocity are the moments of its
    distributions, as [collide_and_stream] takes them to be.  If the
    density of the neighbour is the sum of its [f_old], the nine values
    [apply_bc_core] stores in [f_old] of the boundary cell sum to the
    density it stores there; if moreover the neighbour's density times its
    velocity is the first moment of its [f_old], their first moment is the
    boundary cell's density times the velocity it has been given. *)
Theorem extrapolation_keeps_moments (c : Config Q) (outer : Z) (dr : nat)
    (g : Grid Q) (ibc jbc inb jnb : Z) :
  in_grid c ibc jbc = true → in_grid c inb jnb = true →
  (ibc, jbc) ≠ (inb, jnb) →
  Qeq (rho g inb jnb) (accum (λ k, f_old g inb jnb k) (static_range 9)) →
  ∃ g', apply_bc_core c outer dr ibc jbc inb jnb g = Some g' ∧
    Qeq (accum (λ k, f_old g' ibc jbc k) (static_range 9)) (rho g' ibc jbc) ∧
    ∀ d, (d < 2)%nat →
      Qeq (rho g inb jnb * vel g inb jnb d)
          (accum (λ k, fmul (of_int (e_at k d)) (f_old g inb jnb k)) (static_range 9)) →
      Qeq (accum (λ k, fmul (of_int (e_at k d)) (f_old g' ibc jbc k)) (static_range 9))
          (rho g' ibc jbc * vel g' ibc jbc d).
Proof.
  intros Hb Hn Hne Hrho.
  destruct (apply_bc_core_spec c outer dr ibc jbc inb jnb g Hb Hn Hne)
    as (g' & Hrun & _ & _ & _ & Hr & Ho).
  exists g'. split; [done|].
  assert (rho g' ibc jbc = rho g inb jnb) as Er by (by rewrite Hr, at_cell_refl).
  assert (∀ k, (k < 9)%nat →
    (f_old g' ibc jbc k ==
       f_eq_val (rho g inb jnb) (vel g' ibc jbc) k
       - f_eq_val (rho g inb jnb) (vel g inb jnb) k + f_old g inb jnb k)%Q) as Hold.
  { intros k Hk%Nat.ltb_lt. rewrite Ho, at_cell_refl, Hk. cbn [andb].
    unfold extrapolate. cbn [fadd fsub Q_scalar]. by rewrite !Qred_correct. }
  destruct (f_eq_val_moments (rho g inb jnb) (vel g' ibc jbc)) as [Bm0 Bm1].
  destruct (f_eq_val_moments (rho g inb jnb) (vel g inb jnb)) as [Nm0 Nm1].
  rewrite accum_sum9 in Hrho. split.
  - rewrite accum_sum9, (sum9_ext _ _ Hold), sum9_extrapolate, Bm0, Nm0, Er, <- Hrho.
    ring.
  - intros d Hd Hmom. rewrite accum_sum9 in Hmom. rewrite accum_sum9, Er.
    rewrite (sum9_ext _ (λ k, inject_Z (e_at k d) *
               (f_eq_val (rho g inb jnb) (vel g' ibc jbc) k
                - f_eq_val (rho g inb jnb) (vel g inb jnb) k + f_old g inb jnb k))%Q).
    + rewrite sum9_extrapolate_mom, (Bm1 d Hd), (Nm1 d Hd).
      rewrite (sum9_ext (λ k, inject_Z (e_at k d) * f_old g inb jnb k)%Q
                        (λ k, fmul (of_int (e_at k d)) (f_old g inb jnb k))).
      * rewrite <- Hmom. ring.
      * intros k _. unfold of_int. cbn [fmul flit Q_scalar].
        by rewrite Qred_correct.
    + intros k Hk. unfold of_int. cbn [fmul flit Q_scalar].
      by rewrite Qred_correct, (Hold k Hk).
Qed.

(** ** A fluid at rest, in exact arithmetic *)

Lemma relax_fixed (a x : Q) :
  fadd (fmul (fsub (flit 1) a) (Qred x)) (fmul (Qred x) a) = Qred x.
Proof.
  cbn [fadd fsub fmul flit Q_scalar]. apply Qred_complete.
  rewrite !Qred_correct. ring.
Qed.

Lemma extrapolate_fixed (x : Q) :
  fadd (fsub (Qred x) (Qred x)) (Qred x) = Qred x.
Proof.
  cbn [fadd fsub Q_scalar]. apply Qred_complete.
  rewrite !Qred_correct. ring.
Qed.

Lemma f_eq_val_reduced (r : Q) (u : Vec Q) (k : nat) :
  ∃ x, f_eq_val r u k = Qred x.
Proof. unfold f_eq_val. cbn [fmul Q_scalar]. by eexists. Qed.

Lemma rest_macro :
  accum (λ k, f_eq_val (flit 1) at_rest k) (static_range 9) = 1%Q ∧
  ∀ d, (d < 2)%nat →
    fdiv (accum (λ k, fmul (of_int (e_at k d)) (f_eq_val (flit 1) at_rest k))
                (static_range 9))
         (accum (λ k, f_eq_val (flit 1) at_rest k) (static_range 9)) = 0%Q.
Proof.
  split; [vm_compute; reflexivity|].
  intros d Hd. destruct d as [|[|d]]; [vm_compute; reflexivity..|lia].
Qed.

Section Rest.
Variable c : Config Q.
Hypothesis Hnx : 2 ≤ nx c.
Hypothesis Hny : 2 ≤ ny c.
Hypothesis Hwalls : walls_at_rest c.

Variable G : Grid Q.
Hypothesis Hrest : rest_state c G.

Implicit Types (i j ibc jbc inb jnb : Z) (k d dr : nat).

Lemma rest_f_eq i j k :
  in_grid c i j = true →
  f_eq_val (rho G i j) (vel G i j) k = f_eq_val (flit 1) at_rest k.
Proof.
  intros Hin. destruct (Hrest i j Hin) as (-> & Hv0 & Hv1 & _).
  by apply f_eq_val_ext.
Qed.

Lemma rest_f_eq_at i j (u : Vec Q) k :
  in_grid c i j = true → u 0%nat = 0%Q → u 1%nat = 0%Q →
  f_eq_val (rho G i j) u k = f_eq_val (flit 1) at_rest k.
Proof.
  intros Hin H0 H1. destruct (Hrest i j Hin) as (-> & _).
  by apply f_eq_val_ext.
Qed.

Lemma rest_collide order :
  order ≡ₚ interior_cells c → collide_and_stream c order G = Some G.
Proof.
  intros Hperm.
  destruct (collide_and_stream_run c order G Hperm)
    as (g' & -> & (Hr & Hv & Hm & Ho) & Hn).
  f_equal. apply grid_ext; intros; try congruence. rewrite Hn.
  destruct (bool_decide ((i, j) ∈ order)) eqn:Hd; [|done].
  destruct (k <? 9)%nat eqn:Hk; [|done]. cbn [andb].
  apply bool_decide_eq_true in Hd. rewrite Hperm in Hd.
  apply elem_of_interior_cells in Hd as [Hi Hj].
  pose proof (e_bounds k) as [He1 He2]. apply Nat.ltb_lt in Hk.
  assert (in_grid c (i - (e k).1) (j - (e k).2) = true) as Hup
    by (apply in_grid_true; lia).
  assert (in_grid c i j = true) as Hin by (apply in_grid_true; lia).
  unfold collide_val. cbn zeta. rewrite rest_f_eq by done.
  destruct (Hrest _ _ Hup) as (_ & _ & _ & Hf). destruct (Hf k Hk) as [-> _].
  destruct (Hrest _ _ Hin) as (_ & _ & _ & Hf'). destruct (Hf' k Hk) as [_ ->].
  destruct (f_eq_val_reduced (flit 1) at_rest k) as [x ->].
  apply relax_fixed.
Qed.

Lemma rest_macro_var order :
  order ≡ₚ interior_cells c → update_macro_var c order G = Some G.
Proof.
  intros Hperm.
  destruct (update_macro_var_run c order G Hperm)
    as (g' & -> & Hn & Hm & Hr & Hv & Ho).
  assert (∀ i j, (i, j) ∈ order → in_grid c i j = true) as Hgrid.
  { intros i j Hin. rewrite Hperm in Hin.
    apply elem_of_interior_cells in Hin. apply in_grid_true. lia. }
  assert (∀ i j, in_grid c i j = true →
    macro_rho G i j = accum (λ k, f_eq_val (flit 1) at_rest k) (static_range 9))
    as Er.
  { intros i j Hin. unfold macro_rho. apply accum_ext. intros k Hk.
    destruct (Hrest i j Hin) as (_ & _ & _ & Hf).
    apply Hf, Nat.ltb_lt. by apply static_range_lt. }
  assert (∀ i j d, in_grid c i j = true →
    macro_mom G i j d =
      accum (λ k, fmul (of_int (e_at k d)) (f_eq_val (flit 1) at_rest k))
            (static_range 9)) as Em.
  { intros i j d Hin. unfold macro_mom. apply accum_ext. intros k Hk.
    destruct (Hrest i j Hin) as (_ & _ & _ & Hf).
    destruct (Hf k) as [_ ->]; [|done]. apply Nat.ltb_lt. by apply static_range_lt. }
  destruct rest_macro as [R1 R2].
  f_equal. apply grid_ext; intros; try congruence.
  - rewrite Hr. destruct (bool_decide ((i, j) ∈ order)) eqn:Hd; [|done].
    apply bool_decide_eq_true, Hgrid in Hd.
    rewrite Er, R1 by done. by destruct (Hrest i j Hd) as (-> & _).
  - rewrite Hv. destruct (bool_decide ((i, j) ∈ order)) eqn:Hd; [|done].
    destruct (k <? 2)%nat eqn:Hk; [|done]. cbn [andb].
    apply bool_decide_eq_true, Hgrid in Hd. apply Nat.ltb_lt in Hk.
    unfold macro_vel. rewrite Er, Em, R2 by done.
    destruct (Hrest i j Hd) as (_ & H0 & H1 & _).
    by destruct k as [|[|k]]; [..|lia].
  - rewrite Ho. destruct (bool_decide ((i, j) ∈ order)) eqn:Hd; [|done].
    destruct (k <? 9)%nat eqn:Hk; [|done]. cbn [andb].
    apply bool_decide_eq_true, Hgrid in Hd. apply Nat.ltb_lt in Hk.
    destruct (Hrest i j Hd) as (_ & _ & _ & Hf). destruct (Hf k Hk) as [-> ->]. done.
Qed.

Lemma rest_extrapolate (u : Vec Q) inb jnb k :
  in_grid c inb jnb = true → (k < 9)%nat → u 0%nat = 0%Q → u 1%nat = 0%Q →
  extrapolate G u inb jnb k = f_eq_val (flit 1) at_rest k.
Proof.
  intros Hn Hk H0 H1. unfold extrapolate.
  rewrite rest_f_eq, (rest_f_eq_at inb jnb u) by done.
  destruct (Hrest _ _ Hn) as (_ & _ & _ & Hf). destruct (Hf k Hk) as [-> _].
  destruct (f_eq_val_reduced (flit 1) at_rest k) as [x ->].
  apply extrapolate_fixed.
Qed.

Lemma rest_bc_core dr ibc jbc inb jnb :
  in_grid c ibc jbc = true → in_grid c inb jnb = true →
  (ibc, jbc) ≠ (inb, jnb) →
  apply_bc_core c 1 dr ibc jbc inb jnb G = Some G.
Proof.
  intros Hb Hn Hne.
  destruct (apply_bc_core_spec c 1 dr ibc jbc inb jnb G Hb Hn Hne)
    as (g' & -> & Hm & Hfn & Hv & Hr & Ho).
  destruct (Hrest _ _ Hb) as (Rb & Vb0 & Vb1 & Fb).
  destruct (Hrest _ _ Hn) as (Rn & Vn0 & Vn1 & Fn).
  assert (∀ d, (d < 2)%nat → bc_vel_val c 1 dr G ibc jbc inb jnb d = 0%Q) as Hzero.
  { intros d Hd. unfold bc_vel_val. change (1 =? 1) with true. cbv iota.
    destruct (Z.eqb_spec (bc_type_at c dr) 0) as [E0|E0].
    - rewrite (Hwalls dr E0). by destruct d.
    - destruct (bc_type_at c dr =? 1); by destruct d as [|[|d]]; [..|lia]. }
  assert (∀ d, (d < 2)%nat → vel G ibc jbc d = 0%Q) as Hstill
    by (intros d Hd; by destruct d as [|[|d]]; [..|lia]).
  f_equal. apply grid_ext; intros; try congruence.
  - rewrite Hr. destruct (at_cell ibc jbc i j) eqn:Hc; [|done].
    apply at_cell_true in Hc as [-> ->]. congruence.
  - rewrite Hv. destruct (at_cell ibc jbc i j) eqn:Hc; [|done].
    destruct (k <? 2)%nat eqn:Hk; [|done]. cbn [andb].
    apply at_cell_true in Hc as [-> ->]. apply Nat.ltb_lt in Hk.
    by rewrite Hzero, Hstill.
  - rewrite Ho. destruct (at_cell ibc jbc i j) eqn:Hc; [|done].
    destruct (k <? 9)%nat eqn:Hk; [|done]. cbn [andb].
    apply at_cell_true in Hc as [-> ->]. apply Nat.ltb_lt in Hk.
    destruct (Fb k Hk) as [-> _]. apply rest_extrapolate; try done.
    + rewrite Hv, at_cell_refl. cbn [andb Nat.ltb Nat.leb]. apply Hzero. lia.
    + rewrite Hv, at_cell_refl. cbn [andb Nat.ltb Nat.leb]. apply Hzero. lia.
Qed.

Lemma rest_obstacle i j :
  in_grid c i j = true → obstacle_safe c G → bc_obstacle c (i, j) G = Some G.
Proof.
  intros Hin Hsafe. destruct (masked c G i j) eqn:Hmk;
    [|by apply bc_obstacle_unmasked].
  pose proof (Hsafe i j Hin Hmk) as Hnb.
  destruct (bc_obstacle_masked c G i j Hin Hmk Hnb)
    as (g' & -> & Hm & Hfn & Hv & Hr & Ho).
  destruct (Hrest _ _ Hin) as (Rb & Vb0 & Vb1 & Fb).
  destruct (Hrest _ _ Hnb) as (Rn & _).
  f_equal. apply grid_ext; [intros p q|intros p q k|intros p q|
                            intros p q k|intros p q k]; try congruence.
  - rewrite Hr. destruct (at_cell i j p q) eqn:Hc; [|done].
    apply at_cell_true in Hc as [-> ->]. congruence.
  - rewrite Hv. destruct (at_cell i j p q) eqn:Hc; [|done].
    destruct (k <? 2)%nat eqn:Hk; [|done]. cbn [andb].
    apply at_cell_true in Hc as [-> ->]. apply Nat.ltb_lt in Hk.
    by destruct k as [|[|k]]; [..|lia].
  - rewrite Ho. destruct (at_cell i j p q) eqn:Hc; [|done].
    destruct (k <? 9)%nat eqn:Hk; [|done]. cbn [andb].
    apply at_cell_true in Hc as [-> ->]. apply Nat.ltb_lt in Hk.
    destruct (Fb k Hk) as [-> _]. apply rest_extrapolate; try done.
    + by rewrite Hv, at_cell_refl.
    + by rewrite Hv, at_cell_refl.
Qed.

Lemma for_each_fixed {A} (body : A → Grid Q → option (Grid Q)) (l : list A) :
  (∀ x, x ∈ l → body x G = Some G) → for_each l body G = Some G.
Proof.
  induction l as [|x l IH]; intros Hbody; [done|].
  cbn [for_each]. rewrite Hbody by left. rewrite bind_Some.
  apply IH. intros y Hy. apply Hbody. by right.
Qed.

Lemma rest_apply_bc o :
  bc_order_ok c o → obstacle_safe c G → apply_bc c o G = Some G.
Proof.
  intros (Hlr & Htb & Hob) Hsafe. unfold apply_bc, par_for.
  rewrite for_each_fixed, bind_Some; [rewrite for_each_fixed, bind_Some|].
  - apply for_each_fixed. intros [i j] Hin. rewrite Hob in Hin.
    apply elem_of_all_cells, in_grid_true in Hin. by apply rest_obstacle.
  - intros i Hi. rewrite Htb in Hi. apply elem_of_top_bottom_range in Hi.
    unfold bc_top_bottom.
    rewrite rest_bc_core, bind_Some;
      [apply rest_bc_core|..]; rewrite ?in_grid_true; try lia;
      intros [= ?]; lia.
  - intros j Hj. rewrite Hlr in Hj. apply elem_of_left_right_range in Hj.
    unfold bc_left_right.
    rewrite rest_bc_core, bind_Some;
      [apply rest_bc_core|..]; rewrite ?in_grid_true; try lia;
      intros [= ?]; lia.
Qed.

Lemma rest_step o :
  step_order_ok c o → obstacle_safe c G → step c o G = Some G.
Proof.
  intros (Hc & Hm & Hb) Hsafe. unfold step.
  rewrite rest_collide, bind_Some, rest_macro_var, bind_Some by done.
  by apply rest_apply_bc.
Qed.

Lemma rest_run os :
  Forall (step_order_ok c) os → obstacle_safe c G → run c os G = Some G.
Proof.
  intros Hall Hsafe. induction Hall as [|o os Ho Hos IH]; [done|].
  cbn [run]. by rewrite rest_step, bind_Some.
Qed.

End Rest.

(** X15.  In exact arithmetic a fluid at rest between walls at rest stays
    at rest.  On a grid with at least two rows and columns, when every edge
    of type [0] prescribes the velocity [(0, 0)] and the obstacle keeps its
    neighbours inside the grid, every time step returns the grid [init]
    produced, whatever the viscosity, the types of the edges and the
    iteration orders: [solve] ends, after any number of steps, in the state
    it started the first step from. *)
Theorem rest_state_is_steady (c : Config Q) (oi : list (Z * Z))
    (os : list StepOrder) (g0 : Grid Q) :
  2 ≤ nx c → 2 ≤ ny c → walls_at_rest c → disc_safe c →
  oi ≡ₚ all_cells c → Forall (step_order_ok c) os →
  ∃ g, init c oi g0 = Some g ∧ rest_state c g ∧ solve c oi os g0 = Some g.
Proof.
  intros Hnx Hny Hwalls Hdisc Hoi Hos. unfold solve.
  destruct (init_run c oi g0 Hoi) as (g & -> & Hr & Hv & Hm & Hn & Ho).
  exists g. split; [done|].
  assert (rest_state c g) as Hrest.
  { intros i j Hin. split_and!.
    - by rewrite Hr, Hin.
    - by rewrite Hv, Hin.
    - by rewrite Hv, Hin.
    - intros k Hk%Nat.ltb_lt. by rewrite Ho, Hn, Hin, Hk. }
  split; [done|]. rewrite bind_Some. apply rest_run; try done.
  apply (disc_obstacle_safe c g); [|done].
  intros i j Hin. by rewrite Hm, Hin.
Qed.

(** ** The density and the distributions, in exact arithmetic *)


Section Mass.
Variable c : Config Q.

Implicit Types (g : Grid Q) (i j ibc jbc inb jnb : Z) (k d dr : nat).

Lemma mass_kept g g' :
  (∀ i j, in_grid c i j = true → cell_kept g g' i j) →
  mass_consistent c g → mass_consistent c g'.
Proof.
  intros Hk Hg i j Hin. destruct (Hk i j Hin) as (-> & _ & Ko).
  rewrite (accum_ext _ (λ k, f_old g i j k)); [by apply Hg|].
  intros k _. apply Ko.
Qed.







End Mass.


(** ** The frame files *)

Module FrameFacts.
Import Ascii String Frame.







End FrameFacts.

(** ** The further results at concrete inputs *)

Lemma disc_safe_b_true `{Scalar F} (c : Config F) : disc_safe_b c = true → disc_safe c.
Proof.
  unfold disc_safe_b. rewrite forallb_forall. intros Hall i j Hin Hd.
  specialize (Hall (i, j)). cbn [fst snd] in Hall. rewrite Hd in Hall.
  apply Hall, list_elem_of_In, elem_of_all_cells. by apply in_grid_true.
Qed.

Lemma obstacle_separated_b_true `{Scalar F} (c : Config F) (g : Grid F) :
  obstacle_separated_b c g = true → obstacle_separated c g.
Proof.
  unfold obstacle_separated_b. rewrite forallb_forall. intros Hall i j Hin Hmk.
  specialize (Hall (i, j)). cbn [fst snd] in Hall. rewrite Hmk in Hall.
  cbn [implb] in Hall. apply negb_true_iff, Hall, list_elem_of_In, elem_of_all_cells.
  by apply in_grid_true.
Qed.

Lemma karman_disc_safe : disc_safe karman.
Proof. apply disc_safe_b_true. vm_compute. reflexivity. Qed.

Lemma lid_obstacle_safe : obstacle_safe lid_obstacle (fresh lid_obstacle).
Proof. apply ring_free_safe, lid_obstacle_ring_free. Qed.


Lemma apply_bc_faults_on_thin_grid_witness :
  1 ≤ nx one_cell ∧ 1 ≤ ny one_cell ∧ (nx one_cell = 1 ∨ ny one_cell = 1) ∧
  step_order_ok one_cell (step_serial one_cell) ∧
  step one_cell (step_serial one_cell) (fresh one_cell) = None.
Proof.
  split_and!; [cbn; lia|cbn; lia|by left|apply step_serial_ok|].
  apply (apply_bc_faults_on_thin_grid one_cell (step_serial one_cell) (fresh one_cell));
    [cbn; lia|cbn; lia|by left|apply step_serial_ok].
Defined.

Lemma rev_interior_cells `{Scalar F} (c : Config F) :
  rev (interior_cells c) ≡ₚ interior_cells c.
Proof. symmetry. apply Permutation_rev. Qed.

Lemma collide_and_stream_idempotent_witness :
  interior_cells lid_obstacle ≡ₚ interior_cells lid_obstacle ∧
  rev (interior_cells lid_obstacle) ≡ₚ interior_cells lid_obstacle ∧
  ∃ g', collide_and_stream lid_obstacle (interior_cells lid_obstacle)
          (fresh lid_obstacle) = Some g' ∧
    collide_and_stream lid_obstacle (rev (interior_cells lid_obstacle)) g' = Some g'.
Proof.
  split_and!; [reflexivity|apply rev_interior_cells|].
  destruct (collide_and_stream_run lid_obstacle (interior_cells lid_obstacle)
              (fresh lid_obstacle)) as (g' & Hrun & _); [reflexivity|].
  exists g'. split; [exact Hrun|].
  apply (collide_and_stream_idempotent lid_obstacle (interior_cells lid_obstacle)
           (rev (interior_cells lid_obstacle)) (fresh lid_obstacle) g');
    [reflexivity|apply rev_interior_cells|exact Hrun].
Defined.

Lemma update_macro_var_idempotent_witness :
  interior_cells lid_obstacle ≡ₚ interior_cells lid_obstacle ∧
  rev (interior_cells lid_obstacle) ≡ₚ interior_cells lid_obstacle ∧
  ∃ g', update_macro_var lid_obstacle (interior_cells lid_obstacle)
          (fresh lid_obstacle) = Some g' ∧
    update_macro_var lid_obstacle (rev (interior_cells lid_obstacle)) g' = Some g'.
Proof.
  split_and!; [reflexivity|apply rev_interior_cells|].
  destruct (update_macro_var_run lid_obstacle (interior_cells lid_obstacle)
              (fresh lid_obstacle)) as (g' & Hrun & _); [reflexivity|].
  exists g'. split; [exact Hrun|].
  apply (update_macro_var_idempotent lid_obstacle (interior_cells lid_obstacle)
           (rev (interior_cells lid_obstacle)) (fresh lid_obstacle) g');
    [reflexivity|apply rev_interior_cells|exact Hrun].
Defined.

Lemma apply_bc_writes_boundary_only_witness :
  bc_order_ok lid_obstacle (bc_serial lid_obstacle) ∧
  masked lid_obstacle (fresh lid_obstacle) 1 1 = false ∧
  ∃ g', apply_bc lid_obstacle (bc_serial lid_obstacle) (fresh lid_obstacle) = Some g' ∧
    rho g' 1 1 = rho (fresh lid_obstacle) 1 1.
Proof.
  split_and!; [apply bc_serial_ok|vm_compute; reflexivity|].
  destruct (apply_bc_complete lid_obstacle (bc_serial lid_obstacle) (fresh lid_obstacle))
    as (g' & Hrun & _); [cbn; lia|cbn; lia|apply bc_serial_ok|apply lid_obstacle_safe|].
  exists g'. split; [exact Hrun|].
  destruct (apply_bc_writes_boundary_only lid_obstacle (bc_serial lid_obstacle)
              (fresh lid_obstacle) g' (bc_serial_ok lid_obstacle) Hrun)
    as (_ & _ & Hcells).
  destruct (Hcells 1 1) as (Hr & _); [cbn; lia|cbn; lia|vm_compute; reflexivity|].
  exact Hr.
Defined.

Lemma apply_bc_unknown_type_witness :
  3 ≤ nx odd_type3 ∧ 3 ≤ ny odd_type3 ∧
  bc_order_ok odd_type3 (bc_serial odd_type3) ∧
  edge_cell odd_type3 1 1 2 1 1 ∧ masked odd_type3 (fresh odd_type3) 1 2 = false ∧
  bc_type_at odd_type3 1 = 2 ∧
  ∃ g', apply_bc odd_type3 (bc_serial odd_type3) (fresh odd_type3) = Some g' ∧
    (∀ d, vel g' 1 2 d = vel (fresh odd_type3) 1 2 d) ∧
    rho g' 1 2 = rho (fresh odd_type3) 1 1.
Proof.
  assert (edge_cell odd_type3 1 1 2 1 1) as Hedge
    by (apply (edge_top odd_type3 1); cbn; lia).
  split_and!; [cbn; lia|cbn; lia|apply bc_serial_ok|exact Hedge|reflexivity|reflexivity|].
  destruct (apply_bc_complete odd_type3 (bc_serial odd_type3) (fresh odd_type3))
    as (g' & Hrun & _);
    [cbn; lia|cbn; lia|apply bc_serial_ok|apply no_obstacle_safe; discriminate|].
  exists g'. split; [exact Hrun|].
  apply (apply_bc_unknown_type odd_type3 (bc_serial odd_type3) (fresh odd_type3) g'
           1%nat 1 2 1 1);
    [cbn; lia|cbn; lia|apply bc_serial_ok|exact Hrun|exact Hedge|left; cbn; lia
    |reflexivity|discriminate|discriminate].
Defined.

Lemma solve_completes_witness :
  2 ≤ nx karman ∧ 2 ≤ ny karman ∧ all_cells karman ≡ₚ all_cells karman ∧
  Forall (step_order_ok karman)
         (replicate (Z.to_nat (steps karman)) (step_serial karman)) ∧
  disc_safe karman ∧
  is_Some (solve_serial karman blank).
Proof.
  assert (Forall (step_order_ok karman)
            (replicate (Z.to_nat (steps karman)) (step_serial karman))) as Hall
    by (apply Forall_replicate, step_serial_ok).
  split_and!; [cbn; lia|cbn; lia|reflexivity|exact Hall|exact karman_disc_safe|].
  destruct (solve_completes karman (all_cells karman)
              (replicate (Z.to_nat (steps karman)) (step_serial karman)) blank)
    as [Hsome _]; [cbn; lia|cbn; lia|reflexivity|exact Hall|].
  destruct (Hsome karman_disc_safe) as (g' & Hrun & _).
  unfold solve_serial. rewrite Hrun. exists g'. reflexivity.
Defined.

Lemma disturbed_agrees_around (g : Grid Q) : agree_around g (disturbed g) 1 1.
Proof.
  intros di dj Hdi Hdj. split_and!; try done.
  unfold disturbed. cbn [put_rho rho]. unfold upd.
  assert (at_cell 5 5 (1 + di) (1 + dj) = false) as ->; [|done].
  unfold at_cell. apply andb_false_iff. left. apply Z.eqb_neq. lia.
Qed.

Lemma mask_disturbed (g : Grid Q) : mask (disturbed g) = mask g.
Proof. reflexivity. Qed.

Lemma step_domain_of_dependence_witness :
  step_order_ok lid_obstacle (step_serial lid_obstacle) ∧
  step_order_ok lid_obstacle (step_reversed lid_obstacle) ∧
  masked lid_obstacle (fresh lid_obstacle) 1 1 = false ∧
  masked lid_obstacle (disturbed (fresh lid_obstacle)) 1 1 = false ∧
  agree_around (fresh lid_obstacle) (disturbed (fresh lid_obstacle)) 1 1 ∧
  ∃ g1' g2',
    step lid_obstacle (step_serial lid_obstacle) (fresh lid_obstacle) = Some g1' ∧
    step lid_obstacle (step_reversed lid_obstacle) (disturbed (fresh lid_obstacle))
      = Some g2' ∧
    rho g2' 1 1 = rho g1' 1 1.
Proof.
  split_and!; [apply step_serial_ok|apply step_reversed_ok|vm_compute; reflexivity
              |vm_compute; reflexivity|apply disturbed_agrees_around|].
  destruct (step_complete lid_obstacle (step_serial lid_obstacle) (fresh lid_obstacle))
    as (g1' & E1 & _); [cbn; lia|cbn; lia|apply step_serial_ok|apply lid_obstacle_safe|].
  destruct (step_complete lid_obstacle (step_reversed lid_obstacle)
              (disturbed (fresh lid_obstacle)))
    as (g2' & E2 & _); [cbn; lia|cbn; lia|apply step_reversed_ok| |].
  { apply (obstacle_safe_mask lid_obstacle (fresh lid_obstacle));
      [apply mask_disturbed|apply lid_obstacle_safe]. }
  exists g1', g2'. split_and!; [exact E1|exact E2|].
  apply (step_domain_of_dependence lid_obstacle (step_serial lid_obstacle)
           (step_reversed lid_obstacle) (fresh lid_obstacle)
           (disturbed (fresh lid_obstacle)) g1' g2' 1 1);
    [apply step_serial_ok|apply step_reversed_ok|exact E1|exact E2|cbn; lia|cbn; lia
    |vm_compute; reflexivity|vm_compute; reflexivity|apply disturbed_agrees_around].
Defined.

Lemma small_obstacle_separated :
  obstacle_separated small_obstacle (fresh small_obstacle).
Proof. apply obstacle_separated_b_true. vm_compute. reflexivity. Qed.

Lemma obstacle_loop_race_free_witness :
  obstacle_separated small_obstacle (fresh small_obstacle) ∧
  Forall2 (λ o1 o2, step_order_ok small_obstacle o1 ∧ step_order_ok small_obstacle o2)
          (replicate 3 (step_serial small_obstacle))
          (replicate 3 (step_second_first small_obstacle)) ∧
  run small_obstacle (replicate 3 (step_serial small_obstacle)) (fresh small_obstacle) =
  run small_obstacle (replicate 3 (step_second_first small_obstacle))
      (fresh small_obstacle).
Proof.
  assert (Forall2 (λ o1 o2, step_order_ok small_obstacle o1 ∧
                            step_order_ok small_obstacle o2)
            (replicate 3 (step_serial small_obstacle))
            (replicate 3 (step_second_first small_obstacle))) as Hall.
  { repeat constructor; first [apply step_serial_ok | apply step_second_first_ok]. }
  split_and!; [apply small_obstacle_separated|exact Hall|].
  destruct (obstacle_loop_race_free small_obstacle
              (replicate 3 (step_serial small_obstacle))
              (replicate 3 (step_second_first small_obstacle))
              (fresh small_obstacle) small_obstacle_separated) as [_ Hrun].
  exact (Hrun Hall).
Defined.

Lemma apply_bc_idempotent_witness :
  3 ≤ nx channel3 ∧ 3 ≤ ny channel3 ∧ cy channel3 ≠ 1 ∧
  bc_order_ok channel3 (bc_serial channel3) ∧
  ∃ g', apply_bc channel3 (bc_serial channel3) (fresh channel3) = Some g' ∧
    apply_bc channel3 (bc_serial channel3) g' = Some g'.
Proof.
  split_and!; [cbn; lia|cbn; lia|discriminate|apply bc_serial_ok|].
  destruct (apply_bc_complete channel3 (bc_serial channel3) (fresh channel3))
    as (g' & Hrun & _);
    [cbn; lia|cbn; lia|apply bc_serial_ok|apply no_obstacle_safe; discriminate|].
  exists g'. split; [exact Hrun|].
  apply (apply_bc_idempotent channel3 (bc_serial channel3) (bc_serial channel3)
           (fresh channel3) g');
    [cbn; lia|cbn; lia|discriminate|apply bc_serial_ok|apply bc_serial_ok|exact Hrun].
Defined.

Lemma get_display_var_magnitude_witness :
  all_cells one_cell ≡ₚ all_cells one_cell ∧
  ∃ dv', get_display_var sqrt_Q one_cell (all_cells one_cell) moving_cell (λ _ _, 0%Q)
           = Some dv' ∧
    dv' 0 0 = (1 # 2)%Q.
Proof.
  split; [reflexivity|].
  destruct (get_display_var_magnitude one_cell sqrt_Q (all_cells one_cell)
              moving_cell (λ _ _, 0%Q)) as (dv' & Hrun & Hdv); [reflexivity|].
  exists dv'. split; [exact Hrun|]. rewrite Hdv. vm_compute. reflexivity.
Defined.

Lemma pass_to_py_x_velocity_witness :
  all_cells channel3 ≡ₚ all_cells channel3 ∧
  ∃ a, pass_to_py channel3 (all_cells channel3) (fresh channel3) (λ _ _, 7%Q) = Some a ∧
    length a = 3%nat ∧
    a !! 1%nat ≫= (λ row, row !! 2%nat) = Some (vel (fresh channel3) 1 2 0%nat).
Proof.
  split; [reflexivity|].
  destruct (pass_to_py_x_velocity channel3 (all_cells channel3) (fresh channel3)
              (λ _ _, 7%Q)) as (a & Hrun & Hlen & _ & Hval); [reflexivity|].
  exists a. split_and!; [exact Hrun|exact Hlen|].
  apply (Hval 1 2); cbn; lia.
Defined.

Lemma equilibrium_moments_witness :
  (∀ k, (k < 9)%nat → f_new (fresh lid_obstacle) 1 1 k = f_eq_val 1%Q at_rest k) ∧
  ¬ (1 == 0)%Q ∧
  Qeq (macro_rho (fresh lid_obstacle) 1 1) 1%Q ∧
  Qeq (macro_vel (fresh lid_obstacle) 1 1 0) 0%Q.
Proof.
  assert (∀ k, (k < 9)%nat →
            f_new (fresh lid_obstacle) 1 1 k = f_eq_val 1%Q at_rest k) as Hf.
  { intros k Hk. do 9 (destruct k as [|k]; [vm_compute; reflexivity|]). lia. }
  assert (¬ (1 == 0)%Q) as Hne by discriminate.
  destruct (equilibrium_moments 1%Q at_rest) as (_ & _ & _ & Hcell).
  destruct (Hcell (fresh lid_obstacle) 1 1 Hf) as [Hr Hv].
  destruct (Hv Hne) as [Hv0 _].
  split_and!; [exact Hf|exact Hne|exact Hr|exact Hv0].
Defined.

Lemma collide_and_stream_conserves_witness :
  interior_cells lid_obstacle ≡ₚ interior_cells lid_obstacle ∧
  2 ≤ 2 ≤ nx lid_obstacle - 3 ∧ 2 ≤ 2 ≤ ny lid_obstacle - 3 ∧
  Qeq (rho (fresh lid_obstacle) 2 2)
      (accum (λ k, f_old (fresh lid_obstacle) 2 2 k) (static_range 9)) ∧
  ∃ g', collide_and_stream lid_obstacle (interior_cells lid_obstacle)
          (fresh lid_obstacle) = Some g' ∧
    Qeq (accum (λ k, f_new g' (2 + (e k).1) (2 + (e k).2) k) (static_range 9))
        (rho (fresh lid_obstacle) 2 2).
Proof.
  assert (Qeq (rho (fresh lid_obstacle) 2 2)
              (accum (λ k, f_old (fresh lid_obstacle) 2 2 k) (static_range 9))) as Hrho
    by (vm_compute; reflexivity).
  assert (2 ≤ 2 ≤ nx lid_obstacle - 3) as Hi by (cbn; lia).
  assert (2 ≤ 2 ≤ ny lid_obstacle - 3) as Hj by (cbn; lia).
  refine (conj _ (conj Hi (conj Hj (conj Hrho _)))); [reflexivity|].
  destruct (collide_and_stream_conserves lid_obstacle (interior_cells lid_obstacle)
              (fresh lid_obstacle) 2 2) as (g' & Hrun & Hmass & _);
    [reflexivity|exact Hi|exact Hj|exact Hrho|].
  exists g'. split; [exact Hrun|exact Hmass].
Defined.

Lemma still_box_walls : walls_at_rest still_box.
Proof.
  intros dr. do 4 (destruct dr as [|dr]; [cbn; first [done|discriminate]|]).
  by destruct dr.
Qed.

Lemma still_box_disc_safe : disc_safe still_box.
Proof. apply disc_safe_b_true. vm_compute. reflexivity. Qed.

Lemma rest_state_is_steady_witness :
  2 ≤ nx still_box ∧ 2 ≤ ny still_box ∧ walls_at_rest still_box ∧
  disc_safe still_box ∧ all_cells still_box ≡ₚ all_cells still_box ∧
  Forall (step_order_ok still_box) (replicate 10 (step_serial still_box)) ∧
  solve_serial still_box blank = init still_box (all_cells still_box) blank.
Proof.
  assert (Forall (step_order_ok still_box) (replicate 10 (step_serial still_box)))
    as Hall by (apply Forall_replicate, step_serial_ok).
  split_and!; [cbn; lia|cbn; lia|apply still_box_walls|apply still_box_disc_safe
              |reflexivity|exact Hall|].
  destruct (rest_state_is_steady still_box (all_cells still_box)
              (replicate 10 (step_serial still_box)) blank)
    as (g & Hinit & _ & Hsolve);
    [cbn; lia|cbn; lia|apply still_box_walls|apply still_box_disc_safe
    |reflexivity|exact Hall|].
  unfold solve_serial. change (Z.to_nat (steps still_box)) with 10%nat.
  by rewrite Hsolve, Hinit.
Defined.

Lemma obstacle_disabled_unless_cy_is_1_witness :
  cy cy_two ≠ 1 ∧ all_cells cy_two ≡ₚ all_cells cy_two ∧
  in_disc cy_two 2 2 = true ∧
  ∃ g', init cy_two (all_cells cy_two) blank = Some g' ∧ mask g' 2 2 = 0%Q.
Proof.
  split_and!; [discriminate|reflexivity|reflexivity|].
  destruct (obstacle_disabled_unless_cy_is_1 cy_two (all_cells cy_two)
              (all_cells cy_two) blank blank) as [(g' & Hrun & Hmask) _];
    [discriminate|reflexivity|reflexivity|].
  exists g'. split; [exact Hrun|]. by apply Hmask.
Defined.

Lemma left_right_row_0_is_overwritten_witness :
  3 ≤ nx channel3 ∧ 3 ≤ ny channel3 ∧ bc_order_ok channel3 (bc_serial channel3) ∧
  o_lr (bc_interior_rows channel3) ≡ₚ range 1 (ny channel3 - 1) ∧
  (bc_type_at channel3 3 = 0 ∨ bc_type_at channel3 3 = 1) ∧
  apply_bc channel3 (bc_interior_rows channel3) (fresh channel3)
    = apply_bc channel3 (bc_serial channel3) (fresh channel3).
Proof.
  split_and!; [cbn; lia|cbn; lia|apply bc_serial_ok|reflexivity|by left|].
  apply (left_right_row_0_is_overwritten channel3 (bc_serial channel3)
           (bc_interior_rows channel3) (fresh channel3));
    [cbn; lia|cbn; lia|apply bc_serial_ok|reflexivity|reflexivity|reflexivity|by left].
Defined.

Lemma lid_obstacle_disc_safe : disc_safe lid_obstacle.
Proof. apply disc_safe_b_true. vm_compute. reflexivity. Qed.

Lemma ring_f_new_is_never_updated_witness :
  all_cells lid_obstacle ≡ₚ all_cells lid_obstacle ∧
  Forall (step_order_ok lid_obstacle) (replicate 3 (step_serial lid_obstacle)) ∧
  in_grid lid_obstacle 0 3 = true ∧
  ∃ g', solve lid_obstacle (all_cells lid_obstacle)
          (replicate 3 (step_serial lid_obstacle)) blank = Some g' ∧
    f_new g' 0 3 1%nat = f_eq_val (flit 1) at_rest 1.
Proof.
  assert (Forall (step_order_ok lid_obstacle) (replicate 3 (step_serial lid_obstacle)))
    as Hall by (apply Forall_replicate, step_serial_ok).
  split_and!; [reflexivity|exact Hall|reflexivity|].
  destruct (solve_safe lid_obstacle (all_cells lid_obstacle)
              (replicate 3 (step_serial lid_obstacle)) blank) as (g' & Hrun);
    [cbn; lia|cbn; lia|apply lid_obstacle_disc_safe|reflexivity|exact Hall|].
  exists g'. split; [exact Hrun|].
  apply (ring_f_new_is_never_updated lid_obstacle (all_cells lid_obstacle)
           (replicate 3 (step_serial lid_obstacle)) blank g');
    [reflexivity|exact Hall|exact Hrun|reflexivity|cbn; lia|lia].
Defined.

Lemma apply_bc_density_zero_gradient_witness :
  3 ≤ nx channel3 ∧ 3 ≤ ny channel3 ∧ bc_order_ok channel3 (bc_serial channel3) ∧
  edge_cell channel3 0 0 1 1 1 ∧
  masked channel3 (fresh channel3) 0 1 = false ∧
  masked channel3 (fresh channel3) 1 1 = false ∧
  ∃ g', apply_bc channel3 (bc_serial channel3) (fresh channel3) = Some g' ∧
    rho g' 0 1 = rho g' 1 1.
Proof.
  assert (edge_cell channel3 0 0 1 1 1) as Hedge
    by (apply (edge_left channel3 1); cbn; lia).
  split_and!; [cbn; lia|cbn; lia|apply bc_serial_ok|exact Hedge|reflexivity|reflexivity|].
  destruct (apply_bc_complete channel3 (bc_serial channel3) (fresh channel3))
    as (g' & Hrun & _);
    [cbn; lia|cbn; lia|apply bc_serial_ok|apply no_obstacle_safe; discriminate|].
  exists g'. split; [exact Hrun|].
  apply (apply_bc_density_zero_gradient channel3 (bc_serial channel3)
           (fresh channel3) g' 0%nat 0 1 1 1);
    [cbn; lia|cbn; lia|apply bc_serial_ok|exact Hrun|exact Hedge|reflexivity|reflexivity].
Defined.

Lemma extrapolation_keeps_moments_witness :
  in_grid channel3 0 1 = true ∧ in_grid channel3 1 1 = true ∧ (0, 1) ≠ (1, 1) ∧
  Qeq (rho (fresh channel3) 1 1)
      (accum (λ k, f_old (fresh channel3) 1 1 k) (static_range 9)) ∧
  ∃ g', apply_bc_core channel3 1 0 0 1 1 1 (fresh channel3) = Some g' ∧
    Qeq (accum (λ k, f_old g' 0 1 k) (static_range 9)) (rho g' 0 1).
Proof.
  assert (Qeq (rho (fresh channel3) 1 1)
              (accum (λ k, f_old (fresh channel3) 1 1 k) (static_range 9))) as Hrho
    by (vm_compute; reflexivity).
  split_and!; [reflexivity|reflexivity|discriminate|exact Hrho|].
  destruct (extrapolation_keeps_moments channel3 1 0%nat (fresh channel3) 0 1 1 1)
    as (g' & Hrun & Hmass & _); [reflexivity|reflexivity|discriminate|exact Hrho|].
  exists g'. split; [exact Hrun|exact Hmass].
Defined.

